(** * A real-number model of the NeRF notebook (nerf-implementation.ipynb)

    The notebook computes with PyTorch float tensors.  This development
    embeds it over the real numbers [R]: a 1-d tensor is a [list R], a 2-d
    tensor a list of rows, a 3-d tensor a list of 2-d tensors.  Library
    calls ([torch.linspace], [torch.cumprod], [torch.cat], slicing,
    broadcasting) are modelled by list functions named after them; a raised
    exception is an error result.

    What is proved of the real-number model is a fact of exact arithmetic.
    The tensors of the notebook hold IEEE-754 binary32 numbers, and a
    strict inequality or a bound that is met exactly can be lost to
    rounding.  Module [Float32] embeds the sampler a second time, over
    binary32 with every operation rounded, to show where that happens. *)

From Stdlib Require Import Reals List Lra Lia Arith Bool Sorted.
From Stdlib Require Import FunctionalExtensionality.
From Stdlib Require SpecFloat.
Import ListNotations.
Open Scope R_scope.

(** ** Tensors as nested lists *)

Abbreviation tensor1 := (list R).
Abbreviation tensor2 := (list (list R)).
Abbreviation tensor3 := (list (list (list R))).

(** Element-wise combination of two equally shaped tensors. *)
Fixpoint map2 {A B C : Type} (f : A -> B -> C) (a : list A) (b : list B) : list C :=
  match a, b with
  | x :: a', y :: b' => f x y :: map2 f a' b'
  | _, _ => []
  end.

(** [shape] of a 2-d tensor: the width of every row. *)
Definition shape (t : tensor2) : list nat := map (@length R) t.

(** [has_width n t]: [t] is a batch of [n]-component rows. *)
Definition has_width (n : nat) (t : tensor2) : Prop :=
  Forall (fun r => length r = n) t.

Definition unit_interval (v : R) : Prop := 0 <= v <= 1.

(** ** The option monad for calls that can raise *)

Definition obind {A B : Type} (x : option A) (f : A -> option B) : option B :=
  match x with
  | Some a => f a
  | None => None
  end.

Notation "x <- e ;; k" := (obind e (fun x => k))
  (at level 61, e at next level, right associativity).

(** ** NerfModel *)

Module NerfModel.

(** [torch.cat(out, dim=1)] of a Python list of tensors that all have the
    same number of rows: the rows are joined left to right. *)
Definition cat_dim1 (out : list tensor2) : tensor2 :=
  match out with
  | [] => []
  | x :: rest => fold_left (map2 (@app R)) rest x
  end.

(** [positional_encoding(x, L)]: the loop appends [sin(2 ** j * x)] and
    [cos(2 ** j * x)] to [out] for [j] in [range(L)]. *)
Definition positional_encoding (x : tensor2) (L : nat) : tensor2 :=
  let out :=
    fold_left
      (fun out j =>
         (out ++ [map (map (fun v => sin (2 ^ j * v))) x])
             ++ [map (map (fun v => cos (2 ^ j * v))) x])
      (seq 0 L) [x] in
  cat_dim1 out.

(** [nn.Linear]: [y = x W^T + b], [weight] of shape
    [out_features * in_features]. *)
Record Linear := mkLinear {
  in_features : nat;
  weight : tensor2;
  bias : tensor1
}.

Definition dot (a b : tensor1) : R := fold_right Rplus 0 (map2 Rmult a b).

Definition linear_row (l : Linear) (x : tensor1) : tensor1 :=
  map2 (fun w b => dot x w + b) (weight l) (bias l).

(** A row whose width is not [in_features] raises a shape error. *)
Definition linear (l : Linear) (x : tensor2) : option tensor2 :=
  if forallb (fun r => Nat.eqb (length r) (in_features l)) x
  then Some (map (linear_row l) x)
  else None.

Definition relu (v : R) : R := Rmax 0 v.
Definition sigmoid (v : R) : R := 1 / (1 + exp (- v)).

Inductive Layer :=
| LinearL (l : Linear)
| ReLU
| Sigmoid.

Definition layer (ly : Layer) (x : tensor2) : option tensor2 :=
  match ly with
  | LinearL l => linear l x
  | ReLU => Some (map (map relu) x)
  | Sigmoid => Some (map (map sigmoid) x)
  end.

(** [nn.Sequential]: the layers are applied in order. *)
Fixpoint sequential (ls : list Layer) (x : tensor2) : option tensor2 :=
  match ls with
  | [] => Some x
  | ly :: ls' => y <- layer ly x ;; sequential ls' y
  end.

Record t := mk {
  block1 : list Layer;
  block2 : list Layer;
  block3 : list Layer;
  block4 : list Layer;
  posEncCoord_dim : nat;
  posEncDirection_dim : nat
}.

(** [torch.cat((a, b), dim=1)]: raises unless both have the same number of
    rows. *)
Definition cat2_dim1 (a b : tensor2) : option tensor2 :=
  if Nat.eqb (length a) (length b) then Some (map2 (@app R) a b) else None.

(** [tmp[:, -1]]: the last column; an empty row has none. *)
Definition last_column (tmp : tensor2) : option tensor1 :=
  if forallb (fun r => negb (Nat.eqb (length r) 0)) tmp
  then Some (map (fun r => last r 0) tmp)
  else None.

Definition forward (self : t) (o d : tensor2) : option (tensor2 * tensor1) :=
  let emb_x := positional_encoding o (posEncCoord_dim self) in
  let emb_d := positional_encoding d (posEncDirection_dim self) in
  features <- sequential (block1 self) emb_x ;;
  tmp <- (fx <- cat2_dim1 features emb_x ;; sequential (block2 self) fx) ;;
  col <- last_column tmp ;;
  let features := map (@removelast R) tmp in
  let sigma := map relu col in
  features <- (fd <- cat2_dim1 features emb_d ;; sequential (block3 self) fd) ;;
  c <- sequential (block4 self) features ;;
  Some (c, sigma).

(** The layers [__init__] builds for [posEncCoord_dim], [posEncDirection_dim]
    and [output_dim].  The notebook draws the parameters at random; here
    every weight is [w] and every bias is [b]. *)
Definition constant_linear (i o : nat) (w b : R) : Linear :=
  mkLinear i (repeat (repeat w i) o) (repeat b o).

Definition init (posEncCoord_dim posEncDirection_dim output_dim : nat) (w b : R) : t :=
  mk [LinearL (constant_linear (posEncCoord_dim * 3 * 2 + 3) output_dim w b); ReLU;
      LinearL (constant_linear output_dim output_dim w b); ReLU;
      LinearL (constant_linear output_dim output_dim w b); ReLU;
      LinearL (constant_linear output_dim output_dim w b); ReLU]
     [LinearL (constant_linear (posEncCoord_dim * 3 * 2 + output_dim + 3)
                               output_dim w b); ReLU;
      LinearL (constant_linear output_dim output_dim w b); ReLU;
      LinearL (constant_linear output_dim output_dim w b); ReLU;
      LinearL (constant_linear output_dim (output_dim + 1) w b)]
     [LinearL (constant_linear (posEncDirection_dim * 2 * 3 + output_dim + 3)
                               (output_dim / 2) w b); ReLU]
     [LinearL (constant_linear (output_dim / 2) 3 w b); Sigmoid]
     posEncCoord_dim posEncDirection_dim.

(** [nn.Linear(i, o)] allocates a weight of shape [o * i] and a bias of
    length [o] and fills them with drawn values: [w r c] is the value of
    [weight[r, c]] and [b r] that of [bias[r]]. *)
Definition new_linear (i o : nat) (w : nat -> nat -> R) (b : nat -> R) : Linear :=
  mkLinear i (map (fun r => map (w r) (seq 0 i)) (seq 0 o)) (map b (seq 0 o)).

(** [__init__] for any values of the parameters: [w k] and [b k] fill the
    [k]-th [nn.Linear] in the order of construction. *)
Definition init_with (w : nat -> nat -> nat -> R) (b : nat -> nat -> R)
    (posEncCoord_dim posEncDirection_dim output_dim : nat) : t :=
  mk [LinearL (new_linear (posEncCoord_dim * 3 * 2 + 3) output_dim
                          (w 0%nat) (b 0%nat)); ReLU;
      LinearL (new_linear output_dim output_dim (w 1%nat) (b 1%nat)); ReLU;
      LinearL (new_linear output_dim output_dim (w 2%nat) (b 2%nat)); ReLU;
      LinearL (new_linear output_dim output_dim (w 3%nat) (b 3%nat)); ReLU]
     [LinearL (new_linear (posEncCoord_dim * 3 * 2 + output_dim + 3) output_dim
                          (w 4%nat) (b 4%nat)); ReLU;
      LinearL (new_linear output_dim output_dim (w 5%nat) (b 5%nat)); ReLU;
      LinearL (new_linear output_dim output_dim (w 6%nat) (b 6%nat)); ReLU;
      LinearL (new_linear output_dim (output_dim + 1) (w 7%nat) (b 7%nat))]
     [LinearL (new_linear (posEncDirection_dim * 2 * 3 + output_dim + 3)
                          (output_dim / 2) (w 8%nat) (b 8%nat)); ReLU]
     [LinearL (new_linear (output_dim / 2) 3 (w 9%nat) (b 9%nat)); Sigmoid]
     posEncCoord_dim posEncDirection_dim.

(** The colour head as [__init__] builds it:
    [nn.Sequential(nn.Linear(output_dim // 2, 3), nn.Sigmoid())]. *)
Definition rgb_head (self : t) : Prop :=
  exists l, block4 self = [LinearL l; Sigmoid]
            /\ length (weight l) = 3%nat /\ length (bias l) = 3%nat.

End NerfModel.

(** ** Ray sampling and volume rendering *)

(** [torch.linspace(start, end, steps)]: [steps] evenly spaced values from
    [start] to [end], both included. *)
Definition linspace (start stop : R) (steps : nat) : tensor1 :=
  map (fun i => start + INR i * ((stop - start) / INR (steps - 1))) (seq 0 steps).

(** [torch.cumprod] along a row. *)
Fixpoint cumprod (l : tensor1) : tensor1 :=
  match l with
  | [] => []
  | a :: l' => a :: map (Rmult a) (cumprod l')
  end.

Definition sum (l : tensor1) : R := fold_right Rplus 0 l.

(** [t.reshape(n, m)] and [t.reshape(n, m, k)]: the elements are regrouped
    in row-major order; the call raises when the element count differs. *)
Fixpoint unflatten {A : Type} (n m : nat) (l : list A) : list (list A) :=
  match n with
  | O => []
  | S n' => firstn m l :: unflatten n' m (skipn m l)
  end.

Definition reshape2 (n m : nat) (flat : tensor1) : option tensor2 :=
  if Nat.eqb (length flat) (n * m) then Some (unflatten n m flat) else None.

Definition reshape3 (n m k : nat) (t : tensor2) : option tensor3 :=
  let flat := concat t in
  if Nat.eqb (length flat) (n * m * k)
  then Some (unflatten n m (unflatten (n * m) k flat))
  else None.

(** The slice [l[a:b]], with Python's clamping of the bounds; on the rows
    of a 2-d tensor it is the column slice [x[:, a:b]]. *)
Definition slice {A : Type} (a b : nat) (l : list A) : list A :=
  firstn (b - a) (skipn a l).

Definition compute_accumulated_transmittance (alphas : tensor2) : tensor2 :=
  let accumulated_transmittance := map cumprod alphas in
  map2 (@app R)
       (repeat [1] (length accumulated_transmittance))
       (map (@removelast R) accumulated_transmittance).

(** The sentinel length of the last interval. *)
Definition last_delta : R := 1e10.

(** The stratified sampler at the head of [render_rays]: [n] is
    [ray_origins.shape[0]] and [rand b i] the value [torch.rand] draws for
    [u[b, i]]. *)
Definition sample_depths (n : nat) (hn hf : R) (nb_bins : nat)
    (rand : nat -> nat -> R) : tensor2 :=
  let t := repeat (linspace hn hf nb_bins) n in
  let mid :=
    map2 (map2 (fun a b => (a + b) / 2)) (map (@removelast R) t) (map (@tl R) t) in
  let lower := map2 (@app R) (map (firstn 1) t) mid in
  let upper := map2 (@app R) mid (map (fun r => skipn (length r - 1) r) t) in
  let u := map (fun b => map (rand b) (seq 0 nb_bins)) (seq 0 n) in
  map2 (map2 Rplus) lower (map2 (map2 Rmult) (map2 (map2 Rminus) upper lower) u).

Definition sample_deltas (n : nat) (t : tensor2) : tensor2 :=
  map2 (@app R)
       (map2 (map2 Rminus) (map (@tl R) t) (map (@removelast R) t))
       (repeat [last_delta] n).

(** [ray_origins.unsqueeze(1) + t.unsqueeze(2) * ray_directions.unsqueeze(1)] *)
Definition sample_points (ray_origins ray_directions t : tensor2) : tensor3 :=
  map2 (fun o td =>
          map (fun ti => map2 (fun ok dk => ok + ti * dk) o (snd td)) (fst td))
       ray_origins (combine t ray_directions).

(** [ray_directions.expand(nb_bins, N, 3).transpose(0, 1)] *)
Definition expand_directions (nb_bins : nat) (ray_directions : tensor2) : tensor3 :=
  map (fun d => repeat d nb_bins) ray_directions.

(** Multiplication of a [..., 1] tensor with a [..., 3] tensor, the
    one-element row being broadcast. *)
Definition mul_broadcast (w c : tensor1) : tensor1 :=
  map (Rmult (hd 0 w)) c.

(** [(weights * colors).sum(dim=1)] over one ray: the rows are added up. *)
Definition sum_dim1 (rows : tensor2) : tensor1 :=
  fold_right (map2 Rplus) (repeat 0 3%nat) rows.

(** The compositing tail of [render_rays], from the network outputs on:
    [weights], [weight_sum] and the returned colours. *)
Definition ray_weights (sigma delta : tensor2) : tensor3 :=
  let alpha := map2 (map2 (fun s d => 1 - exp (- s * d))) sigma delta in
  map2 (map2 (map2 Rmult))
       (map (map (fun v => [v]))
            (compute_accumulated_transmittance (map (map (fun a => 1 - a)) alpha)))
       (map (map (fun v => [v])) alpha).

Definition weight_sums (weights : tensor3) : tensor1 :=
  map sum (map (map sum) weights).

Definition composite (colors : tensor3) (sigma delta : tensor2) : tensor2 :=
  let weights := ray_weights sigma delta in
  let c := map sum_dim1 (map2 (map2 mul_broadcast) weights colors) in
  let weight_sum := weight_sums weights in
  map2 (fun cb ws => map (fun ck => ck + 1 - ws) cb) c weight_sum.

(** [render_rays(nerf_model, ray_origins, ray_directions, hn, hf, nb_bins)].
    Both ray tensors are [N * 3] slices of the same rows, as at every call
    in the notebook. *)
Definition render_rays
    (nerf_model : tensor2 -> tensor2 -> option (tensor2 * tensor1))
    (ray_origins ray_directions : tensor2) (hn hf : R) (nb_bins : nat)
    (rand : nat -> nat -> R) : option tensor2 :=
  let n := length ray_origins in
  let t := sample_depths n hn hf nb_bins rand in
  let delta := sample_deltas n t in
  let x := sample_points ray_origins ray_directions t in
  let ray_directions := expand_directions nb_bins ray_directions in
  out <- nerf_model (concat x) (concat ray_directions) ;;
  colors <- reshape3 n nb_bins 3 (fst out) ;;
  sigma <- reshape2 n nb_bins (snd out) ;;
  Some (composite colors sigma delta).

(** ** Chunked rendering of one test image *)

(** [int(np.ceil(H / chunk_size))] for a positive [chunk_size]. *)
Definition ceil_div (a b : nat) : nat := ((a + b - 1) / b)%nat.

(** [torch.cat(data)] along dimension 0; an empty list raises. *)
Definition torch_cat (data : list tensor2) : option tensor2 :=
  match data with
  | [] => None
  | _ => Some (concat data)
  end.

(** The rows of image [img_index]:
    [dataset[img_index * H * W: (img_index + 1) * H * W, a:b]]. *)
Definition image_rows (dataset : tensor2) (img_index H W a b : nat) : tensor2 :=
  map (slice a b) (slice (img_index * H * W) ((img_index + 1) * H * W) dataset).

(** The loop of [test] over the chunks [0 .. k-1]; [rand i] holds the
    draws of the [i]-th call of [render_rays]. *)
Definition render_chunks (model : NerfModel.t)
    (ray_origins ray_directions : tensor2) (hn hf : R)
    (chunk_size nb_bins W : nat) (rand : nat -> nat -> nat -> R) (k : nat)
  : option (list tensor2) :=
  fold_left
    (fun data i =>
       data <- data ;;
       let ray_origins_ :=
         slice (i * W * chunk_size) ((i + 1) * W * chunk_size) ray_origins in
       let ray_directions_ :=
         slice (i * W * chunk_size) ((i + 1) * W * chunk_size) ray_directions in
       regenerated_px_values <-
         render_rays (NerfModel.forward model) ray_origins_ ray_directions_
                     hn hf nb_bins (rand i) ;;
       Some (data ++ [regenerated_px_values]))
    (seq 0 k) (Some []).

(** The raster [img] that [test] hands to [plt.imshow]. *)
Definition test_image (model : NerfModel.t) (hn hf : R) (dataset : tensor2)
    (chunk_size img_index nb_bins H W : nat) (rand : nat -> nat -> nat -> R)
  : option tensor3 :=
  if Nat.eqb chunk_size 0 then None
  else
    let ray_origins := image_rows dataset img_index H W 0 3 in
    let ray_directions := image_rows dataset img_index H W 3 6 in
    data <- render_chunks model ray_origins ray_directions hn hf
                          chunk_size nb_bins W rand (ceil_div H chunk_size) ;;
    img <- torch_cat data ;;
    reshape3 H W 3 img.

(** ** The training loop *)

(** The model takes the definitions of all cells as loaded and [device] as
    bound.  [IOError] is a write of an image that fails; [RuntimeError]
    stands for every other exception (a shape that does not fit, a
    division by zero). *)
Inductive exn := RuntimeError | IOError.

(** [((ground_truth_px_values - regenerated_px_values) ** 2).sum()] *)
Definition squared_error (ground_truth_px_values regenerated_px_values : tensor2) : R :=
  sum (concat (map2 (map2 (fun g p => (g - p) ^ 2))
                    ground_truth_px_values regenerated_px_values)).

(** The number of test images [train] renders after every epoch, and the
    [chunk_size] that [test] falls back on. *)
Definition test_images : nat := 200.
Definition default_chunk_size : nat := 10.

Section Training.

(** What the notebook takes from PyTorch and matplotlib.  The random
    source is a fixed sequence of draws: [noise c] is the tensor the call
    number [c] of the generator returns, and the state of the generator is
    the number of calls made so far.  Iterating the shuffling [DataLoader]
    takes one call and yields [loader_batches c].  [backward] is the
    gradient of the loss of one mini-batch, [optimizer_step] and
    [scheduler_step] are the updates of Adam and of the schedule, and
    [savefig_ok files i] tells whether writing image [i] succeeds. *)
Variables Opt Sched Grad : Type.
Variable noise : nat -> nat -> nat -> R.
Variable loader_batches : nat -> list (list (list R)).
Variable backward : NerfModel.t -> list (list R) -> (nat -> nat -> R) -> Grad.
Variable optimizer_step : Opt -> NerfModel.t -> Grad -> Opt * NerfModel.t.
Variable scheduler_step : Sched -> Opt -> Sched * Opt.
Variable savefig_ok : list (nat * list (list (list R))) -> nat -> bool.
Variable testing_dataset : list (list R).

(** The objects the loop mutates: the network (the global [model] and the
    argument [nerf_model] are the same object), the optimizer, the
    schedule, and the images written under [novel_views/]. *)
Record World := mkWorld {
  model : NerfModel.t;
  optimizer : Opt;
  scheduler : Sched;
  novel_views : list (nat * list (list (list R)))
}.

(** A call returns a value, or raises and leaves the objects as they were
    at that point. *)
Inductive result (A : Type) :=
| Ok (a : A)
| Raise (e : exn) (w : World).
Arguments Ok {A} a.
Arguments Raise {A} e w.

(** [test(hn, hf, dataset, chunk_size, img_index, nb_bins, H, W)] *)
Definition test (w : World) (rng : nat) (hn hf : R) (dataset : tensor2)
    (chunk_size img_index nb_bins H W : nat) : result (World * nat) :=
  match test_image (model w) hn hf dataset chunk_size img_index nb_bins H W
                   (fun i => noise (rng + i)) with
  | None => Raise RuntimeError w
  | Some img =>
      if savefig_ok (novel_views w) img_index
      then Ok (mkWorld (model w) (optimizer w) (scheduler w)
                       (novel_views w ++ [(img_index, img)]),
               (rng + ceil_div H chunk_size)%nat)
      else Raise IOError w
  end.

(** The body of the inner loop of [train], for one mini-batch. *)
Definition train_step (w : World) (rng : nat) (batch : tensor2)
    (hn hf : R) (nb_bins : nat) : result (World * nat * R) :=
  let ray_origins := map (slice 0 3) batch in
  let ray_directions := map (slice 3 6) batch in
  let ground_truth_px_values := map (skipn 6) batch in
  match render_rays (NerfModel.forward (model w)) ray_origins ray_directions
                    hn hf nb_bins (noise rng) with
  | None => Raise RuntimeError w
  | Some regenerated_px_values =>
      let loss := squared_error ground_truth_px_values regenerated_px_values in
      let grads := backward (model w) batch (noise rng) in
      let stepped := optimizer_step (optimizer w) (model w) grads in
      Ok (mkWorld (snd stepped) (fst stepped) (scheduler w) (novel_views w),
          S rng, loss)
  end.

(** [for batch in data_loader: ...; training_loss.append(loss.item())] *)
Fixpoint train_batches (batches : list (list (list R))) (w : World) (rng : nat)
    (training_loss : list R) (hn hf : R) (nb_bins : nat)
  : result (World * nat * list R) :=
  match batches with
  | [] => Ok (w, rng, training_loss)
  | batch :: rest =>
      match train_step w rng batch hn hf nb_bins with
      | Raise e w' => Raise e w'
      | Ok (w', rng', loss) =>
          train_batches rest w' rng' (training_loss ++ [loss]) hn hf nb_bins
      end
  end.

(** [for img_index in range(200): test(hn, hf, testing_dataset, ...)] *)
Fixpoint evaluate (indices : list nat) (w : World) (rng : nat)
    (hn hf : R) (nb_bins H W : nat) : result (World * nat) :=
  match indices with
  | [] => Ok (w, rng)
  | img_index :: rest =>
      match test w rng hn hf testing_dataset default_chunk_size img_index
                 nb_bins H W with
      | Raise e w' => Raise e w'
      | Ok (w', rng') => evaluate rest w' rng' hn hf nb_bins H W
      end
  end.

(** The loop over the epochs.  What runs after the scheduler step of an
    epoch is the argument [after_epoch]; [train] passes the evaluation of
    the test images. *)
Fixpoint train_epochs (after_epoch : World -> nat -> result (World * nat))
    (nb_epochs : nat) (w : World) (rng : nat) (training_loss : list R)
    (hn hf : R) (nb_bins : nat) : result (World * nat * list R) :=
  match nb_epochs with
  | O => Ok (w, rng, training_loss)
  | S remaining =>
      match train_batches (loader_batches rng) w (S rng) training_loss
                          hn hf nb_bins with
      | Raise e w' => Raise e w'
      | Ok (w1, rng1, training_loss1) =>
          let stepped := scheduler_step (scheduler w1) (optimizer w1) in
          let w2 := mkWorld (model w1) (snd stepped) (fst stepped) (novel_views w1) in
          match after_epoch w2 rng1 with
          | Raise e w' => Raise e w'
          | Ok (w3, rng3) =>
              train_epochs after_epoch remaining w3 rng3 training_loss1
                           hn hf nb_bins
          end
      end
  end.

(** [train(nerf_model, optimizer, scheduler, data_loader, device, hn, hf,
    nb_epochs, nb_bins, H, W)]: the returned [training_loss], with the
    objects and the generator as the call leaves them. *)
Definition train (w : World) (rng : nat) (hn hf : R)
    (nb_epochs nb_bins H W : nat) : result (World * nat * list R) :=
  train_epochs
    (fun w rng => evaluate (seq 0 test_images) w rng hn hf nb_bins H W)
    nb_epochs w rng [] hn hf nb_bins.

(** The same loop with nothing run after an epoch. *)
Definition train_without_evaluation (w : World) (rng : nat) (hn hf : R)
    (nb_epochs nb_bins : nat) : result (World * nat * list R) :=
  train_epochs (fun w rng => Ok (w, rng)) nb_epochs w rng [] hn hf nb_bins.

End Training.

Arguments Ok {Opt Sched A} a.
Arguments Raise {Opt Sched A} e w.
Arguments model {Opt Sched} w.
Arguments optimizer {Opt Sched} w.
Arguments scheduler {Opt Sched} w.
Arguments novel_views {Opt Sched} w.
Arguments mkWorld {Opt Sched}.
Arguments test {Opt Sched}.
Arguments evaluate {Opt Sched}.
Arguments train_step {Opt Sched Grad}.
Arguments train_batches {Opt Sched Grad}.
Arguments train_epochs {Opt Sched Grad}.
Arguments train {Opt Sched Grad}.
Arguments train_without_evaluation {Opt Sched Grad}.

(** * Properties *)

(** ** The sampler over binary32

    The sampler of [render_rays] once more, with the numbers of the
    tensors: IEEE-754 binary32, every operation rounded to nearest, ties
    to even.  [torch.linspace] is the formula of its documentation with
    every operation rounded; the draws of [torch.rand] are floats. *)

Module Float32.

Definition prec : Z := 24.
Definition emax : Z := 128.

Abbreviation float32 := SpecFloat.spec_float.

(** The float nearest to [m * 2 ^ e]. *)
Definition of_Z (m e : Z) : float32 :=
  SpecFloat.binary_normalize prec emax m e false.

Definition of_nat (n : nat) : float32 := of_Z (Z.of_nat n) 0.

Definition add : float32 -> float32 -> float32 := SpecFloat.SFadd prec emax.
Definition sub : float32 -> float32 -> float32 := SpecFloat.SFsub prec emax.
Definition mul : float32 -> float32 -> float32 := SpecFloat.SFmul prec emax.
Definition div : float32 -> float32 -> float32 := SpecFloat.SFdiv prec emax.
Definition ltb : float32 -> float32 -> bool := SpecFloat.SFltb.
Definition leb : float32 -> float32 -> bool := SpecFloat.SFleb.

Definition linspace (start stop : float32) (steps : nat) : list float32 :=
  map (fun i =>
         add start (mul (of_nat i) (div (sub stop start) (of_nat (steps - 1)))))
      (seq 0 steps).

Definition sample_depths (n : nat) (hn hf : float32) (nb_bins : nat)
    (rand : nat -> nat -> float32) : list (list float32) :=
  let t := repeat (linspace hn hf nb_bins) n in
  let mid :=
    map2 (map2 (fun a b => div (add a b) (of_nat 2)))
         (map (@removelast float32) t) (map (@tl float32) t) in
  let lower := map2 (@app float32) (map (firstn 1) t) mid in
  let upper := map2 (@app float32) mid (map (fun r => skipn (length r - 1) r) t) in
  let u := map (fun b => map (rand b) (seq 0 nb_bins)) (seq 0 n) in
  map2 (map2 add) lower (map2 (map2 mul) (map2 (map2 sub) upper lower) u).

(** A draw of [torch.rand]: a float in [[0, 1)]. *)
Definition unit_draw (u : float32) : bool :=
  leb (of_Z 0 0) u && ltb u (of_Z 1 0).

(** The depths of one ray grow strictly. *)
Definition strictly_increasing (t : list float32) : Prop :=
  StronglySorted (fun a b => ltb a b = true) t.

(** The draws [1/4], [1 - 2^-24] and [0] for the first three bins of every
    ray. *)
Definition rounding_draws : nat -> nat -> float32 :=
  fun _ i => nth i [of_Z 1 (-2); of_Z (2 ^ 24 - 1) (-24)] (of_Z 0 0).

End Float32.

Section ListFacts.
Context {A B C : Type}.

Lemma map2_length (f : A -> B -> C) (a : list A) (b : list B) :
  length (map2 f a b) = Nat.min (length a) (length b).
Proof.
  revert b; induction a as [|x a IH]; intros [|y b]; simpl; auto.
Qed.

Lemma map2_repeat (f : A -> B -> C) (a : A) (b : B) (n : nat) :
  map2 f (repeat a n) (repeat b n) = repeat (f a b) n.
Proof. induction n; simpl; congruence. Qed.

Lemma map2_repeat_seq (f : A -> B -> C) (a : A) (g : nat -> B) (s n : nat) :
  map2 f (repeat a n) (map g (seq s n)) = map (fun b => f a (g b)) (seq s n).
Proof.
  revert s; induction n as [|n IH]; intros s; simpl; [reflexivity|].
  now rewrite IH.
Qed.

Lemma nth_map2 (f : A -> B -> C) (a : list A) (b : list B) (i : nat)
      (da : A) (db : B) (dc : C) :
  (i < length a)%nat -> (i < length b)%nat ->
  nth i (map2 f a b) dc = f (nth i a da) (nth i b db).
Proof.
  revert b i; induction a as [|x a IH]; intros [|y b] [|i]; simpl;
    try lia; auto.
  intros; apply IH; lia.
Qed.

Lemma map2_app (f : A -> B -> C) (a1 a2 : list A) (b1 b2 : list B) :
  length a1 = length b1 ->
  map2 f (a1 ++ a2) (b1 ++ b2) = map2 f a1 b1 ++ map2 f a2 b2.
Proof.
  revert b1; induction a1 as [|x a1 IH]; intros [|y b1]; simpl;
    try discriminate; auto.
  intros E; injection E as E. now rewrite IH.
Qed.

End ListFacts.

Section NthFacts.
Context {A : Type}.

Lemma nth_tl (l : list A) (i : nat) (d : A) : nth i (tl l) d = nth (S i) l d.
Proof. destruct l; simpl; [now destruct i|reflexivity]. Qed.

Lemma length_tl (l : list A) : length (tl l) = (length l - 1)%nat.
Proof. destruct l; simpl; lia. Qed.

Lemma length_removelast (l : list A) : length (removelast l) = (length l - 1)%nat.
Proof. rewrite removelast_firstn_len, length_firstn. lia. Qed.

Lemma nth_removelast (l : list A) (i : nat) (d : A) :
  (i < length l - 1)%nat -> nth i (removelast l) d = nth i l d.
Proof.
  intros H. rewrite removelast_firstn_len, nth_firstn.
  destruct (Nat.ltb_spec i (Nat.pred (length l))); [reflexivity|lia].
Qed.

Lemma last_nth (l : list A) (d : A) : last l d = nth (length l - 1) l d.
Proof.
  induction l as [|a l IH]; [reflexivity|].
  destruct l as [|b l]; [reflexivity|].
  change (last (a :: b :: l) d) with (last (b :: l) d).
  rewrite IH. simpl. now rewrite Nat.sub_0_r.
Qed.

Lemma nth_map_seq (f : nat -> A) (s n i : nat) (d : A) :
  (i < n)%nat -> nth i (map f (seq s n)) d = f (s + i)%nat.
Proof.
  revert s i; induction n as [|n IH]; intros s [|i] H; simpl; try lia.
  - now rewrite Nat.add_0_r.
  - rewrite IH by lia. f_equal; lia.
Qed.

End NthFacts.

Section TabulateFacts.
Context {A B C : Type}.

Lemma map2_tabulate (f : A -> B -> C) (a : list A) (b : list B) (da : A) (db : B) :
  map2 f a b
  = map (fun i => f (nth i a da) (nth i b db))
        (seq 0 (Nat.min (length a) (length b))).
Proof.
  revert b; induction a as [|x a IH]; intros [|y b]; simpl; try reflexivity.
  f_equal. rewrite <- seq_shift, map_map. apply IH.
Qed.

Lemma nth_map_in (f : A -> B) (l : list A) (i : nat) (d : A) (d' : B) :
  (i < length l)%nat -> nth i (map f l) d' = f (nth i l d).
Proof.
  revert i; induction l as [|x l IH]; intros [|i] H; simpl in *; try lia; auto.
  apply IH; lia.
Qed.

Lemma map2_map_map {A' B' : Type} (f : A' -> B' -> C) (g : A -> A') (h : B -> B')
      (a : list A) (b : list B) :
  map2 f (map g a) (map h b) = map2 (fun x y => f (g x) (h y)) a b.
Proof.
  revert b; induction a as [|x a IH]; intros [|y b]; simpl; try reflexivity.
  now rewrite IH.
Qed.

End TabulateFacts.

Section UnflattenFacts.
Context {A : Type}.

Lemma length_unflatten (n m : nat) (l : list A) : length (unflatten n m l) = n.
Proof. revert l; induction n; intros l; simpl; auto. Qed.

Lemma nth_unflatten (n m b : nat) (l : list A) :
  (b < n)%nat -> nth b (unflatten n m l) [] = firstn m (skipn (b * m) l).
Proof.
  revert b l; induction n as [|n IH]; intros [|b] l H; simpl; try lia; auto.
  rewrite IH by lia. now rewrite skipn_skipn, Nat.add_comm.
Qed.

Lemma unflatten_app (n1 n2 m : nat) (l1 l2 : list A) :
  length l1 = (n1 * m)%nat ->
  unflatten (n1 + n2) m (l1 ++ l2) = unflatten n1 m l1 ++ unflatten n2 m l2.
Proof.
  revert l1; induction n1 as [|n1 IH]; intros l1 H; simpl in *.
  - apply length_zero_iff_nil in H. now subst.
  - rewrite firstn_app, skipn_app.
    replace (m - length l1)%nat with 0%nat by lia.
    rewrite firstn_O, skipn_O, app_nil_r. f_equal.
    apply IH. rewrite length_skipn. lia.
Qed.

End UnflattenFacts.

Lemma length_concat_width (k : nat) (t : tensor2) :
  has_width k t -> length (concat t) = (length t * k)%nat.
Proof.
  induction 1 as [|r t Hr _ IH]; simpl; [reflexivity|].
  rewrite length_app, IH, Hr. lia.
Qed.

Lemma unflatten_concat (k : nat) (t : tensor2) :
  has_width k t -> unflatten (length t) k (concat t) = t.
Proof.
  induction 1 as [|r t Hr _ IH]; simpl; [reflexivity|].
  rewrite firstn_app, skipn_app, <- Hr, Nat.sub_diag, firstn_all, skipn_all.
  simpl. rewrite app_nil_r. f_equal. rewrite Hr. exact IH.
Qed.

Module NerfModelFacts.
Import NerfModel.

(** One encoded row: the row itself, then [sin] and [cos] of each scaled
    copy. *)
Definition encode_row (L : nat) (r : tensor1) : tensor1 :=
  r ++ flat_map
         (fun j => map (fun v => sin (2 ^ j * v)) r
                     ++ map (fun v => cos (2 ^ j * v)) r)
         (seq 0 L).

Lemma map2_app_map (f g : tensor1 -> tensor1) (x : tensor2) :
  map2 (@app R) (map f x) (map g x) = map (fun r => f r ++ g r) x.
Proof. induction x; simpl; congruence. Qed.

Definition sin_cos_rows (L : nat) : list (tensor1 -> tensor1) :=
  flat_map
    (fun j => [map (fun v => sin (2 ^ j * v)); map (fun v => cos (2 ^ j * v))])
    (seq 0 L).

Lemma encoding_loop (x : tensor2) (js : list nat) (pre : list tensor2) :
  fold_left
    (fun out j =>
       (out ++ [map (map (fun v => sin (2 ^ j * v))) x])
           ++ [map (map (fun v => cos (2 ^ j * v))) x])
    js pre
  = pre ++ map (fun f => map f x)
             (flat_map
                (fun j => [map (fun v => sin (2 ^ j * v));
                           map (fun v => cos (2 ^ j * v))]) js).
Proof.
  revert pre; induction js as [|j js IH]; intros pre; simpl.
  - now rewrite app_nil_r.
  - rewrite IH, <- !app_assoc. reflexivity.
Qed.

Lemma cat_rows (x : tensor2) (fs : list (tensor1 -> tensor1)) (g : tensor1 -> tensor1) :
  fold_left (map2 (@app R)) (map (fun f => map f x) fs) (map g x)
  = map (fun r => g r ++ concat (map (fun f => f r) fs)) x.
Proof.
  revert g; induction fs as [|f fs IH]; intros g; simpl.
  - apply map_ext; intros r. now rewrite app_nil_r.
  - rewrite map2_app_map, IH. apply map_ext; intros r.
    now rewrite app_assoc.
Qed.

Lemma concat_sin_cos (L : nat) (r : tensor1) :
  concat (map (fun f => f r) (sin_cos_rows L))
  = flat_map
      (fun j => map (fun v => sin (2 ^ j * v)) r
                  ++ map (fun v => cos (2 ^ j * v)) r)
      (seq 0 L).
Proof.
  unfold sin_cos_rows. induction (seq 0 L) as [|j js IH]; simpl.
  - reflexivity.
  - rewrite IH, <- app_assoc. reflexivity.
Qed.

(** The batched encoder acts on every row separately. *)
Lemma positional_encoding_rows (x : tensor2) (L : nat) :
  positional_encoding x L = map (encode_row L) x.
Proof.
  unfold positional_encoding. rewrite encoding_loop. simpl.
  pose proof (cat_rows x (sin_cos_rows L) (fun r => r)) as H.
  rewrite map_id in H. etransitivity; [exact H|].
  apply map_ext; intros r. unfold encode_row.
  now rewrite concat_sin_cos.
Qed.

Lemma encode_row_length (L : nat) (r : tensor1) :
  length (encode_row L r) = (length r * (1 + 2 * L))%nat.
Proof.
  unfold encode_row. rewrite length_app.
  assert (H : forall js, length (flat_map
      (fun j => map (fun v => sin (2 ^ j * v)) r
                  ++ map (fun v => cos (2 ^ j * v)) r) js)
      = (2 * length r * length js)%nat).
  { induction js as [|j js IH]; simpl; [lia|].
    rewrite length_app, IH, length_app, !length_map. lia. }
  rewrite H, length_seq. lia.
Qed.

Lemma encode_row_firstn (L : nat) (r : tensor1) :
  firstn (length r) (encode_row L r) = r.
Proof.
  unfold encode_row. rewrite firstn_app, Nat.sub_diag, firstn_all.
  simpl. now rewrite app_nil_r.
Qed.

(** C6. For a batch [v] of 3-component rows and any [L], the positional
    encoding has rows of width [3 * (1 + 2 * L)], its first three columns
    are [v] itself, and with [L = 0] the encoding is [v] unchanged. *)
Theorem positional_encoding_width_prefix (v : tensor2) (L : nat) :
  has_width 3 v ->
  has_width (3 * (1 + 2 * L)) (positional_encoding v L)
  /\ map (firstn 3) (positional_encoding v L) = v
  /\ positional_encoding v 0 = v.
Proof.
  intros Hv. rewrite !positional_encoding_rows. repeat split.
  - unfold has_width in *. rewrite Forall_map.
    eapply Forall_impl; [|exact Hv]. intros r Hr; simpl in Hr.
    now rewrite encode_row_length, Hr.
  - rewrite map_map. rewrite <- (map_id v) at 2.
    apply map_ext_Forall. eapply Forall_impl; [|exact Hv].
    intros r Hr; simpl in Hr. rewrite <- Hr. apply encode_row_firstn.
  - rewrite <- (map_id v) at 2. apply map_ext; intros r.
    unfold encode_row; simpl. apply app_nil_r.
Qed.

Lemma positional_encoding_width_prefix_witness :
  has_width (3 * (1 + 2 * 2)) (positional_encoding [[1; 2; 3]; [0; 1; 0]] 2)
  /\ map (firstn 3) (positional_encoding [[1; 2; 3]; [0; 1; 0]] 2)
     = [[1; 2; 3]; [0; 1; 0]]
  /\ positional_encoding [[1; 2; 3]; [0; 1; 0]] 0 = [[1; 2; 3]; [0; 1; 0]].
Proof.
  apply (positional_encoding_width_prefix [[1; 2; 3]; [0; 1; 0]] 2).
  repeat constructor.
Defined.

(** *** Density does not see the viewing direction *)

(** Two calls agree on whether they raise and, when they return, on the
    shape of what they return. *)
Definition same_outcome (a b : option tensor2) : Prop :=
  match a, b with
  | Some x, Some y => shape x = shape y
  | None, None => True
  | _, _ => False
  end.

Lemma shape_length (x y : tensor2) : shape x = shape y -> length x = length y.
Proof.
  unfold shape; intros H. apply (f_equal (@length nat)) in H.
  now rewrite !length_map in H.
Qed.

Lemma shape_of_width (n : nat) (x : tensor2) :
  has_width n x -> shape x = repeat n (length x).
Proof.
  induction 1 as [|r x Hr _ IH]; simpl; [reflexivity|].
  now rewrite Hr, IH.
Qed.

Lemma shape_positional_encoding (x : tensor2) (L : nat) :
  shape (positional_encoding x L) = map (fun n => (n * (1 + 2 * L))%nat) (shape x).
Proof.
  rewrite positional_encoding_rows. unfold shape. rewrite !map_map.
  apply map_ext; intros r. apply encode_row_length.
Qed.

Lemma shape_map_map (f : R -> R) (x : tensor2) : shape (map (map f) x) = shape x.
Proof.
  unfold shape. rewrite map_map. apply map_ext; intros r. apply length_map.
Qed.

Lemma forallb_shape (p : nat -> bool) (x : tensor2) :
  forallb (fun r => p (length r)) x = forallb p (shape x).
Proof. induction x; simpl; congruence. Qed.

Lemma linear_outcome (l : Linear) (x y : tensor2) :
  shape x = shape y -> same_outcome (linear l x) (linear l y).
Proof.
  intros H. unfold linear.
  rewrite (forallb_shape (fun n => Nat.eqb n (in_features l)) x).
  rewrite (forallb_shape (fun n => Nat.eqb n (in_features l)) y).
  rewrite H. destruct (forallb _ (shape y)); simpl; [|exact I].
  unfold shape in *. rewrite !map_map.
  assert (Hc : forall (a b : tensor2),
             map (@length R) a = map (@length R) b ->
             map (fun r => length (linear_row l r)) a
             = map (fun r => length (linear_row l r)) b).
  { induction a as [|r a IH]; intros [|r' b] E; simpl in *; try discriminate; auto.
    injection E as _ E. f_equal; [|now apply IH].
    unfold linear_row. now rewrite !map2_length. }
  now apply Hc.
Qed.

Lemma layer_outcome (ly : Layer) (x y : tensor2) :
  shape x = shape y -> same_outcome (layer ly x) (layer ly y).
Proof.
  intros H. destruct ly; simpl.
  - now apply linear_outcome.
  - now rewrite !shape_map_map.
  - now rewrite !shape_map_map.
Qed.

Lemma sequential_outcome (ls : list Layer) (x y : tensor2) :
  shape x = shape y -> same_outcome (sequential ls x) (sequential ls y).
Proof.
  revert x y; induction ls as [|ly ls IH]; intros x y H; simpl.
  - exact H.
  - pose proof (layer_outcome ly x y H) as Hl.
    destruct (layer ly x), (layer ly y); simpl in *; try contradiction; auto.
Qed.

Lemma shape_map2_app (a b : tensor2) :
  shape (map2 (@app R) a b) = map2 Nat.add (shape a) (shape b).
Proof.
  revert b; induction a as [|r a IH]; intros [|r' b]; simpl; auto.
  now rewrite length_app, IH.
Qed.

Lemma cat2_dim1_outcome (f e1 e2 : tensor2) :
  shape e1 = shape e2 -> same_outcome (cat2_dim1 f e1) (cat2_dim1 f e2).
Proof.
  intros H. unfold cat2_dim1. rewrite (shape_length e1 e2 H).
  destruct (Nat.eqb _ _); simpl; [|exact I].
  now rewrite !shape_map2_app, H.
Qed.

Lemma forward_sigma_same_shape (self : NerfModel.t) (o d1 d2 : tensor2) :
  shape d1 = shape d2 ->
  option_map snd (forward self o d1) = option_map snd (forward self o d2).
Proof.
  intros H. unfold forward.
  destruct (sequential (block1 self) _) as [features|]; simpl; [|reflexivity].
  destruct (obind (cat2_dim1 features _) _) as [tmp|]; simpl; [|reflexivity].
  destruct (last_column tmp) as [col|]; simpl; [|reflexivity].
  set (e1 := positional_encoding d1 _). set (e2 := positional_encoding d2 _).
  assert (He : shape e1 = shape e2).
  { unfold e1, e2. now rewrite !shape_positional_encoding, H. }
  pose proof (cat2_dim1_outcome (map (@removelast R) tmp) e1 e2 He) as Hc.
  destruct (cat2_dim1 _ e1) as [fd1|], (cat2_dim1 _ e2) as [fd2|];
    simpl in *; try contradiction; [|reflexivity].
  pose proof (sequential_outcome (block3 self) fd1 fd2 Hc) as H3.
  destruct (sequential (block3 self) fd1) as [g1|],
           (sequential (block3 self) fd2) as [g2|];
    simpl in *; try contradiction; [|reflexivity].
  pose proof (sequential_outcome (block4 self) g1 g2 H3) as H4.
  destruct (sequential (block4 self) g1), (sequential (block4 self) g2);
    simpl in *; try contradiction; reflexivity.
Qed.

Lemma rgb_head_init (Lx Ld W : nat) (w b : R) : rgb_head (init Lx Ld W w b).
Proof.
  exists (constant_linear (W / 2) 3 w b).
  split; [reflexivity|]. split; apply repeat_length.
Qed.

(** Controlled evaluation: list and number structure is computed, the
    operations on reals are left as they are. *)
Ltac eval_lists :=
  cbv - [Rplus Rminus Rmult Rdiv Ropp Rinv IZR INR sin cos exp Rmax pow
         Rlt Rle Rgt Rge Rabs].

(** The small network does answer on this input: the call returns two
    colour rows and two densities. *)
Example forward_init_returns :
  exists c0 c1 s0 s1,
    forward (init 1 1 2 (1 / 2) 1) [[0; 0; 0]; [1; 0; 0]] [[0; 0; 1]; [0; 1; 0]]
    = Some ([c0; c1], [s0; s1]).
Proof. do 4 eexists. eval_lists. reflexivity. Qed.

(** *** The network acts on every row separately *)

(** Joining the results of two calls, either of which may have raised. *)
Definition oapp {A : Type} (x y : option (list A)) : option (list A) :=
  match x, y with
  | Some a, Some b => Some (a ++ b)
  | _, _ => None
  end.

Lemma linear_app (l : Linear) (a b : tensor2) :
  linear l (a ++ b) = oapp (linear l a) (linear l b).
Proof.
  unfold linear. rewrite forallb_app.
  destruct (forallb _ a), (forallb _ b); simpl; try reflexivity.
  now rewrite map_app.
Qed.

Lemma layer_app (ly : Layer) (a b : tensor2) :
  layer ly (a ++ b) = oapp (layer ly a) (layer ly b).
Proof.
  destruct ly; simpl; [apply linear_app| |]; now rewrite map_app.
Qed.

Lemma sequential_app (ls : list Layer) (a b : tensor2) :
  sequential ls (a ++ b) = oapp (sequential ls a) (sequential ls b).
Proof.
  revert a b; induction ls as [|ly ls IH]; intros a b; simpl; [reflexivity|].
  rewrite layer_app.
  destruct (layer ly a) as [ya|], (layer ly b) as [yb|]; simpl; try reflexivity.
  - apply IH.
  - now destruct (sequential ls ya).
Qed.

Lemma layer_length (ly : Layer) (x y : tensor2) :
  layer ly x = Some y -> length y = length x.
Proof.
  destruct ly; simpl; unfold linear.
  - destruct (forallb _ x); [|discriminate]. intros E; injection E as <-.
    apply length_map.
  - intros E; injection E as <-. apply length_map.
  - intros E; injection E as <-. apply length_map.
Qed.

Lemma sequential_length (ls : list Layer) (x y : tensor2) :
  sequential ls x = Some y -> length y = length x.
Proof.
  revert x; induction ls as [|ly ls IH]; intros x; simpl.
  - intros E; now injection E as <-.
  - destruct (layer ly x) as [z|] eqn:Ez; simpl; [|discriminate].
    intros E. rewrite (IH z E). now apply layer_length with ly.
Qed.

Lemma cat2_dim1_app (a1 a2 b1 b2 : tensor2) :
  length a1 = length b1 ->
  cat2_dim1 (a1 ++ a2) (b1 ++ b2) = oapp (cat2_dim1 a1 b1) (cat2_dim1 a2 b2).
Proof.
  intros H. unfold cat2_dim1. rewrite !length_app, H, Nat.eqb_refl.
  destruct (Nat.eqb_spec (length a2) (length b2)) as [E|E].
  - rewrite E, Nat.eqb_refl. simpl. now rewrite map2_app.
  - destruct (Nat.eqb_spec (length b1 + length a2) (length b1 + length b2));
      [lia|reflexivity].
Qed.

Lemma cat2_dim1_length (a b c : tensor2) :
  cat2_dim1 a b = Some c -> length c = length a /\ length a = length b.
Proof.
  unfold cat2_dim1. destruct (Nat.eqb_spec (length a) (length b)) as [E|E];
    [|discriminate].
  intros H; injection H as <-. rewrite map2_length. lia.
Qed.

Lemma last_column_app (a b : tensor2) :
  last_column (a ++ b) = oapp (last_column a) (last_column b).
Proof.
  unfold last_column. rewrite forallb_app.
  destruct (forallb _ a), (forallb _ b); simpl; try reflexivity.
  now rewrite map_app.
Qed.

Lemma positional_encoding_app (a b : tensor2) (L : nat) :
  positional_encoding (a ++ b) L = positional_encoding a L ++ positional_encoding b L.
Proof. rewrite !positional_encoding_rows. apply map_app. Qed.

Lemma length_positional_encoding (a : tensor2) (L : nat) :
  length (positional_encoding a L) = length a.
Proof. rewrite positional_encoding_rows. apply length_map. Qed.

(** Joining the outputs [(c, sigma)] of two calls. *)
Definition join_outputs (x y : option (tensor2 * tensor1)) : option (tensor2 * tensor1) :=
  match x, y with
  | Some (c1, s1), Some (c2, s2) => Some (c1 ++ c2, s1 ++ s2)
  | _, _ => None
  end.

(** Stages 1 and 2 of [forward]: everything up to [tmp]. *)
Definition trunk (self : NerfModel.t) (o : tensor2) : option tensor2 :=
  let emb_x := positional_encoding o (posEncCoord_dim self) in
  features <- sequential (block1 self) emb_x ;;
  fx <- cat2_dim1 features emb_x ;; sequential (block2 self) fx.

(** Stages 3 and 4 of [forward]: from the stage-2 features and the
    directions to the colour. *)
Definition colour_head (self : NerfModel.t) (features d : tensor2) : option tensor2 :=
  let emb_d := positional_encoding d (posEncDirection_dim self) in
  features <- (fd <- cat2_dim1 features emb_d ;; sequential (block3 self) fd) ;;
  sequential (block4 self) features.

Lemma forward_stages (self : NerfModel.t) (o d : tensor2) :
  forward self o d
  = (tmp <- trunk self o ;;
     col <- last_column tmp ;;
     c <- colour_head self (map (@removelast R) tmp) d ;;
     Some (c, map relu col)).
Proof.
  unfold forward, trunk, colour_head.
  destruct (sequential (block1 self) _) as [features|]; simpl; [|reflexivity].
  destruct (cat2_dim1 features _) as [fx|]; simpl; [|reflexivity].
  destruct (sequential (block2 self) fx) as [tmp|]; simpl; [|reflexivity].
  destruct (last_column tmp) as [col|]; simpl; [|reflexivity].
  destruct (cat2_dim1 _ _) as [fd|]; simpl; [|reflexivity].
  destruct (sequential (block3 self) fd) as [g|]; simpl; reflexivity.
Qed.

(** The density as [forward] computes it: stages 1 and 2 on the encoded
    position, then the rectifier on the last column.  No direction
    appears. *)
Definition density (self : NerfModel.t) (o : tensor2) : option tensor1 :=
  tmp <- trunk self o ;;
  col <- last_column tmp ;;
  Some (map relu col).

(** C2. With the parameters and the positions [o] fixed, two direction
    batches with the same number of 3-component rows give the same density
    output: the two calls raise together, and otherwise return the same
    [sigma].  Whenever [forward] returns, its [sigma] is the value of
    [density], which is computed from the position alone, before the
    direction is used. *)
Theorem forward_sigma_independent_of_direction
    (self : NerfModel.t) (o d1 d2 : tensor2) :
  has_width 3 d1 -> has_width 3 d2 -> length d1 = length d2 ->
  option_map snd (forward self o d1) = option_map snd (forward self o d2)
  /\ forall c sigma, forward self o d1 = Some (c, sigma) ->
                     density self o = Some sigma.
Proof.
  intros H1 H2 Hl. split.
  - apply forward_sigma_same_shape.
    now rewrite (shape_of_width 3 d1 H1), (shape_of_width 3 d2 H2), Hl.
  - intros c sigma. rewrite forward_stages. unfold density.
    destruct (trunk self o) as [tmp|]; simpl; [|discriminate].
    destruct (last_column tmp) as [col|]; simpl; [|discriminate].
    destruct (colour_head self _ d1) as [g|]; simpl; [|discriminate].
    intros E; now injection E as _ <-.
Qed.

Lemma forward_sigma_independent_of_direction_witness :
  option_map snd (forward (init 1 1 2 (1 / 2) 1) [[0; 0; 0]; [1; 0; 0]]
                          [[0; 0; 1]; [0; 1; 0]])
  = option_map snd (forward (init 1 1 2 (1 / 2) 1) [[0; 0; 0]; [1; 0; 0]]
                            [[1; 0; 0]; [1; 0; 0]])
  /\ forall c sigma,
       forward (init 1 1 2 (1 / 2) 1) [[0; 0; 0]; [1; 0; 0]] [[0; 0; 1]; [0; 1; 0]]
       = Some (c, sigma) ->
       density (init 1 1 2 (1 / 2) 1) [[0; 0; 0]; [1; 0; 0]] = Some sigma.
Proof.
  apply (forward_sigma_independent_of_direction (init 1 1 2 (1 / 2) 1)
           [[0; 0; 0]; [1; 0; 0]] [[0; 0; 1]; [0; 1; 0]] [[1; 0; 0]; [1; 0; 0]]);
    repeat constructor.
Defined.

Lemma trunk_length (self : NerfModel.t) (o tmp : tensor2) :
  trunk self o = Some tmp -> length tmp = length o.
Proof.
  unfold trunk.
  destruct (sequential (block1 self) _) as [features|] eqn:E1; simpl; [|discriminate].
  destruct (cat2_dim1 features _) as [fx|] eqn:E2; simpl; [|discriminate].
  intros E3. apply sequential_length in E1, E3. apply cat2_dim1_length in E2.
  rewrite length_positional_encoding in *. lia.
Qed.

Lemma trunk_app (self : NerfModel.t) (o1 o2 : tensor2) :
  trunk self (o1 ++ o2) = oapp (trunk self o1) (trunk self o2).
Proof.
  unfold trunk. rewrite positional_encoding_app, sequential_app.
  destruct (sequential (block1 self) (positional_encoding o1 _)) as [f1|] eqn:E1;
    simpl; [|reflexivity].
  destruct (sequential (block1 self) (positional_encoding o2 _)) as [f2|] eqn:E2;
    simpl.
  2:{ destruct (obind (cat2_dim1 f1 _) _); reflexivity. }
  rewrite cat2_dim1_app.
  2:{ apply sequential_length in E1. exact E1. }
  destruct (cat2_dim1 f1 _) as [x1|], (cat2_dim1 f2 _) as [x2|]; simpl;
    try reflexivity.
  - apply sequential_app.
  - now destruct (sequential (block2 self) x1).
Qed.

Lemma colour_head_app (self : NerfModel.t) (f1 f2 d1 d2 : tensor2) :
  length f1 = length d1 ->
  colour_head self (f1 ++ f2) (d1 ++ d2)
  = oapp (colour_head self f1 d1) (colour_head self f2 d2).
Proof.
  intros H. unfold colour_head.
  rewrite positional_encoding_app, cat2_dim1_app
    by now rewrite length_positional_encoding.
  destruct (cat2_dim1 f1 _) as [x1|], (cat2_dim1 f2 _) as [x2|]; simpl;
    try reflexivity.
  - rewrite sequential_app.
    destruct (sequential (block3 self) x1) as [g1|],
             (sequential (block3 self) x2) as [g2|]; simpl; try reflexivity.
    + apply sequential_app.
    + now destruct (sequential (block4 self) g1).
  - now destruct (obind (sequential (block3 self) x1) _).
Qed.

(** [forward] on two batches joined row-wise is the join of the two
    calls. *)
Lemma forward_app (self : NerfModel.t) (o1 o2 d1 d2 : tensor2) :
  length o1 = length d1 ->
  forward self (o1 ++ o2) (d1 ++ d2)
  = join_outputs (forward self o1 d1) (forward self o2 d2).
Proof.
  intros H. rewrite !forward_stages, trunk_app.
  destruct (trunk self o1) as [t1|] eqn:E1; simpl; [|reflexivity].
  destruct (trunk self o2) as [t2|] eqn:E2; simpl.
  2:{ destruct (obind (last_column t1) _) as [[? ?]|]; reflexivity. }
  rewrite last_column_app.
  destruct (last_column t1) as [c1|]; simpl; [|reflexivity].
  destruct (last_column t2) as [c2|]; simpl.
  2:{ destruct (obind (colour_head self _ d1) _) as [[? ?]|]; reflexivity. }
  rewrite map_app, colour_head_app.
  2:{ rewrite length_map. apply trunk_length in E1. lia. }
  destruct (colour_head self _ d1) as [g1|], (colour_head self _ d2) as [g2|];
    simpl; try reflexivity.
  now rewrite map_app.
Qed.

Lemma last_column_length (tmp : tensor2) (col : tensor1) :
  last_column tmp = Some col -> length col = length tmp.
Proof.
  unfold last_column. destruct (forallb _ tmp); [|discriminate].
  intros E; injection E as <-. apply length_map.
Qed.

(** The shape of what [forward] returns: one colour row and one density
    per input row, the colours three wide under [rgb_head]. *)
Lemma forward_shape (self : NerfModel.t) (o d c : tensor2) (sigma : tensor1) :
  rgb_head self ->
  forward self o d = Some (c, sigma) ->
  length c = length o /\ length sigma = length o /\ has_width 3 c.
Proof.
  intros (l & Hb & Hw & Hbi). rewrite forward_stages.
  destruct (trunk self o) as [tmp|] eqn:E1; simpl; [|discriminate].
  destruct (last_column tmp) as [col|] eqn:E2; simpl; [|discriminate].
  destruct (colour_head self _ d) as [g|] eqn:E3; simpl; [|discriminate].
  intros E; injection E as <- <-.
  apply trunk_length in E1. apply last_column_length in E2.
  unfold colour_head in E3.
  destruct (cat2_dim1 _ _) as [fd|] eqn:E4; simpl in E3; [|discriminate].
  destruct (sequential (block3 self) fd) as [h|] eqn:E5; simpl in E3; [|discriminate].
  apply cat2_dim1_length in E4. apply sequential_length in E5.
  rewrite length_map in E4.
  rewrite Hb in E3. simpl in E3.
  destruct (linear l h) as [y|] eqn:E6; simpl in E3; [|discriminate].
  injection E3 as <-. unfold linear in E6.
  destruct (forallb _ h); [|discriminate]. injection E6 as <-.
  rewrite !length_map. repeat split; try lia.
  unfold has_width. rewrite !Forall_map. apply Forall_forall. intros r _.
  rewrite length_map. unfold linear_row. rewrite map2_length. lia.
Qed.

(** *** The ranges the two output non-linearities enforce *)

Lemma relu_nonneg (v : R) : 0 <= relu v.
Proof. unfold relu. apply Rmax_l. Qed.

Lemma sigmoid_unit (v : R) : unit_interval (sigmoid v).
Proof.
  unfold unit_interval, sigmoid. pose proof (exp_pos (- v)) as He.
  assert (Hd : 0 < 1 + exp (- v)) by lra.
  split.
  - apply Rlt_le, Rdiv_lt_0_compat; lra.
  - apply Rlt_le. apply (Rmult_lt_reg_r (1 + exp (- v))); [assumption|].
    unfold Rdiv. rewrite Rmult_assoc, Rinv_l by lra. lra.
Qed.

(** Whatever the parameters, a call that returns gives densities [>= 0]
    and, under the colour head of [__init__], colour channels in
    [[0, 1]]. *)
Lemma forward_outputs_bounded (self : NerfModel.t) (o d c : tensor2) (sigma : tensor1) :
  rgb_head self ->
  forward self o d = Some (c, sigma) ->
  Forall (fun s => 0 <= s) sigma /\ Forall (Forall unit_interval) c.
Proof.
  intros (l & Hb & _ & _). rewrite forward_stages.
  destruct (trunk self o) as [tmp|]; simpl; [|discriminate].
  destruct (last_column tmp) as [col|]; simpl; [|discriminate].
  destruct (colour_head self _ d) as [g|] eqn:E3; simpl; [|discriminate].
  intros E; injection E as <- <-. split.
  - rewrite Forall_map. apply Forall_forall. intros v _. apply relu_nonneg.
  - unfold colour_head in E3.
    destruct (obind (cat2_dim1 _ _) _) as [h|]; simpl in E3; [|discriminate].
    rewrite Hb in E3. simpl in E3.
    destruct (linear l h) as [y|]; simpl in E3; [|discriminate].
    injection E3 as <-. rewrite Forall_map. apply Forall_forall. intros r _.
    rewrite Forall_map. apply Forall_forall. intros v _. apply sigmoid_unit.
Qed.

End NerfModelFacts.

(** ** The stratified sampler *)

Module SamplerFacts.

(** The jittered depths of one ray, from the base depths and its draws. *)
Definition jitter_row (base us : tensor1) : tensor1 :=
  let mid := map2 (fun a b => (a + b) / 2) (removelast base) (tl base) in
  let lower := firstn 1 base ++ mid in
  let upper := mid ++ skipn (length base - 1) base in
  map2 Rplus lower (map2 Rmult (map2 Rminus upper lower) us).

Definition deltas_row (t : tensor1) : tensor1 :=
  map2 Rminus (tl t) (removelast t) ++ [last_delta].

Lemma sample_depths_rows (n : nat) (hn hf : R) (nb_bins : nat) (rand : nat -> nat -> R) :
  sample_depths n hn hf nb_bins rand
  = map (fun b => jitter_row (linspace hn hf nb_bins) (map (rand b) (seq 0 nb_bins)))
        (seq 0 n).
Proof.
  unfold sample_depths, jitter_row.
  rewrite !map_repeat, !map2_repeat.
  now rewrite !map2_repeat_seq.
Qed.

Lemma sample_deltas_rows (t : tensor2) :
  sample_deltas (length t) t = map deltas_row t.
Proof.
  unfold sample_deltas, deltas_row.
  induction t as [|r t IH]; simpl; [reflexivity|].
  now rewrite IH.
Qed.

Lemma length_linspace (a b : R) (n : nat) : length (linspace a b n) = n.
Proof. unfold linspace. now rewrite length_map, length_seq. Qed.

Lemma nth_linspace (a b : R) (n i : nat) :
  (i < n)%nat -> nth i (linspace a b n) 0 = a + INR i * ((b - a) / INR (n - 1)).
Proof.
  intros H. unfold linspace. now rewrite nth_map_seq.
Qed.

Lemma length_jitter_row (base us : tensor1) :
  length base = length us -> length (jitter_row base us) = length base.
Proof.
  intros H. unfold jitter_row.
  rewrite !map2_length, !length_app, !map2_length, length_firstn, length_skipn,
    length_removelast, length_tl. lia.
Qed.

(** The interval a depth is drawn from. *)
Definition lower_bound (base : tensor1) (i : nat) : R :=
  match i with
  | O => nth 0 base 0
  | S j => (nth j base 0 + nth i base 0) / 2
  end.

Definition upper_bound (base : tensor1) (i : nat) : R :=
  if Nat.eqb (S i) (length base)
  then nth i base 0
  else (nth i base 0 + nth (S i) base 0) / 2.

Lemma nth_jitter_row (base us : tensor1) (i : nat) :
  length base = length us -> (i < length base)%nat ->
  nth i (jitter_row base us) 0
  = lower_bound base i + (upper_bound base i - lower_bound base i) * nth i us 0.
Proof.
  intros Hl Hi. unfold jitter_row.
  set (mid := map2 _ (removelast base) (tl base)).
  assert (Hmid : length mid = (length base - 1)%nat).
  { unfold mid. rewrite map2_length, length_removelast, length_tl. lia. }
  assert (Hnm : forall j, (j < length base - 1)%nat ->
                          nth j mid 0 = (nth j base 0 + nth (S j) base 0) / 2).
  { intros j Hj. unfold mid.
    rewrite (nth_map2 _ _ _ _ 0 0) by (rewrite ?length_removelast, ?length_tl; lia).
    now rewrite nth_removelast, nth_tl. }
  assert (Hlo : nth i (firstn 1 base ++ mid) 0 = lower_bound base i).
  { destruct i as [|j]; unfold lower_bound.
    - destruct base; simpl in *; [lia|reflexivity].
    - assert (Hf : length (firstn 1 base) = 1%nat) by (rewrite length_firstn; lia).
      rewrite app_nth2 by lia. rewrite Hf. replace (S j - 1)%nat with j by lia.
      apply Hnm. lia. }
  assert (Hup : nth i (mid ++ skipn (length base - 1) base) 0 = upper_bound base i).
  { unfold upper_bound. destruct (Nat.eqb_spec (S i) (length base)) as [E|E].
    - rewrite app_nth2 by lia. rewrite Hmid, nth_skipn. f_equal. lia.
    - rewrite app_nth1 by lia. apply Hnm. lia. }
  assert (L1 : length (firstn 1 base ++ mid) = length base).
  { rewrite length_app, length_firstn, Hmid. lia. }
  assert (L2 : length (mid ++ skipn (length base - 1) base) = length base).
  { rewrite length_app, length_skipn, Hmid. lia. }
  rewrite (nth_map2 _ _ _ _ 0 0); [| lia | rewrite !map2_length; lia].
  rewrite (nth_map2 _ _ _ _ 0 0); [| rewrite map2_length; lia | lia].
  rewrite (nth_map2 _ _ _ _ 0 0) by lia.
  now rewrite Hlo, Hup.
Qed.

Lemma sorted_of_adjacent (l : tensor1) :
  (forall i, (S i < length l)%nat -> nth i l 0 < nth (S i) l 0) ->
  StronglySorted Rlt l.
Proof.
  intros H. apply Sorted_StronglySorted.
  - intros x y z; apply Rlt_trans.
  - induction l as [|a l IH]; constructor.
    + apply IH. intros i Hi. apply (H (S i)). simpl; lia.
    + destruct l as [|b l]; constructor. apply (H O). simpl; lia.
Qed.

Lemma sum_adjacent_differences (t : tensor1) :
  t <> [] -> sum (map2 Rminus (tl t) (removelast t)) = last t 0 - hd 0 t.
Proof.
  induction t as [|a t IH]; [congruence|]. intros _.
  destruct t as [|b t]; [simpl; lra|].
  specialize (IH ltac:(congruence)).
  change (tl (b :: t)) with t in IH. change (hd 0 (b :: t)) with b in IH.
  change (last (a :: b :: t) 0) with (last (b :: t) 0).
  change (map2 Rminus (tl (a :: b :: t)) (removelast (a :: b :: t)))
    with ((b - a) :: map2 Rminus t (removelast (b :: t))).
  change (hd 0 (a :: b :: t)) with a.
  unfold sum in *. cbn [fold_right]. rewrite IH. lra.
Qed.

Section ValidRange.
Variables (hn hf : R) (nb_bins : nat).
Hypothesis near_far : hn < hf.
Hypothesis two_bins : (2 <= nb_bins)%nat.

Let step := (hf - hn) / INR (nb_bins - 1).
Let base := linspace hn hf nb_bins.

Lemma bins_pos : 0 < INR (nb_bins - 1).
Proof. apply lt_0_INR. lia. Qed.

Lemma step_pos : 0 < step.
Proof. unfold step. apply Rdiv_lt_0_compat; [lra | apply bins_pos]. Qed.

Lemma step_total : INR (nb_bins - 1) * step = hf - hn.
Proof. unfold step. pose proof bins_pos. field. lra. Qed.

Lemma lower_bound_linspace (i : nat) :
  (i < nb_bins)%nat ->
  lower_bound base i
  = match i with O => hn | S _ => hn + (INR i - 1 / 2) * step end.
Proof.
  intros Hi. unfold lower_bound, base. destruct i as [|j].
  - rewrite nth_linspace by lia. simpl. lra.
  - rewrite !nth_linspace by lia. fold step. rewrite S_INR. lra.
Qed.

Lemma upper_bound_linspace (i : nat) :
  (i < nb_bins)%nat ->
  upper_bound base i
  = if Nat.eqb (S i) nb_bins then hf else hn + (INR i + 1 / 2) * step.
Proof.
  intros Hi. unfold upper_bound, base. rewrite length_linspace.
  destruct (Nat.eqb_spec (S i) nb_bins) as [E|E].
  - rewrite nth_linspace by lia. fold step.
    replace i with (nb_bins - 1)%nat by lia. rewrite step_total. lra.
  - rewrite !nth_linspace by lia. fold step. rewrite S_INR. lra.
Qed.

Variable us : tensor1.
Hypothesis us_length : length us = nb_bins.
Hypothesis us_unit : forall i, (i < nb_bins)%nat -> 0 <= nth i us 0 < 1.

Let t := jitter_row base us.

Lemma length_t : length t = nb_bins.
Proof.
  unfold t. rewrite length_jitter_row; unfold base;
    now rewrite length_linspace.
Qed.

Lemma nth_t (i : nat) :
  (i < nb_bins)%nat ->
  nth i t 0
  = lower_bound base i + (upper_bound base i - lower_bound base i) * nth i us 0.
Proof.
  intros Hi. unfold t. apply nth_jitter_row; unfold base;
    rewrite length_linspace; auto.
Qed.

Lemma interval_nonempty (i : nat) :
  (i < nb_bins)%nat -> lower_bound base i < upper_bound base i.
Proof.
  intros Hi. rewrite lower_bound_linspace, upper_bound_linspace by assumption.
  pose proof step_pos as Hs. pose proof step_total as Ht.
  destruct (Nat.eqb_spec (S i) nb_bins) as [E|E].
  - replace (nb_bins - 1)%nat with i in Ht by lia.
    destruct i as [|j]; [lia|]. nra.
  - destruct i as [|j]; [simpl; nra|]. nra.
Qed.

Lemma t_in_interval (i : nat) :
  (i < nb_bins)%nat -> lower_bound base i <= nth i t 0 < upper_bound base i.
Proof.
  intros Hi. rewrite nth_t by assumption.
  pose proof (interval_nonempty i Hi). pose proof (us_unit i Hi). nra.
Qed.

Lemma intervals_adjacent (i : nat) :
  (S i < nb_bins)%nat -> upper_bound base i = lower_bound base (S i).
Proof.
  intros Hi. rewrite upper_bound_linspace, lower_bound_linspace by lia.
  destruct (Nat.eqb_spec (S i) nb_bins) as [E|E]; [lia|].
  rewrite S_INR. lra.
Qed.

Lemma t_increasing : StronglySorted Rlt t.
Proof.
  apply sorted_of_adjacent. intros i Hi. rewrite length_t in Hi.
  pose proof (t_in_interval i ltac:(lia)) as [_ H1].
  pose proof (t_in_interval (S i) Hi) as [H2 _].
  rewrite intervals_adjacent in H1 by assumption. lra.
Qed.

Lemma t_first : hn <= hd 0 t < hn + step / 2.
Proof.
  pose proof (t_in_interval O ltac:(lia)) as H.
  rewrite lower_bound_linspace, upper_bound_linspace in H by lia.
  destruct (Nat.eqb_spec 1 nb_bins) as [E|E]; [lia|].
  assert (E0 : nth 0 t 0 = hd 0 t) by (destruct t; reflexivity).
  rewrite E0 in H. simpl in H. lra.
Qed.

Lemma t_last : hf - step / 2 <= last t 0 < hf.
Proof.
  rewrite last_nth, length_t.
  pose proof (t_in_interval (nb_bins - 1) ltac:(lia)) as H.
  rewrite lower_bound_linspace, upper_bound_linspace in H by lia.
  destruct (Nat.eqb_spec (S (nb_bins - 1)) nb_bins) as [E|E]; [|lia].
  pose proof step_total as Ht.
  destruct (nb_bins - 1)%nat as [|j] eqn:Ej; [lia|]. lra.
Qed.

Lemma deltas_row_sum :
  last (deltas_row t) 0 = last_delta
  /\ sum (removelast (deltas_row t)) = last t 0 - hd 0 t
  /\ hf - hn - step < sum (removelast (deltas_row t)) < hf - hn.
Proof.
  unfold deltas_row. rewrite last_last, removelast_last.
  assert (Hne : t <> []).
  { intros E. pose proof length_t as L. rewrite E in L. simpl in L. lia. }
  rewrite sum_adjacent_differences by assumption.
  pose proof t_first. pose proof t_last. repeat split; lra.
Qed.

End ValidRange.

(** With [hn <= hf] only, the depths are still non-decreasing. *)
Section WeakRange.
Variables (hn hf : R) (nb_bins : nat) (us : tensor1).
Hypothesis near_far : hn <= hf.
Hypothesis us_length : length us = nb_bins.
Hypothesis us_unit : forall i, (i < nb_bins)%nat -> 0 <= nth i us 0 < 1.

Lemma t_monotone (i : nat) :
  (S i < nb_bins)%nat ->
  nth i (jitter_row (linspace hn hf nb_bins) us) 0
  <= nth (S i) (jitter_row (linspace hn hf nb_bins) us) 0.
Proof.
  intros Hi.
  assert (Hnb : (2 <= nb_bins)%nat) by lia.
  rewrite !nth_t by (assumption || lia).
  rewrite <- (intervals_adjacent hn hf nb_bins Hnb us us_length i Hi).
  rewrite (upper_bound_linspace hn hf nb_bins Hnb (S i)) by lia.
  rewrite (upper_bound_linspace hn hf nb_bins Hnb i) by lia.
  rewrite (lower_bound_linspace hn hf nb_bins Hnb i) by lia.
  pose proof (step_total hn hf nb_bins Hnb) as Ht.
  pose proof (bins_pos nb_bins Hnb) as Hp.
  set (step := (hf - hn) / INR (nb_bins - 1)) in *.
  assert (Hs : 0 <= step).
  { unfold step. apply Rmult_le_pos; [lra|]. apply Rlt_le, Rinv_0_lt_compat, Hp. }
  pose proof (us_unit i ltac:(lia)) as Hu. pose proof (us_unit (S i) Hi) as Hu'.
  destruct (Nat.eqb_spec (S i) nb_bins) as [E|_]; [lia|].
  assert (Hi0 : 0 <= INR i) by apply pos_INR.
  destruct (Nat.eqb_spec (S (S i)) nb_bins) as [E|_].
  - replace (nb_bins - 1)%nat with (S i) in Ht by lia. rewrite S_INR in Ht.
    destruct i as [|j]; [simpl in *; nra|]. rewrite S_INR in *. nra.
  - rewrite S_INR. destruct i as [|j]; [simpl in *; nra|]. rewrite S_INR in *. nra.
Qed.

Lemma deltas_row_nonneg (i : nat) :
  (i < nb_bins)%nat ->
  0 <= nth i (deltas_row (jitter_row (linspace hn hf nb_bins) us)) 0.
Proof.
  intros Hi. unfold deltas_row.
  set (t := jitter_row (linspace hn hf nb_bins) us).
  assert (Hl : length t = nb_bins).
  { unfold t. rewrite length_jitter_row; now rewrite length_linspace. }
  assert (Hm : length (map2 Rminus (tl t) (removelast t)) = (nb_bins - 1)%nat).
  { rewrite map2_length, length_tl, length_removelast, Hl. lia. }
  destruct (Nat.eq_dec (S i) nb_bins) as [E|E].
  - rewrite app_nth2 by lia. rewrite Hm. replace (i - (nb_bins - 1))%nat with 0%nat by lia.
    simpl. unfold last_delta. lra.
  - rewrite app_nth1 by lia.
    rewrite (nth_map2 _ _ _ _ 0 0) by (rewrite ?length_tl, ?length_removelast; lia).
    rewrite nth_tl, nth_removelast by lia.
    pose proof (t_monotone i ltac:(lia)). fold t in H. lra.
Qed.

End WeakRange.

Lemma Forall_map_seq {A : Type} (P : A -> Prop) (f : nat -> A) (n : nat) :
  (forall b, (b < n)%nat -> P (f b)) -> Forall P (map f (seq 0 n)).
Proof.
  intros H. rewrite Forall_map, Forall_forall. intros b Hb.
  apply in_seq in Hb. apply H. lia.
Qed.

(** C3, in exact arithmetic.  With [hn < hf], at least two bins and every
    draw in [[0, 1)], the sampler over the reals returns one row of
    [nb_bins] depths per ray; each row is strictly increasing, starts at
    or above [hn] and ends at or below [hf].  Over binary32 the order is
    not strict: see [sample_depths_float32_counterexample]. *)
Theorem sample_depths_strictly_increasing
    (n : nat) (hn hf : R) (nb_bins : nat) (rand : nat -> nat -> R) :
  hn < hf -> (2 <= nb_bins)%nat ->
  (forall b i, 0 <= rand b i < 1) ->
  length (sample_depths n hn hf nb_bins rand) = n
  /\ Forall (fun t => length t = nb_bins
                      /\ StronglySorted Rlt t
                      /\ hn <= hd 0 t
                      /\ last t 0 <= hf)
            (sample_depths n hn hf nb_bins rand).
Proof.
  intros Hnf Hnb Hu. rewrite sample_depths_rows. split.
  - now rewrite length_map, length_seq.
  - apply Forall_map_seq. intros b _.
    assert (Hl : length (map (rand b) (seq 0 nb_bins)) = nb_bins)
      by now rewrite length_map, length_seq.
    assert (Hus : forall i, (i < nb_bins)%nat ->
                            0 <= nth i (map (rand b) (seq 0 nb_bins)) 0 < 1).
    { intros i Hi. rewrite nth_map_seq by assumption. apply Hu. }
    repeat split.
    + now apply length_t.
    + now apply t_increasing.
    + now apply t_first.
    + apply Rlt_le. now apply t_last.
Qed.

Lemma sample_depths_strictly_increasing_witness :
  length (sample_depths 2 2 6 3 (fun _ _ => 1 / 2)) = 2%nat
  /\ Forall (fun t => length t = 3%nat
                      /\ StronglySorted Rlt t
                      /\ 2 <= hd 0 t
                      /\ last t 0 <= 6)
            (sample_depths 2 2 6 3 (fun _ _ => 1 / 2)).
Proof.
  apply (sample_depths_strictly_increasing 2 2 6 3 (fun _ _ => 1 / 2));
    [lra | lia | intros; lra].
Defined.

(** C3 as it is worded fails of the floats.  With [hn = 2], [hf = 6],
    three bins and the draws [1/4], [1 - 2^-24], [0], all in [[0, 1)], the
    second depth [3 + 2 * (1 - 2^-24)] rounds to [5], the lower end of the
    third interval, where the draw [0] puts the third depth: the depths
    are [2.25], [5], [5]. *)
Lemma sample_depths_float32_counterexample :
  Float32.ltb (Float32.of_Z 2 0) (Float32.of_Z 6 0) = true
  /\ (forall b i, Float32.unit_draw (Float32.rounding_draws b i) = true)
  /\ Float32.sample_depths 1 (Float32.of_Z 2 0) (Float32.of_Z 6 0) 3
                           Float32.rounding_draws
     = [[Float32.of_Z 9 (-2); Float32.of_Z 5 0; Float32.of_Z 5 0]]
  /\ ~ Forall Float32.strictly_increasing
         (Float32.sample_depths 1 (Float32.of_Z 2 0) (Float32.of_Z 6 0) 3
                                Float32.rounding_draws).
Proof.
  split; [reflexivity|]. split.
  { intros b [|[|[|i]]]; vm_compute; reflexivity. }
  assert (E : Float32.sample_depths 1 (Float32.of_Z 2 0) (Float32.of_Z 6 0) 3
                                    Float32.rounding_draws
              = [[Float32.of_Z 9 (-2); Float32.of_Z 5 0; Float32.of_Z 5 0]])
    by (vm_compute; reflexivity).
  split; [exact E|]. rewrite E. intros H.
  inversion H as [|t ts Ht _]; subst. unfold Float32.strictly_increasing in Ht.
  apply StronglySorted_inv in Ht as [Ht _].
  apply StronglySorted_inv in Ht as [_ Hf].
  apply Forall_inv in Hf as Hlt.
  vm_compute in Hlt. discriminate.
Qed.

(** Over binary32 a depth can also land on the far end of the range: with
    the draws [0], [1/2], [1 - 2^-24] the depths are [2], [4], [6]. *)
Example sample_depths_float32_reaches_far :
  Float32.sample_depths 1 (Float32.of_Z 2 0) (Float32.of_Z 6 0) 3
    (fun _ i => nth i [Float32.of_Z 0 0; Float32.of_Z 1 (-1)]
                      (Float32.of_Z (2 ^ 24 - 1) (-24)))
  = [[Float32.of_Z 2 0; Float32.of_Z 4 0; Float32.of_Z 6 0]].
Proof. vm_compute. reflexivity. Qed.

Lemma Forall2_map_self {A B : Type} (P : A -> B -> Prop) (f : A -> B) (l : list A) :
  Forall (fun x => P x (f x)) l -> Forall2 P l (map f l).
Proof. induction 1; simpl; constructor; auto. Qed.

(** The reading of C4 as it is worded: along every ray the deltas before
    the sentinel add up to [hf - hn], up to a tolerance [tol]. *)
Definition deltas_span_range (tol hn hf : R) (deltas : tensor2) : Prop :=
  Forall (fun d => Rabs (sum (removelast d) - (hf - hn)) <= tol) deltas.

(** With two bins on [[0, 1]] and both draws at [1/2] the depths are [1/4]
    and [3/4]: the deltas before the sentinel add up to [1/2], which is
    not within [1/4] of [1]. *)
Lemma deltas_span_range_counterexample :
  ~ deltas_span_range (1 / 4) 0 1
      (sample_deltas 1 (sample_depths 1 0 1 2 (fun _ _ => 1 / 2))).
Proof.
  unfold deltas_span_range. intros H.
  cbv - [Rplus Rminus Rmult Rdiv Ropp Rinv IZR Rabs Rle Rlt] in H.
  inversion H as [|d ds Hd _]; subst. clear H.
  revert Hd. unfold Rabs. destruct (Rcase_abs _); lra.
Qed.

(** C4, as the sampler implements it, in exact arithmetic.  For a valid
    range the deltas before the sentinel telescope to the last depth minus
    the first depth of the ray; that sum lies between
    [hf - hn - (hf - hn) / (nb_bins - 1)] and [hf - hn], both ends allowed
    (over binary32 the sum can be [hf - hn], see
    [sample_depths_float32_reaches_far]); the last delta is the sentinel
    [1e10]. *)
Theorem sample_deltas_telescope
    (n : nat) (hn hf : R) (nb_bins : nat) (rand : nat -> nat -> R) :
  hn < hf -> (2 <= nb_bins)%nat ->
  (forall b i, 0 <= rand b i < 1) ->
  Forall2 (fun t d =>
             length d = nb_bins
             /\ last d 0 = last_delta
             /\ last_delta = 1e10
             /\ sum (removelast d) = last t 0 - hd 0 t
             /\ hf - hn - (hf - hn) / INR (nb_bins - 1)
                <= sum (removelast d) <= hf - hn)
          (sample_depths n hn hf nb_bins rand)
          (sample_deltas n (sample_depths n hn hf nb_bins rand)).
Proof.
  intros Hnf Hnb Hu.
  assert (Hn : length (sample_depths n hn hf nb_bins rand) = n).
  { rewrite sample_depths_rows. now rewrite length_map, length_seq. }
  rewrite <- Hn at 2. rewrite sample_deltas_rows.
  apply Forall2_map_self. rewrite sample_depths_rows.
  apply Forall_map_seq. intros b _.
  assert (Hl : length (map (rand b) (seq 0 nb_bins)) = nb_bins)
    by now rewrite length_map, length_seq.
  assert (Hus : forall i, (i < nb_bins)%nat ->
                          0 <= nth i (map (rand b) (seq 0 nb_bins)) 0 < 1).
  { intros i Hi. rewrite nth_map_seq by assumption. apply Hu. }
  pose proof (deltas_row_sum hn hf nb_bins Hnf Hnb _ Hl Hus) as (H1 & H2 & H3).
  pose proof (length_t hn hf nb_bins _ Hl) as Ht.
  repeat split; auto; try (apply Rlt_le; tauto).
  unfold deltas_row. rewrite length_app, map2_length, length_tl, length_removelast.
  rewrite Ht. simpl. lia.
Qed.

Lemma sample_deltas_telescope_witness :
  Forall2 (fun t d =>
             length d = 3%nat
             /\ last d 0 = last_delta
             /\ last_delta = 1e10
             /\ sum (removelast d) = last t 0 - hd 0 t
             /\ 6 - 2 - (6 - 2) / INR (3 - 1) <= sum (removelast d) <= 6 - 2)
          (sample_depths 2 2 6 3 (fun _ _ => 1 / 2))
          (sample_deltas 2 (sample_depths 2 2 6 3 (fun _ _ => 1 / 2))).
Proof.
  apply (sample_deltas_telescope 2 2 6 3 (fun _ _ => 1 / 2));
    [lra | lia | intros; lra].
Defined.

End SamplerFacts.

(** ** The compositor *)

Module CompositorFacts.

(** The quadrature as the specification writes it, over indexed samples of
    one ray: [c i k] is channel [k] of the colour of sample [i]. *)
Section Quadrature.
Variables (B : nat) (c : nat -> nat -> R) (sigma delta : nat -> R).

Definition spec_alpha (i : nat) : R := 1 - exp (- (sigma i * delta i)).

Definition spec_transmittance (i : nat) : R :=
  fold_right Rmult 1 (map (fun j => 1 - spec_alpha j) (seq 0 i)).

Definition spec_weight (i : nat) : R := spec_transmittance i * spec_alpha i.

Definition spec_weight_sum : R := sum (map spec_weight (seq 0 B)).

Definition white : tensor1 := [1; 1; 1].

Definition spec_pixel (k : nat) : R :=
  sum (map (fun i => spec_weight i * c i k) (seq 0 B))
  + (1 - spec_weight_sum) * nth k white 0.
End Quadrature.

(** The compositing steps on one ray. *)
Definition weights_row (sigma delta : tensor1) : tensor2 :=
  let alpha := map2 (fun s d => 1 - exp (- s * d)) sigma delta in
  let transmittance := [1] ++ removelast (cumprod (map (fun a => 1 - a) alpha)) in
  map2 (map2 Rmult) (map (fun v => [v]) transmittance) (map (fun v => [v]) alpha).

Definition composite_row (colors : tensor2) (sigma delta : tensor1) : tensor1 :=
  let weights := weights_row sigma delta in
  let c := sum_dim1 (map2 mul_broadcast weights colors) in
  let weight_sum := sum (map sum weights) in
  map (fun ck => ck + 1 - weight_sum) c.

Lemma map2_nil_r {A B C : Type} (f : A -> B -> C) (a : list A) : map2 f a [] = [].
Proof. destruct a; reflexivity. Qed.

Lemma composite_cons (cb : tensor2) (colors : tensor3)
      (sb db : tensor1) (sigma delta : tensor2) :
  composite (cb :: colors) (sb :: sigma) (db :: delta)
  = composite_row cb sb db :: composite colors sigma delta.
Proof. reflexivity. Qed.

Lemma ray_weights_rows (sigma delta : tensor2) :
  ray_weights sigma delta = map2 weights_row sigma delta.
Proof.
  revert delta; induction sigma as [|sb sigma IH]; intros [|db delta];
    try reflexivity.
  change (ray_weights (sb :: sigma) (db :: delta))
    with (weights_row sb db :: ray_weights sigma delta).
  now rewrite IH.
Qed.

Lemma weight_sums_rows (sigma delta : tensor2) :
  weight_sums (ray_weights sigma delta)
  = map2 (fun sb db => sum (map sum (weights_row sb db))) sigma delta.
Proof.
  rewrite ray_weights_rows. unfold weight_sums.
  revert delta; induction sigma as [|sb sigma IH]; intros [|db delta];
    try reflexivity.
  simpl. now rewrite IH.
Qed.

Lemma composite_rows (colors : tensor3) (sigma delta : tensor2) :
  composite colors sigma delta
  = map2 (fun cb sd => composite_row cb (fst sd) (snd sd)) colors (combine sigma delta).
Proof.
  revert sigma delta; induction colors as [|cb colors IH]; intros sigma delta.
  - unfold composite. cbv zeta. now rewrite map2_nil_r.
  - destruct sigma as [|sb sigma]; [reflexivity|].
    destruct delta as [|db delta]; [reflexivity|].
    rewrite composite_cons, IH. reflexivity.
Qed.

Definition prod (l : tensor1) : R := fold_right Rmult 1 l.

Lemma firstn_seq_le (i s n : nat) : (i <= n)%nat -> firstn i (seq s n) = seq s i.
Proof.
  revert s n; induction i as [|i IH]; intros s [|n] H; simpl; try lia; auto.
  now rewrite IH by lia.
Qed.

Lemma nth_cumprod (l : tensor1) (i : nat) :
  (i < length l)%nat -> nth i (cumprod l) 0 = prod (firstn (S i) l).
Proof.
  revert i; induction l as [|a l IH]; intros i H; simpl in H; [lia|].
  destruct i as [|i].
  - simpl. lra.
  - change (cumprod (a :: l)) with (a :: map (Rmult a) (cumprod l)).
    change (nth (S i) (a :: map (Rmult a) (cumprod l)) 0)
      with (nth i (map (Rmult a) (cumprod l)) 0).
    assert (Hl : forall l', length (cumprod l') = length l').
    { induction l' as [|b l' IH']; simpl; [reflexivity|].
      now rewrite length_map, IH'. }
    rewrite (nth_map_in _ _ _ 0) by (rewrite Hl; lia).
    rewrite IH by lia. reflexivity.
Qed.

Lemma length_cumprod (l : tensor1) : length (cumprod l) = length l.
Proof.
  induction l as [|b l IH]; simpl; [reflexivity|].
  now rewrite length_map, IH.
Qed.

(** Entry [i] of the shifted cumulative product is the product of the
    first [i] factors. *)
Lemma nth_shifted_cumprod (l : tensor1) (i : nat) :
  (i < length l)%nat ->
  nth i ([1] ++ removelast (cumprod l)) 0 = prod (firstn i l).
Proof.
  intros H. destruct i as [|i]; [reflexivity|].
  change (nth (S i) ([1] ++ removelast (cumprod l)) 0)
    with (nth i (removelast (cumprod l)) 0).
  rewrite nth_removelast by (rewrite length_cumprod; lia).
  apply nth_cumprod. lia.
Qed.

Lemma sum_dim1_columns (rows : tensor2) :
  has_width 3 rows ->
  sum_dim1 rows = map (fun k => sum (map (fun r => nth k r 0) rows)) (seq 0 3).
Proof.
  induction 1 as [|r rows Hr _ IH].
  - simpl. repeat (f_equal; try lra).
  - change (sum_dim1 (r :: rows)) with (map2 Rplus r (sum_dim1 rows)).
    rewrite IH.
    destruct r as [|r0 [|r1 [|r2 [|r3 r]]]]; simpl in Hr; try discriminate.
    reflexivity.
Qed.

Lemma sum_ext_seq (f g : nat -> R) (n : nat) :
  (forall i, (i < n)%nat -> f i = g i) ->
  sum (map f (seq 0 n)) = sum (map g (seq 0 n)).
Proof.
  intros H. f_equal. apply map_ext_in. intros i Hi. apply in_seq in Hi.
  apply H. lia.
Qed.

Section RowQuadrature.
Variables (sigma delta : tensor1) (B : nat).
Hypothesis sigma_length : length sigma = B.
Hypothesis delta_length : (B <= length delta)%nat.

Let sg := fun i => nth i sigma 0.
Let dl := fun i => nth i delta 0.

Lemma alpha_table :
  map2 (fun s d => 1 - exp (- s * d)) sigma delta
  = map (spec_alpha sg dl) (seq 0 B).
Proof.
  rewrite (map2_tabulate _ _ _ 0 0), sigma_length, Nat.min_l by assumption.
  apply map_ext. intros i. unfold spec_alpha, sg, dl. do 2 f_equal. ring.
Qed.

Lemma weights_table :
  weights_row sigma delta = map (fun i => [spec_weight sg dl i]) (seq 0 B).
Proof.
  unfold weights_row. cbv zeta. rewrite alpha_table.
  rewrite map2_map_map.
  rewrite (map2_tabulate _ _ _ 0 0).
  rewrite length_app, length_removelast, length_cumprod, !length_map, length_seq.
  replace (Nat.min (length [1] + (B - 1)) B) with B
    by (change (length [1]) with 1%nat; lia).
  apply map_ext_in. intros i Hi. apply in_seq in Hi. cbn [map2].
  rewrite nth_shifted_cumprod by (rewrite !length_map, length_seq; lia).
  rewrite nth_map_seq by lia. simpl Nat.add.
  unfold spec_weight, spec_transmittance. do 2 f_equal.
  rewrite map_map, firstn_map, firstn_seq_le by lia.
  reflexivity.
Qed.

Lemma weight_sum_row :
  sum (map sum (weights_row sigma delta)) = spec_weight_sum B sg dl.
Proof.
  rewrite weights_table, map_map. unfold spec_weight_sum.
  apply sum_ext_seq. intros i _. simpl. lra.
Qed.

Variable colors : tensor2.
Hypothesis colors_length : length colors = B.
Hypothesis colors_width : has_width 3 colors.

Let c := fun i k => nth k (nth i colors []) 0.

Lemma width_nth (i : nat) : (i < B)%nat -> length (nth i colors []) = 3%nat.
Proof.
  intros Hi. unfold has_width in colors_width.
  rewrite Forall_forall in colors_width. apply colors_width.
  apply nth_In. lia.
Qed.

Lemma composite_row_quadrature :
  composite_row colors sigma delta = map (spec_pixel B c sg dl) (seq 0 3).
Proof.
  unfold composite_row. cbv zeta. rewrite weights_table.
  rewrite (map2_tabulate mul_broadcast _ _ [] []), length_map, length_seq,
    colors_length, Nat.min_id.
  rewrite sum_dim1_columns.
  2:{ unfold has_width. rewrite Forall_map, Forall_forall. intros i Hi.
      apply in_seq in Hi.
      unfold mul_broadcast. rewrite length_map. apply width_nth. lia. }
  rewrite !map_map. apply map_ext_in. intros k Hk. apply in_seq in Hk.
  unfold spec_pixel, spec_weight_sum.
  replace (nth k white 0) with 1
    by (destruct k as [|[|[|k]]]; simpl; try reflexivity; lia).
  rewrite !map_map.
  rewrite (sum_ext_seq
             (fun x => nth k (mul_broadcast
                                (nth x (map (fun i => [spec_weight sg dl i]) (seq 0 B)) [])
                                (nth x colors [])) 0)
             (fun i => spec_weight sg dl i * c i k) B).
  2:{ intros i Hi. rewrite (nth_map_seq _ _ _ _ []) by lia.
      unfold mul_broadcast. simpl hd.
      rewrite (nth_map_in _ _ _ 0) by (rewrite width_nth; lia).
      reflexivity. }
  rewrite (sum_ext_seq (fun x => sum [spec_weight sg dl x]) (spec_weight sg dl) B).
  2:{ intros i _. simpl. lra. }
  ring.
Qed.

End RowQuadrature.

(** *** Bounds on the quadrature *)

Lemma sum_seq_S (f : nat -> R) (n : nat) :
  sum (map f (seq 0 (S n))) = sum (map f (seq 0 n)) + f n.
Proof.
  rewrite seq_S, map_app. unfold sum. rewrite fold_right_app. simpl.
  generalize (map f (seq 0 n)) as l. induction l as [|x l IH]; simpl; [lra|].
  rewrite IH. lra.
Qed.

Lemma prod_seq_S (f : nat -> R) (n : nat) :
  fold_right Rmult 1 (map f (seq 0 (S n)))
  = fold_right Rmult 1 (map f (seq 0 n)) * f n.
Proof.
  rewrite seq_S, map_app, fold_right_app. simpl.
  generalize (map f (seq 0 n)) as l. induction l as [|x l IH]; simpl; [lra|].
  rewrite IH. lra.
Qed.

Section QuadratureBounds.
Variables (B : nat) (c : nat -> nat -> R) (sg dl : nat -> R).

Lemma transmittance_S (i : nat) :
  spec_transmittance sg dl (S i)
  = spec_transmittance sg dl i * (1 - spec_alpha sg dl i).
Proof. unfold spec_transmittance. apply prod_seq_S. Qed.

(** The weights telescope: what is absorbed is what has not been
    transmitted. *)
Lemma weights_telescope (n : nat) :
  sum (map (spec_weight sg dl) (seq 0 n)) = 1 - spec_transmittance sg dl n.
Proof.
  induction n as [|n IH].
  - unfold spec_transmittance. simpl. lra.
  - rewrite sum_seq_S, IH, transmittance_S. unfold spec_weight. ring.
Qed.

Section ZeroDensity.
Hypothesis sigma_zero : forall i, (i < B)%nat -> sg i = 0.

Lemma alpha_zero (i : nat) : (i < B)%nat -> spec_alpha sg dl i = 0.
Proof.
  intros Hi. unfold spec_alpha. rewrite (sigma_zero i Hi).
  replace (- (0 * dl i)) with 0 by ring. rewrite exp_0. ring.
Qed.

Lemma weight_zero (i : nat) : (i < B)%nat -> spec_weight sg dl i = 0.
Proof. intros Hi. unfold spec_weight. rewrite alpha_zero by assumption. ring. Qed.

Lemma weight_sum_zero : spec_weight_sum B sg dl = 0.
Proof.
  unfold spec_weight_sum.
  rewrite (sum_ext_seq _ (fun _ => 0) B) by (intros; now apply weight_zero).
  clear. induction B as [|n IH]; [reflexivity|].
  rewrite sum_seq_S, IH. lra.
Qed.

Lemma pixel_white (k : nat) : (k < 3)%nat -> spec_pixel B c sg dl k = 1.
Proof.
  intros Hk. unfold spec_pixel. rewrite weight_sum_zero.
  rewrite (sum_ext_seq _ (fun _ => 0) B).
  2:{ intros i Hi. rewrite weight_zero by assumption. ring. }
  replace (nth k white 0) with 1
    by (destruct k as [|[|[|k]]]; simpl; try reflexivity; lia).
  assert (E : sum (map (fun _ : nat => 0) (seq 0 B)) = 0).
  { clear. induction B as [|n IH]; [reflexivity|].
    rewrite sum_seq_S, IH. lra. }
  rewrite E. ring.
Qed.
End ZeroDensity.

Hypothesis sigma_nonneg : forall i, (i < B)%nat -> 0 <= sg i.
Hypothesis delta_nonneg : forall i, (i < B)%nat -> 0 <= dl i.
Hypothesis color_unit : forall i k, (i < B)%nat -> (k < 3)%nat -> 0 <= c i k <= 1.

Lemma alpha_range (i : nat) : (i < B)%nat -> 0 <= spec_alpha sg dl i < 1.
Proof.
  intros Hi. unfold spec_alpha.
  pose proof (sigma_nonneg i Hi) as Hs. pose proof (delta_nonneg i Hi) as Hd.
  assert (Hx : 0 <= sg i * dl i) by now apply Rmult_le_pos.
  pose proof (exp_pos (- (sg i * dl i))) as Hp.
  assert (He : exp (- (sg i * dl i)) <= 1).
  { destruct (Rle_lt_or_eq_dec _ _ Hx) as [Hlt|Heq].
    - rewrite <- exp_0. apply Rlt_le, exp_increasing. lra.
    - rewrite <- Heq. replace (- 0) with 0 by ring. rewrite exp_0. lra. }
  lra.
Qed.

Lemma transmittance_range (n : nat) :
  (n <= B)%nat -> 0 < spec_transmittance sg dl n <= 1.
Proof.
  induction n as [|n IH]; intros Hn.
  - unfold spec_transmittance. simpl. lra.
  - rewrite transmittance_S.
    pose proof (IH ltac:(lia)). pose proof (alpha_range n ltac:(lia)). nra.
Qed.

Lemma weight_nonneg (i : nat) : (i < B)%nat -> 0 <= spec_weight sg dl i.
Proof.
  intros Hi. unfold spec_weight.
  pose proof (transmittance_range i ltac:(lia)). pose proof (alpha_range i Hi).
  nra.
Qed.

Lemma weight_sum_range : 0 <= spec_weight_sum B sg dl <= 1.
Proof.
  unfold spec_weight_sum. rewrite weights_telescope.
  pose proof (transmittance_range B ltac:(lia)). lra.
Qed.

Lemma colour_sum_range (k n : nat) :
  (k < 3)%nat -> (n <= B)%nat ->
  0 <= sum (map (fun i => spec_weight sg dl i * c i k) (seq 0 n))
    <= sum (map (spec_weight sg dl) (seq 0 n)).
Proof.
  intros Hk. induction n as [|n IH]; intros Hn.
  - simpl. lra.
  - rewrite !sum_seq_S. pose proof (IH ltac:(lia)).
    pose proof (weight_nonneg n ltac:(lia)).
    pose proof (color_unit n k ltac:(lia) Hk). nra.
Qed.

Lemma pixel_range (k : nat) : (k < 3)%nat -> 0 <= spec_pixel B c sg dl k <= 1.
Proof.
  intros Hk. unfold spec_pixel.
  replace (nth k white 0) with 1
    by (destruct k as [|[|[|k]]]; simpl; try reflexivity; lia).
  pose proof (colour_sum_range k B Hk ltac:(lia)) as H.
  fold (spec_weight_sum B sg dl) in H. pose proof weight_sum_range. lra.
Qed.

End QuadratureBounds.

End CompositorFacts.

(** ** [render_rays] as a whole *)

Module RenderFacts.
Import SamplerFacts CompositorFacts.

Lemma length_sample_depths (n : nat) (hn hf : R) (nb_bins : nat) (rand : nat -> nat -> R) :
  length (sample_depths n hn hf nb_bins rand) = n.
Proof. rewrite sample_depths_rows. now rewrite length_map, length_seq. Qed.

Lemma length_deltas_row (t : tensor1) : (length t <= length (deltas_row t))%nat.
Proof.
  unfold deltas_row.
  rewrite length_app, map2_length, length_tl, length_removelast. simpl. lia.
Qed.

Lemma nth_sample_deltas (n : nat) (hn hf : R) (nb_bins : nat)
      (rand : nat -> nat -> R) (b : nat) :
  (b < n)%nat ->
  (nb_bins <= length (nth b (sample_deltas n (sample_depths n hn hf nb_bins rand)) []))%nat.
Proof.
  intros Hb.
  rewrite <- (length_sample_depths n hn hf nb_bins rand) at 1.
  rewrite sample_deltas_rows, sample_depths_rows, map_map.
  rewrite (nth_map_seq _ _ _ _ []) by assumption.
  etransitivity; [|apply length_deltas_row].
  rewrite length_jitter_row; rewrite ?length_linspace, ?length_map, ?length_seq; lia.
Qed.

(** What [render_rays] returns once the network has answered with a
    [N * nb_bins] by 3 colour tensor and [N * nb_bins] densities. *)
Lemma render_rays_composite
      (nerf_model : tensor2 -> tensor2 -> option (tensor2 * tensor1))
      (o d : tensor2) (hn hf : R) (nb_bins : nat) (rand : nat -> nat -> R)
      (colors : tensor2) (sigma : tensor1) :
  let n := length o in
  let t := sample_depths n hn hf nb_bins rand in
  nerf_model (concat (sample_points o d t)) (concat (expand_directions nb_bins d))
    = Some (colors, sigma) ->
  has_width 3 colors ->
  length colors = (n * nb_bins)%nat ->
  length sigma = (n * nb_bins)%nat ->
  render_rays nerf_model o d hn hf nb_bins rand
  = Some (composite (unflatten n nb_bins colors) (unflatten n nb_bins sigma)
                    (sample_deltas n t)).
Proof.
  intros n t Hout Hw Hc Hs. unfold render_rays. fold n. fold t.
  rewrite Hout. simpl obind. unfold reshape3, reshape2. simpl fst; simpl snd.
  rewrite (length_concat_width 3 colors Hw), Hc, Nat.eqb_refl. simpl obind.
  rewrite Hs, Nat.eqb_refl. simpl obind.
  rewrite <- Hc, (unflatten_concat 3 colors Hw). reflexivity.
Qed.

Lemma Forall_firstn {A : Type} (P : A -> Prop) (k : nat) (l : list A) :
  Forall P l -> Forall P (firstn k l).
Proof.
  intros H. rewrite Forall_forall in *. intros x Hx. apply H.
  rewrite <- (firstn_skipn k l). apply in_or_app. now left.
Qed.

Lemma Forall_skipn {A : Type} (P : A -> Prop) (k : nat) (l : list A) :
  Forall P l -> Forall P (skipn k l).
Proof.
  intros H. rewrite Forall_forall in *. intros x Hx. apply H.
  rewrite <- (firstn_skipn k l). apply in_or_app. now right.
Qed.

Lemma length_nth_unflatten {A : Type} (n m b : nat) (l : list A) :
  length l = (n * m)%nat -> (b < n)%nat ->
  length (nth b (unflatten n m l) []) = m.
Proof.
  intros Hl Hb. rewrite nth_unflatten by assumption.
  rewrite length_firstn, length_skipn. nia.
Qed.

Lemma length_sample_deltas (n : nat) (hn hf : R) (nb_bins : nat) (rand : nat -> nat -> R) :
  length (sample_deltas n (sample_depths n hn hf nb_bins rand)) = n.
Proof.
  unfold sample_deltas.
  rewrite map2_length, map2_length, !length_map, repeat_length, length_sample_depths.
  lia.
Qed.

Lemma nth_sample_deltas_row (n : nat) (hn hf : R) (nb_bins : nat)
      (rand : nat -> nat -> R) (b : nat) :
  (b < n)%nat ->
  nth b (sample_deltas n (sample_depths n hn hf nb_bins rand)) []
  = deltas_row (jitter_row (linspace hn hf nb_bins) (map (rand b) (seq 0 nb_bins))).
Proof.
  intros Hb.
  rewrite <- (length_sample_depths n hn hf nb_bins rand) at 1.
  rewrite sample_deltas_rows, sample_depths_rows, map_map.
  now rewrite (nth_map_seq _ _ _ _ []) by assumption.
Qed.

(** The pixel of ray [b], as the quadrature over its row of the reshaped
    network outputs. *)
Definition quadrature_pixel (nb_bins : nat) (colors3 : tensor3)
    (sigma2 delta : tensor2) (b : nat) : tensor1 :=
  map (spec_pixel nb_bins
         (fun i k => nth k (nth i (nth b colors3 []) []) 0)
         (fun i => nth i (nth b sigma2 []) 0)
         (fun i => nth i (nth b delta []) 0))
      (seq 0 3).

Lemma composite_quadrature (n nb_bins : nat) (colors : tensor2) (sigma : tensor1)
      (delta : tensor2) :
  has_width 3 colors ->
  length colors = (n * nb_bins)%nat ->
  length sigma = (n * nb_bins)%nat ->
  length delta = n ->
  (forall b, (b < n)%nat -> (nb_bins <= length (nth b delta []))%nat) ->
  composite (unflatten n nb_bins colors) (unflatten n nb_bins sigma) delta
  = map (quadrature_pixel nb_bins (unflatten n nb_bins colors)
                          (unflatten n nb_bins sigma) delta)
        (seq 0 n).
Proof.
  intros Hw Hc Hs Hd Hdl.
  rewrite composite_rows.
  rewrite (map2_tabulate _ _ _ [] ([], [])).
  rewrite length_combine, !length_unflatten, Hd, !Nat.min_id.
  apply map_ext_in. intros b Hb. apply in_seq in Hb.
  rewrite combine_nth by (rewrite length_unflatten; lia).
  cbn [fst snd]. unfold quadrature_pixel.
  apply composite_row_quadrature.
  - apply length_nth_unflatten; [assumption|lia].
  - apply Hdl. lia.
  - apply length_nth_unflatten; [assumption|lia].
  - rewrite nth_unflatten by lia.
    apply Forall_firstn, Forall_skipn, Hw.
Qed.

(** C1. Once the network has returned per-sample colours and densities,
    [render_rays] returns for every ray [b] and channel [k] the quadrature
    [sum_i T_i * alpha_i * c_i + (1 - sum_i T_i * alpha_i) * white], with
    [alpha_i = 1 - exp (- sigma_i * delta_i)], [T_0 = 1] and
    [T_i] the product of [1 - alpha_j] over [j < i]; the samples of ray
    [b] are row [b] of the reshaped outputs. *)
Theorem render_rays_quadrature
      (nerf_model : tensor2 -> tensor2 -> option (tensor2 * tensor1))
      (o d : tensor2) (hn hf : R) (nb_bins : nat) (rand : nat -> nat -> R)
      (colors : tensor2) (sigma : tensor1) :
  let n := length o in
  let t := sample_depths n hn hf nb_bins rand in
  let delta := sample_deltas n t in
  let colors3 := unflatten n nb_bins colors in
  let sigma2 := unflatten n nb_bins sigma in
  nerf_model (concat (sample_points o d t)) (concat (expand_directions nb_bins d))
    = Some (colors, sigma) ->
  has_width 3 colors ->
  length colors = (n * nb_bins)%nat ->
  length sigma = (n * nb_bins)%nat ->
  render_rays nerf_model o d hn hf nb_bins rand
  = Some (map (fun b =>
                 map (spec_pixel nb_bins
                        (fun i k => nth k (nth i (nth b colors3 []) []) 0)
                        (fun i => nth i (nth b sigma2 []) 0)
                        (fun i => nth i (nth b delta []) 0))
                     (seq 0 3))
              (seq 0 n)).
Proof.
  intros n t delta colors3 sigma2 Hout Hw Hc Hs.
  rewrite (render_rays_composite nerf_model o d hn hf nb_bins rand colors sigma
             Hout Hw Hc Hs).
  fold n t delta. f_equal. subst colors3 sigma2.
  apply composite_quadrature; auto.
  - apply length_sample_deltas.
  - intros b Hb. now apply nth_sample_deltas.
Qed.

(** A stand-in network that answers the same colour and density at every
    sample; it serves as a concrete input below. *)
Definition constant_model (c : tensor1) (s : R)
  : tensor2 -> tensor2 -> option (tensor2 * tensor1) :=
  fun x _ => Some (map (fun _ => c) x, map (fun _ => s) x).

Lemma render_rays_quadrature_witness :
  render_rays (constant_model [1 / 2; 1 / 2; 1 / 2] 1)
              [[0; 0; 0]] [[0; 0; 1]] 2 6 2 (fun _ _ => 1 / 2)
  = Some (map (fun b =>
                 map (spec_pixel 2
                        (fun i k =>
                           nth k (nth i (nth b (unflatten 1 2
                                   [[1 / 2; 1 / 2; 1 / 2]; [1 / 2; 1 / 2; 1 / 2]]) []) []) 0)
                        (fun i => nth i (nth b (unflatten 1 2 [1; 1]) []) 0)
                        (fun i => nth i (nth b (sample_deltas 1
                                   (sample_depths 1 2 6 2 (fun _ _ => 1 / 2))) []) 0))
                     (seq 0 3))
              (seq 0 1)).
Proof.
  apply (render_rays_quadrature (constant_model [1 / 2; 1 / 2; 1 / 2] 1)
           [[0; 0; 0]] [[0; 0; 1]] 2 6 2 (fun _ _ => 1 / 2)
           [[1 / 2; 1 / 2; 1 / 2]; [1 / 2; 1 / 2; 1 / 2]] [1; 1]).
  - reflexivity.
  - repeat constructor.
  - reflexivity.
  - reflexivity.
Defined.

Lemma Forall_nth_default {A : Type} (P : A -> Prop) (l : list A) (i : nat) (d : A) :
  Forall P l -> P d -> P (nth i l d).
Proof.
  intros H Hd. destruct (Nat.lt_ge_cases i (length l)) as [Hi|Hi].
  - rewrite Forall_forall in H. apply H. now apply nth_In.
  - now rewrite nth_overflow.
Qed.

Lemma Forall_nth_unflatten {A : Type} (P : A -> Prop) (n m b : nat) (l : list A) :
  Forall P l -> Forall P (nth b (unflatten n m l) []).
Proof.
  intros H. destruct (Nat.lt_ge_cases b n) as [Hb|Hb].
  - rewrite nth_unflatten by assumption. now apply Forall_firstn, Forall_skipn.
  - rewrite nth_overflow by (rewrite length_unflatten; lia). constructor.
Qed.

(** C5, on a valid depth range and in exact arithmetic.  For [hn <= hf]
    and draws in [[0, 1)], when the network returns densities [>= 0] and
    colour channels in [[0, 1]]: [render_rays] returns one 3-channel pixel
    per ray, every [weight_sum] and every returned channel lies in
    [[0, 1]], and if all densities are [0] every [weight_sum] is [0] and
    every pixel is white [(1, 1, 1)].  The bounds are those of the
    real-number model: they are met exactly (a pixel can be [1]), so that
    the rounding of [c + 1 - weight_sum] over binary32 is not covered. *)
Theorem render_rays_unit_range
      (nerf_model : tensor2 -> tensor2 -> option (tensor2 * tensor1))
      (o d : tensor2) (hn hf : R) (nb_bins : nat) (rand : nat -> nat -> R)
      (colors : tensor2) (sigma : tensor1) :
  let n := length o in
  let t := sample_depths n hn hf nb_bins rand in
  let delta := sample_deltas n t in
  let weight_sum := weight_sums (ray_weights (unflatten n nb_bins sigma) delta) in
  nerf_model (concat (sample_points o d t)) (concat (expand_directions nb_bins d))
    = Some (colors, sigma) ->
  has_width 3 colors ->
  length colors = (n * nb_bins)%nat ->
  length sigma = (n * nb_bins)%nat ->
  hn <= hf ->
  (forall b i, 0 <= rand b i < 1) ->
  Forall (fun s => 0 <= s) sigma ->
  Forall (Forall unit_interval) colors ->
  exists px,
    render_rays nerf_model o d hn hf nb_bins rand = Some px
    /\ length px = n /\ length weight_sum = n
    /\ Forall unit_interval weight_sum
    /\ Forall (fun p => length p = 3%nat /\ Forall unit_interval p) px
    /\ (Forall (fun s => s = 0) sigma ->
        Forall (fun ws => ws = 0) weight_sum /\ Forall (fun p => p = [1; 1; 1]) px).
Proof.
  intros n t delta weight_sum Hout Hw Hc Hs Hnf Hu Hsig Hcol.
  assert (Hd : length delta = n) by apply length_sample_deltas.
  assert (Hdl : forall b, (b < n)%nat -> (nb_bins <= length (nth b delta []))%nat).
  { intros b Hb. now apply nth_sample_deltas. }
  assert (Hsg : forall b i, 0 <= nth i (nth b (unflatten n nb_bins sigma) []) 0).
  { intros b i. apply Forall_nth_default; [|lra]. now apply Forall_nth_unflatten. }
  assert (Hdn : forall b i, (b < n)%nat -> (i < nb_bins)%nat ->
                            0 <= nth i (nth b delta []) 0).
  { intros b i Hb Hi. unfold delta, t. rewrite nth_sample_deltas_row by assumption.
    apply deltas_row_nonneg; auto.
    - now rewrite length_map, length_seq.
    - intros j Hj. rewrite nth_map_seq by assumption. apply Hu. }
  assert (Hcu : forall b i k,
             unit_interval (nth k (nth i (nth b (unflatten n nb_bins colors) []) []) 0)).
  { intros b i k. apply Forall_nth_default; [|unfold unit_interval; lra].
    apply Forall_nth_default; [|constructor]. now apply Forall_nth_unflatten. }
  assert (Hws : weight_sum
                = map (fun b => spec_weight_sum nb_bins
                                  (fun i => nth i (nth b (unflatten n nb_bins sigma) []) 0)
                                  (fun i => nth i (nth b delta []) 0))
                      (seq 0 n)).
  { unfold weight_sum. rewrite weight_sums_rows.
    rewrite (map2_tabulate _ _ _ [] []), length_unflatten, Hd, Nat.min_id.
    apply map_ext_in. intros b Hb. apply in_seq in Hb.
    apply weight_sum_row.
    - apply length_nth_unflatten; [assumption|lia].
    - apply Hdl. lia. }
  exists (map (quadrature_pixel nb_bins (unflatten n nb_bins colors)
                                (unflatten n nb_bins sigma) delta) (seq 0 n)).
  split.
  { rewrite (render_rays_composite nerf_model o d hn hf nb_bins rand colors sigma
               Hout Hw Hc Hs).
    fold n t delta. f_equal. now apply composite_quadrature. }
  rewrite Hws, !length_map, length_seq. repeat split.
  - apply Forall_map_seq. intros b Hb.
    apply weight_sum_range; [intros; apply Hsg | intros; now apply Hdn].
  - apply Forall_map_seq. intros b Hb. unfold quadrature_pixel. split.
    + now rewrite length_map, length_seq.
    + rewrite Forall_map, Forall_forall. intros k Hk. apply in_seq in Hk.
      apply pixel_range;
        [intros; apply Hsg | intros; now apply Hdn | intros; apply Hcu | lia].
  - apply Forall_map_seq. intros b Hb. apply weight_sum_zero.
    intros i _. apply (Forall_nth_default (fun s => s = 0)); [|reflexivity].
    now apply Forall_nth_unflatten.
  - apply Forall_map_seq. intros b Hb. unfold quadrature_pixel.
    assert (Hz : forall i, (i < nb_bins)%nat ->
                           nth i (nth b (unflatten n nb_bins sigma) []) 0 = 0).
    { intros i _. apply (Forall_nth_default (fun s => s = 0)); [|reflexivity].
      now apply Forall_nth_unflatten. }
    cbn [seq map].
    rewrite !pixel_white by (assumption || lia). reflexivity.
Qed.

(** The network itself meets the assumptions on its outputs: the witness
    renders one ray with the network of [__init__] for [output_dim = 1]. *)
Lemma render_rays_unit_range_witness :
  exists px,
    render_rays (NerfModel.forward (NerfModel.init 0 0 1 (1 / 2) 1))
                [[0; 0; 0]] [[0; 0; 1]] 2 6 2 (fun _ _ => 1 / 2) = Some px
    /\ length px = 1%nat
    /\ Forall (fun p => length p = 3%nat /\ Forall unit_interval p) px.
Proof.
  assert (E : exists colors sigma,
             NerfModel.forward (NerfModel.init 0 0 1 (1 / 2) 1)
               (concat (sample_points [[0; 0; 0]] [[0; 0; 1]]
                          (sample_depths (length [[0; 0; 0]]) 2 6 2
                                         (fun _ _ => 1 / 2))))
               (concat (expand_directions 2 [[0; 0; 1]]))
             = Some (colors, sigma)).
  { do 2 eexists. NerfModelFacts.eval_lists. reflexivity. }
  destruct E as (colors & sigma & E).
  pose proof (NerfModelFacts.rgb_head_init 0 0 1 (1 / 2) 1) as Hrgb.
  destruct (NerfModelFacts.forward_shape _ _ _ _ _ Hrgb E) as (Hc & Hs & Hw).
  destruct (NerfModelFacts.forward_outputs_bounded _ _ _ _ _ Hrgb E) as (Hsig & Hcol).
  destruct (render_rays_unit_range
              (NerfModel.forward (NerfModel.init 0 0 1 (1 / 2) 1))
              [[0; 0; 0]] [[0; 0; 1]] 2 6 2 (fun _ _ => 1 / 2) colors sigma
              E Hw) as (px & Hpx & Hl & _ & _ & Hrange & _).
  - rewrite Hc. reflexivity.
  - rewrite Hs. reflexivity.
  - lra.
  - intros; lra.
  - exact Hsig.
  - exact Hcol.
  - exists px. repeat split; assumption.
Defined.

(** The reading of C5 as it is worded, for any depth range: whenever the
    network answers with densities [>= 0] and colour channels in [[0, 1]],
    every [weight_sum] and every returned channel lies in [[0, 1]]. *)
Definition unit_range_claim
    (nerf_model : tensor2 -> tensor2 -> option (tensor2 * tensor1))
    (o d : tensor2) (hn hf : R) (nb_bins : nat) (rand : nat -> nat -> R) : Prop :=
  let n := length o in
  let t := sample_depths n hn hf nb_bins rand in
  let delta := sample_deltas n t in
  forall colors sigma,
    nerf_model (concat (sample_points o d t)) (concat (expand_directions nb_bins d))
      = Some (colors, sigma) ->
    has_width 3 colors ->
    length colors = (n * nb_bins)%nat ->
    length sigma = (n * nb_bins)%nat ->
    Forall (fun s => 0 <= s) sigma ->
    Forall (Forall unit_interval) colors ->
    exists px,
      render_rays nerf_model o d hn hf nb_bins rand = Some px
      /\ Forall unit_interval
           (weight_sums (ray_weights (unflatten n nb_bins sigma) delta))
      /\ Forall (Forall unit_interval) px.

(** With [hn = 1] above [hf = 0] the depths decrease: for two bins and
    draws [0] they are [1] and [1/2], the first interval has length
    [-1/2], and the densities [1], [0] give the first sample the opacity
    [1 - exp (1/2) < 0], which is the [weight_sum] of the ray. *)
Lemma unit_range_claim_counterexample :
  ~ unit_range_claim
      (fun x _ => Some (map (fun _ => [1 / 2; 1 / 2; 1 / 2]) x, [1; 0]))
      [[0; 0; 0]] [[0; 0; 1]] 1 0 2 (fun _ _ => 0).
Proof.
  unfold unit_range_claim. intros H.
  destruct (H [[1 / 2; 1 / 2; 1 / 2]; [1 / 2; 1 / 2; 1 / 2]] [1; 0])
    as (px & _ & Hws & _).
  - reflexivity.
  - repeat constructor.
  - reflexivity.
  - reflexivity.
  - repeat constructor; lra.
  - unfold unit_interval. repeat constructor; lra.
  - revert Hws. NerfModelFacts.eval_lists. cbn [INR]. intros Hws.
    apply Forall_inv in Hws. destruct Hws as [Hws _]. revert Hws.
    repeat match goal with
           | |- context [exp ?a] =>
               let e := fresh "e" in
               let He := fresh "He" in
               remember (exp a) as e eqn:He;
               match type of He with
               | _ = exp ?b =>
                   first [ replace b with (1 / 2) in He by lra
                         | replace b with 0 in He by lra ]
               end
           end.
    rewrite exp_0 in He0. pose proof (exp_ineq1 (1 / 2) ltac:(lra)) as Hexp.
    subst. intros Hws. nra.
Qed.

(** *** Rendering two batches at once *)

Import NerfModel NerfModelFacts.

Lemma combine_app_eq {A B : Type} (a1 a2 : list A) (b1 b2 : list B) :
  length a1 = length b1 ->
  combine (a1 ++ a2) (b1 ++ b2) = combine a1 b1 ++ combine a2 b2.
Proof.
  revert b1; induction a1 as [|x a1 IH]; intros [|y b1] H; simpl in *;
    try discriminate; auto.
  now rewrite IH by lia.
Qed.

Lemma map_seq_offset {A : Type} (f : nat -> A) (s n : nat) :
  map f (seq s n) = map (fun b => f (s + b)%nat) (seq 0 n).
Proof.
  revert s; induction n as [|n IH]; intros s; simpl; [reflexivity|].
  rewrite Nat.add_0_r. f_equal.
  rewrite IH, <- seq_shift, map_map. apply map_ext. intros b. f_equal. lia.
Qed.

Lemma sample_depths_app (n1 n2 : nat) (hn hf : R) (nb_bins : nat)
      (rand : nat -> nat -> R) :
  sample_depths (n1 + n2) hn hf nb_bins rand
  = sample_depths n1 hn hf nb_bins rand
    ++ sample_depths n2 hn hf nb_bins (fun b => rand (n1 + b)%nat).
Proof.
  rewrite !sample_depths_rows, seq_app, map_app. f_equal.
  apply map_seq_offset.
Qed.

Lemma sample_deltas_app (n1 n2 : nat) (t1 t2 : tensor2) :
  length t1 = n1 -> length t2 = n2 ->
  sample_deltas (n1 + n2) (t1 ++ t2)
  = sample_deltas n1 t1 ++ sample_deltas n2 t2.
Proof.
  intros <- <-. rewrite <- length_app, !sample_deltas_rows. apply map_app.
Qed.

Lemma sample_points_app (o1 o2 d1 d2 t1 t2 : tensor2) :
  length o1 = length d1 -> length t1 = length d1 ->
  sample_points (o1 ++ o2) (d1 ++ d2) (t1 ++ t2)
  = sample_points o1 d1 t1 ++ sample_points o2 d2 t2.
Proof.
  intros Ho Ht. unfold sample_points.
  rewrite combine_app_eq by assumption.
  apply map2_app. rewrite length_combine. lia.
Qed.

Lemma length_concat_rows {A : Type} (m : nat) (l : list (list A)) :
  Forall (fun r => length r = m) l -> length (concat l) = (length l * m)%nat.
Proof.
  induction 1 as [|r l Hr _ IH]; simpl; [reflexivity|].
  rewrite length_app, IH, Hr. lia.
Qed.

Lemma length_sample_points (o d t : tensor2) (nb_bins : nat) :
  length o = length d -> length t = length d ->
  Forall (fun r => length r = nb_bins) t ->
  length (concat (sample_points o d t)) = (length o * nb_bins)%nat.
Proof.
  intros Ho Ht Hr. rewrite (length_concat_rows nb_bins).
  - unfold sample_points. rewrite map2_length, length_combine. f_equal. lia.
  - unfold sample_points. revert d t Ho Ht Hr.
    induction o as [|ob o IH]; intros [|db d] [|tb t] Ho Ht Hr; simpl in *;
      try discriminate; constructor.
    + rewrite length_map. now inversion Hr.
    + apply IH; try lia. now inversion Hr.
Qed.

Lemma length_expand_directions (nb_bins : nat) (d : tensor2) :
  length (concat (expand_directions nb_bins d)) = (length d * nb_bins)%nat.
Proof.
  unfold expand_directions. rewrite (length_concat_rows nb_bins).
  - now rewrite length_map.
  - rewrite Forall_map. apply Forall_forall. intros r _. apply repeat_length.
Qed.

Lemma sample_depths_width (n : nat) (hn hf : R) (nb_bins : nat) (rand : nat -> nat -> R) :
  Forall (fun r => length r = nb_bins) (sample_depths n hn hf nb_bins rand).
Proof.
  rewrite sample_depths_rows. apply Forall_map_seq. intros b _.
  rewrite length_jitter_row; rewrite ?length_linspace, ?length_map, ?length_seq; lia.
Qed.

Lemma composite_app (c1 c2 : tensor3) (s1 s2 d1 d2 : tensor2) :
  length c1 = length s1 -> length s1 = length d1 ->
  composite (c1 ++ c2) (s1 ++ s2) (d1 ++ d2)
  = composite c1 s1 d1 ++ composite c2 s2 d2.
Proof.
  intros Hc Hs. rewrite !composite_rows, combine_app_eq by assumption.
  apply map2_app. rewrite length_combine. lia.
Qed.

Lemma render_rays_raises
      (nerf_model : tensor2 -> tensor2 -> option (tensor2 * tensor1))
      (o d : tensor2) (hn hf : R) (nb_bins : nat) (rand : nat -> nat -> R) :
  nerf_model (concat (sample_points o d (sample_depths (length o) hn hf nb_bins rand)))
             (concat (expand_directions nb_bins d)) = None ->
  render_rays nerf_model o d hn hf nb_bins rand = None.
Proof. intros H. unfold render_rays. now rewrite H. Qed.

(** Rendering a batch made of two parts is rendering each part, the
    second with the draws of its own rays. *)
Lemma render_rays_app (self : NerfModel.t) (o1 o2 d1 d2 : tensor2) (hn hf : R)
      (nb_bins : nat) (rand : nat -> nat -> R) :
  rgb_head self ->
  length o1 = length d1 -> length o2 = length d2 ->
  render_rays (forward self) (o1 ++ o2) (d1 ++ d2) hn hf nb_bins rand
  = oapp (render_rays (forward self) o1 d1 hn hf nb_bins rand)
         (render_rays (forward self) o2 d2 hn hf nb_bins
                      (fun b => rand (length o1 + b)%nat)).
Proof.
  intros Hrgb Hl1 Hl2.
  set (n1 := length o1). set (n2 := length o2).
  set (rand2 := fun b => rand (n1 + b)%nat).
  set (t1 := sample_depths n1 hn hf nb_bins rand).
  set (t2 := sample_depths n2 hn hf nb_bins rand2).
  set (x1 := concat (sample_points o1 d1 t1)).
  set (x2 := concat (sample_points o2 d2 t2)).
  set (e1 := concat (expand_directions nb_bins d1)).
  set (e2 := concat (expand_directions nb_bins d2)).
  assert (Ht1 : length t1 = n1) by apply length_sample_depths.
  assert (Ht2 : length t2 = n2) by apply length_sample_depths.
  assert (Lx1 : length x1 = (n1 * nb_bins)%nat).
  { unfold x1. rewrite (length_sample_points o1 d1 t1 nb_bins); try lia.
    apply sample_depths_width. }
  assert (Lx2 : length x2 = (n2 * nb_bins)%nat).
  { unfold x2. rewrite (length_sample_points o2 d2 t2 nb_bins); try lia.
    apply sample_depths_width. }
  assert (Le1 : length e1 = (n1 * nb_bins)%nat).
  { unfold e1. rewrite length_expand_directions. lia. }
  assert (Hf : forward self (concat (sample_points (o1 ++ o2) (d1 ++ d2)
                   (sample_depths (length (o1 ++ o2)) hn hf nb_bins rand)))
                 (concat (expand_directions nb_bins (d1 ++ d2)))
               = join_outputs (forward self x1 e1) (forward self x2 e2)).
  { rewrite length_app, sample_depths_app. fold n1 n2 rand2 t1 t2.
    rewrite sample_points_app by lia. unfold expand_directions.
    rewrite map_app, !concat_app. apply forward_app. fold x1.
    fold (expand_directions nb_bins d1). fold e1. lia. }
  destruct (forward self x1 e1) as [[c1 s1]|] eqn:E1.
  2:{ rewrite (render_rays_raises _ (o1 ++ o2)) by (rewrite Hf; reflexivity).
      now rewrite (render_rays_raises _ o1) by exact E1. }
  destruct (forward self x2 e2) as [[c2 s2]|] eqn:E2.
  2:{ rewrite (render_rays_raises _ (o1 ++ o2)) by (rewrite Hf; reflexivity).
      rewrite (render_rays_raises _ o2) by exact E2.
      now destruct (render_rays _ o1 _ _ _ _ _). }
  simpl in Hf.
  destruct (forward_shape self x1 e1 c1 s1 Hrgb E1) as (Hc1 & Hs1 & Hw1).
  destruct (forward_shape self x2 e2 c2 s2 Hrgb E2) as (Hc2 & Hs2 & Hw2).
  rewrite (render_rays_composite _ (o1 ++ o2) (d1 ++ d2) hn hf nb_bins rand
             (c1 ++ c2) (s1 ++ s2) Hf).
  2:{ apply Forall_app. now split. }
  2:{ rewrite !length_app. fold n1 n2. lia. }
  2:{ rewrite !length_app. fold n1 n2. lia. }
  rewrite (render_rays_composite _ o1 d1 hn hf nb_bins rand c1 s1 E1 Hw1)
    by (fold n1; lia).
  rewrite (render_rays_composite _ o2 d2 hn hf nb_bins rand2 c2 s2 E2 Hw2)
    by (fold n2; lia).
  simpl oapp. f_equal.
  rewrite length_app. fold n1 n2 t1 t2.
  rewrite !unflatten_app by lia.
  rewrite sample_depths_app. fold rand2 t1 t2.
  rewrite (sample_deltas_app n1 n2 t1 t2 Ht1 Ht2).
  apply composite_app.
  - now rewrite !length_unflatten.
  - rewrite length_unflatten. unfold t1. now rewrite length_sample_deltas.
Qed.

End RenderFacts.

(** ** Chunked rendering *)

Module TestFacts.
Import NerfModel NerfModelFacts SamplerFacts CompositorFacts RenderFacts.

Lemma ceil_div_bounds (a b : nat) :
  (1 <= b)%nat -> (a <= ceil_div a b * b)%nat /\ (ceil_div a b * b < a + b)%nat.
Proof.
  intros Hb. unfold ceil_div.
  pose proof (Nat.div_mod_eq (a + b - 1) b) as E.
  pose proof (Nat.mod_upper_bound (a + b - 1) b ltac:(lia)) as Hr.
  split; nia.
Qed.

Lemma firstn_plus {A : Type} (a b : nat) (l : list A) :
  firstn (a + b) l = firstn a l ++ firstn b (skipn a l).
Proof.
  revert l; induction a as [|a IH]; intros [|x l]; simpl;
    rewrite ?firstn_nil; try reflexivity.
  now rewrite IH.
Qed.

Lemma firstn_next_chunk {A : Type} (k L : nat) (l : list A) :
  firstn ((k + 1) * L) l = firstn (k * L) l ++ slice (k * L) ((k + 1) * L) l.
Proof.
  unfold slice. replace ((k + 1) * L - k * L)%nat with L by lia.
  replace ((k + 1) * L)%nat with (k * L + L)%nat by lia.
  apply firstn_plus.
Qed.

(** The chunks, one after the other, are the rays of the image. *)
Lemma concat_chunks {A : Type} (k L : nat) (l : list A) :
  concat (map (fun i => slice (i * L) ((i + 1) * L) l) (seq 0 k)) = firstn (k * L) l.
Proof.
  induction k as [|k IH]; [reflexivity|].
  rewrite seq_S, map_app, concat_app, IH.
  replace (S k) with (k + 1)%nat by lia. rewrite firstn_next_chunk.
  cbn [map concat Nat.add]. now rewrite app_nil_r.
Qed.

Lemma sequential_nil (ls : list Layer) : sequential ls [] = Some [].
Proof. induction ls as [|[l| |] ls IH]; simpl; auto. Qed.

Lemma forward_nil (self : NerfModel.t) : forward self [] [] = Some ([], []).
Proof.
  rewrite forward_stages. unfold trunk, colour_head.
  rewrite !positional_encoding_rows. simpl.
  rewrite sequential_nil. simpl. rewrite sequential_nil. simpl.
  rewrite sequential_nil. simpl. now rewrite sequential_nil.
Qed.

Lemma render_rays_nil (self : NerfModel.t) (hn hf : R) (nb_bins : nat)
      (rand : nat -> nat -> R) :
  render_rays (forward self) [] [] hn hf nb_bins rand = Some [].
Proof.
  unfold render_rays. simpl. rewrite forward_nil. reflexivity.
Qed.

Section Chunks.
Variables (self : NerfModel.t) (o d : tensor2) (hn hf : R).
Variables (chunk_size nb_bins W : nat) (rand : nat -> nat -> R).
Hypothesis rgb : rgb_head self.
Hypothesis same_rays : length o = length d.

(** The draws of chunk [i]: those of its own rays. *)
Definition chunk_draws (i : nat) : nat -> nat -> R :=
  fun b => rand (i * W * chunk_size + b)%nat.

Lemma render_chunks_S (k : nat) :
  render_chunks self o d hn hf chunk_size nb_bins W chunk_draws (S k)
  = (data <- render_chunks self o d hn hf chunk_size nb_bins W chunk_draws k ;;
     px <- render_rays (forward self)
             (slice (k * W * chunk_size) ((k + 1) * W * chunk_size) o)
             (slice (k * W * chunk_size) ((k + 1) * W * chunk_size) d)
             hn hf nb_bins (chunk_draws k) ;;
     Some (data ++ [px])).
Proof.
  unfold render_chunks. rewrite seq_S, fold_left_app. reflexivity.
Qed.

Lemma render_chunks_length (k : nat) (data : list tensor2) :
  render_chunks self o d hn hf chunk_size nb_bins W chunk_draws k = Some data ->
  length data = k.
Proof.
  revert data; induction k as [|k IH]; intros data.
  - unfold render_chunks. simpl. intros E; now injection E as <-.
  - rewrite render_chunks_S.
    destruct (render_chunks _ _ _ _ _ _ _ _ _ k) as [data0|]; simpl; [|discriminate].
    destruct (render_rays _ _ _ _ _ _ _) as [px|]; simpl; [|discriminate].
    intros E; injection E as <-. rewrite length_app, (IH data0 eq_refl). simpl. lia.
Qed.

(** After [k] chunks the loop holds the rendering of the first
    [k * W * chunk_size] rays. *)
Lemma render_chunks_prefix (k : nat) :
  (forall j, (j < k)%nat -> (j * W * chunk_size <= length o)%nat) ->
  option_map (@concat tensor1)
             (render_chunks self o d hn hf chunk_size nb_bins W chunk_draws k)
  = render_rays (forward self)
                (firstn (k * W * chunk_size) o) (firstn (k * W * chunk_size) d)
                hn hf nb_bins rand.
Proof.
  induction k as [|k IH]; intros Hk.
  - unfold render_chunks. simpl. now rewrite render_rays_nil.
  - rewrite render_chunks_S.
    specialize (IH ltac:(intros j Hj; apply Hk; lia)).
    specialize (Hk k ltac:(lia)).
    replace (S k * W * chunk_size)%nat with ((k + 1) * (W * chunk_size))%nat by lia.
    rewrite !firstn_next_chunk.
    replace (k * (W * chunk_size))%nat with (k * W * chunk_size)%nat by lia.
    replace ((k + 1) * (W * chunk_size))%nat with ((k + 1) * W * chunk_size)%nat by lia.
    rewrite render_rays_app; auto.
    2:{ rewrite !length_firstn. lia. }
    2:{ unfold slice. rewrite !length_firstn, !length_skipn. lia. }
    rewrite <- IH.
    replace (length (firstn (k * W * chunk_size) o)) with (k * W * chunk_size)%nat
      by (rewrite length_firstn; lia).
    fold (chunk_draws k).
    destruct (render_chunks _ _ _ _ _ _ _ _ _ k) as [data|]; simpl; [|reflexivity].
    destruct (render_rays _ _ _ _ _ _ (chunk_draws k)) as [px|]; simpl; [|reflexivity].
    rewrite concat_app. simpl. now rewrite app_nil_r.
Qed.

End Chunks.

Lemma length_image_rows (dataset : tensor2) (img_index H W a b : nat) :
  ((img_index + 1) * H * W <= length dataset)%nat ->
  length (image_rows dataset img_index H W a b) = (H * W)%nat.
Proof.
  intros Hd. unfold image_rows, slice.
  rewrite length_map, length_firstn, length_skipn. nia.
Qed.

Lemma nth_image_rows (dataset : tensor2) (img_index H W a b r : nat) :
  ((img_index + 1) * H * W <= length dataset)%nat -> (r < H * W)%nat ->
  nth r (image_rows dataset img_index H W a b) []
  = slice a b (nth (img_index * H * W + r) dataset []).
Proof.
  intros Hd Hr. unfold image_rows.
  rewrite (nth_map_in _ _ _ []).
  2:{ unfold slice. rewrite length_firstn, length_skipn. nia. }
  f_equal. unfold slice. rewrite nth_firstn, nth_skipn.
  destruct (Nat.ltb_spec r ((img_index + 1) * H * W - img_index * H * W));
    [reflexivity|nia].
Qed.

(** C9. For an image that lies in the dataset, with at least one row and
    a positive chunk size: [test] selects the [H * W] rows of the image,
    cuts them in order into [ceil (H / chunk_size)] chunks of
    [chunk_size * W] rays (the last one possibly shorter), and the raster
    it assembles from the chunks is the one a single [render_rays] call
    on all rays gives with the same draws per ray and the same network;
    the two raise together. *)
Theorem test_image_chunked_equals_unchunked
    (model : NerfModel.t) (hn hf : R) (dataset : tensor2)
    (chunk_size img_index nb_bins H W : nat) (rand : nat -> nat -> R) :
  rgb_head model ->
  (1 <= chunk_size)%nat -> (1 <= H)%nat ->
  ((img_index + 1) * H * W <= length dataset)%nat ->
  let ray_origins := image_rows dataset img_index H W 0 3 in
  let ray_directions := image_rows dataset img_index H W 3 6 in
  let k := ceil_div H chunk_size in
  let chunk := fun (rays : tensor2) i =>
                 slice (i * W * chunk_size) ((i + 1) * W * chunk_size) rays in
  (length ray_origins = (H * W)%nat /\ length ray_directions = (H * W)%nat
   /\ forall r, (r < H * W)%nat ->
        nth r ray_origins [] = slice 0 3 (nth (img_index * H * W + r) dataset [])
        /\ nth r ray_directions []
           = slice 3 6 (nth (img_index * H * W + r) dataset []))
  /\ ((k - 1) * chunk_size < H <= k * chunk_size)%nat
  /\ (concat (map (chunk ray_origins) (seq 0 k)) = ray_origins
      /\ concat (map (chunk ray_directions) (seq 0 k)) = ray_directions
      /\ forall i, (S i < k)%nat ->
           length (chunk ray_origins i) = (chunk_size * W)%nat
           /\ length (chunk ray_directions i) = (chunk_size * W)%nat)
  /\ test_image model hn hf dataset chunk_size img_index nb_bins H W
                (fun i b => rand (i * W * chunk_size + b)%nat)
     = (px <- render_rays (forward model) ray_origins ray_directions
                          hn hf nb_bins rand ;;
        reshape3 H W 3 px).
Proof.
  intros Hrgb Hcs HH Hd ray_origins ray_directions k chunk.
  assert (Lo : length ray_origins = (H * W)%nat) by now apply length_image_rows.
  assert (Ld : length ray_directions = (H * W)%nat) by now apply length_image_rows.
  destruct (ceil_div_bounds H chunk_size Hcs) as [Hk1 Hk2]. fold k in Hk1, Hk2.
  assert (Hall : forall l : tensor2, length l = (H * W)%nat ->
                                     firstn (k * (W * chunk_size)) l = l).
  { intros l Hl. apply firstn_all2. rewrite Hl. nia. }
  assert (Hchunks : forall l : tensor2,
             map (chunk l) (seq 0 k)
             = map (fun i => slice (i * (W * chunk_size)) ((i + 1) * (W * chunk_size)) l)
                   (seq 0 k)).
  { intros l. apply map_ext. intros i. unfold chunk. f_equal; lia. }
  split; [|split; [|split]].
  - repeat split; auto; now apply nth_image_rows.
  - nia.
  - rewrite !Hchunks, !concat_chunks, !Hall by assumption.
    repeat split; auto; unfold chunk, slice;
      rewrite length_firstn, length_skipn; nia.
  - unfold test_image. destruct (Nat.eqb_spec chunk_size 0) as [E|_]; [lia|].
    fold ray_origins ray_directions k.
    pose proof (render_chunks_prefix model ray_origins ray_directions hn hf
                  chunk_size nb_bins W rand Hrgb ltac:(lia) k) as Hp.
    unfold chunk_draws in Hp.
    replace (k * W * chunk_size)%nat with (k * (W * chunk_size))%nat in Hp by lia.
    rewrite !Hall in Hp by assumption. rewrite <- Hp.
    2:{ intros j Hj. rewrite Lo.
        assert (Hj' : (j * chunk_size <= H)%nat) by nia.
        replace (j * W * chunk_size)%nat with (j * chunk_size * W)%nat by lia.
        now apply Nat.mul_le_mono_r. }
    destruct (render_chunks _ _ _ _ _ _ _ _ _ k) as [data|] eqn:E; simpl;
      [|reflexivity].
    apply render_chunks_length in E; [|lia].
    destruct data as [|px data]; [simpl in E; nia|]. reflexivity.
Qed.

Lemma test_image_chunked_equals_unchunked_witness :
  test_image (init 0 0 2 (1 / 2) 1) 2 6
             [[0; 0; 0; 0; 0; 1; 1; 1; 1]; [1; 0; 0; 0; 1; 0; 0; 0; 0]]
             1 0 2 2 1
             (fun i b => (fun (_ _ : nat) => 1 / 2) (i * 1 * 1 + b)%nat)
  = (px <- render_rays (forward (init 0 0 2 (1 / 2) 1))
             (image_rows [[0; 0; 0; 0; 0; 1; 1; 1; 1]; [1; 0; 0; 0; 1; 0; 0; 0; 0]]
                         0 2 1 0 3)
             (image_rows [[0; 0; 0; 0; 0; 1; 1; 1; 1]; [1; 0; 0; 0; 1; 0; 0; 0; 0]]
                         0 2 1 3 6)
             2 6 2 (fun _ _ => 1 / 2) ;;
     reshape3 2 1 3 px).
Proof.
  apply (test_image_chunked_equals_unchunked (init 0 0 2 (1 / 2) 1) 2 6
           [[0; 0; 0; 0; 0; 1; 1; 1; 1]; [1; 0; 0; 0; 1; 0; 0; 0; 0]]
           1 0 2 2 1 (fun _ _ => 1 / 2)).
  - apply rgb_head_init.
  - lia.
  - lia.
  - simpl. lia.
Defined.

(** On that input the chunked rendering does return a raster, of two rows
    of one pixel. *)
Example test_image_returns :
  exists p0 p1,
    test_image (init 0 0 1 (1 / 2) 1) 2 6
               [[0; 0; 0; 0; 0; 1; 1; 1; 1]; [1; 0; 0; 0; 1; 0; 0; 0; 0]]
               1 0 2 2 1 (fun _ _ _ => 1 / 2)
    = Some [[p0]; [p1]].
Proof. do 2 eexists. eval_lists. reflexivity. Qed.

End TestFacts.

(** ** The training loop *)

Module TrainFacts.

Section Loop.
Variables Opt Sched Grad : Type.
Variable noise : nat -> nat -> nat -> R.
Variable loader_batches : nat -> list (list (list R)).
Variable backward : NerfModel.t -> list (list R) -> (nat -> nat -> R) -> Grad.
Variable optimizer_step : Opt -> NerfModel.t -> Grad -> Opt * NerfModel.t.
Variable scheduler_step : Sched -> Opt -> Sched * Opt.
Variable savefig_ok : list (nat * list (list (list R))) -> nat -> bool.
Variable testing_dataset : list (list R).

#[local] Abbreviation world := (World Opt Sched).
#[local] Abbreviation result' := (result Opt Sched).
#[local] Abbreviation test' := (test noise savefig_ok).
#[local] Abbreviation evaluate' := (evaluate noise savefig_ok testing_dataset).
#[local] Abbreviation train_step' := (train_step noise backward optimizer_step).
#[local] Abbreviation train_batches' := (train_batches noise backward optimizer_step).
#[local] Abbreviation train_epochs' :=
  (train_epochs noise loader_batches backward optimizer_step scheduler_step).
#[local] Abbreviation train' :=
  (train noise loader_batches backward optimizer_step scheduler_step
         savefig_ok testing_dataset).

(** [w'] differs from [w] at most in the images written. *)
Definition same_optimization (w w' : world) : Prop :=
  model w' = model w /\ optimizer w' = optimizer w /\ scheduler w' = scheduler w.

Lemma test_returns (w w' : world) (rng rng' : nat) (hn hf : R) (dataset : tensor2)
      (chunk_size img_index nb_bins H W : nat) :
  test' w rng hn hf dataset chunk_size img_index nb_bins H W = Ok (w', rng') ->
  same_optimization w w'
  /\ map fst (novel_views w') = map fst (novel_views w) ++ [img_index]
  /\ rng' = (rng + ceil_div H chunk_size)%nat.
Proof.
  unfold test. destruct (test_image _ _ _ _ _ _ _ _ _ _) as [img|]; [|discriminate].
  destruct (savefig_ok _ _); [|discriminate].
  intros E; injection E as <- <-. unfold same_optimization. simpl.
  now rewrite map_app.
Qed.

Lemma test_raises (w w' : world) (rng : nat) (hn hf : R) (dataset : tensor2)
      (chunk_size img_index nb_bins H W : nat) (e : exn) :
  test' w rng hn hf dataset chunk_size img_index nb_bins H W = Raise e w' -> w' = w.
Proof.
  unfold test. destruct (test_image _ _ _ _ _ _ _ _ _ _) as [img|].
  - destruct (savefig_ok _ _); [discriminate|]. intros E; now injection E.
  - intros E; now injection E.
Qed.

Lemma evaluate_returns (indices : list nat) (w w' : world) (rng rng' : nat)
      (hn hf : R) (nb_bins H W : nat) :
  evaluate' indices w rng hn hf nb_bins H W = Ok (w', rng') ->
  same_optimization w w'
  /\ map fst (novel_views w') = map fst (novel_views w) ++ indices
  /\ rng' = (rng + length indices * ceil_div H default_chunk_size)%nat.
Proof.
  revert w rng; induction indices as [|i indices IH]; intros w rng;
    cbn [evaluate].
  - intros E; injection E as <- <-. unfold same_optimization.
    rewrite app_nil_r. cbn [length]. repeat split; lia.
  - destruct (test' w rng _ _ _ _ _ _ _ _) as [[w1 rng1]|e w1] eqn:Et; [|discriminate].
    intros E. apply test_returns in Et. apply IH in E.
    destruct Et as ((M1 & O1 & S1) & F1 & R1), E as ((M2 & O2 & S2) & F2 & R2).
    unfold same_optimization. rewrite F2, F1, <- app_assoc. cbn [length app].
    repeat split; try congruence. lia.
Qed.



Lemma train_step_views (w w' : world) (rng rng' : nat) (batch : tensor2)
      (hn hf : R) (nb_bins : nat) (loss : R) :
  train_step' w rng batch hn hf nb_bins = Ok (w', rng', loss) ->
  novel_views w' = novel_views w.
Proof.
  unfold train_step. destruct (render_rays _ _ _ _ _ _ _); [|discriminate].
  intros E; now injection E as <- _ _.
Qed.

Lemma train_batches_views (batches : list (list (list R))) (w w' : world)
      (rng rng' : nat) (L L' : list R) (hn hf : R) (nb_bins : nat) :
  train_batches' batches w rng L hn hf nb_bins = Ok (w', rng', L') ->
  novel_views w' = novel_views w.
Proof.
  revert w rng L; induction batches as [|b batches IH]; intros w rng L; simpl.
  - intros E; now injection E as <- _ _.
  - destruct (train_step' w rng b hn hf nb_bins) as [[[w1 rng1] loss]|e w1] eqn:Es;
      [|discriminate].
    intros E. apply IH in E. apply train_step_views in Es. congruence.
Qed.

Lemma concat_repeat_S {A : Type} (l : list A) (n : nat) :
  concat (repeat l (S n)) = l ++ concat (repeat l n).
Proof. reflexivity. Qed.

Lemma train_epochs_views (nb_epochs : nat) (w w' : world) (rng rng' : nat)
      (L L' : list R) (hn hf : R) (nb_bins H W : nat) :
  train_epochs' (fun w rng => evaluate' (seq 0 test_images) w rng hn hf nb_bins H W)
               nb_epochs w rng L hn hf nb_bins = Ok (w', rng', L') ->
  map fst (novel_views w')
  = map fst (novel_views w) ++ concat (repeat (seq 0 test_images) nb_epochs).
Proof.
  revert w rng L; induction nb_epochs as [|n IH]; intros w rng L.
  - simpl. intros E; injection E as <- _ _. now rewrite app_nil_r.
  - cbn [train_epochs].
    destruct (train_batches' _ w (S rng) L hn hf nb_bins)
      as [[[w1 rng1] L1]|e w1] eqn:Eb; [|discriminate].
    destruct (evaluate' _ _ rng1 hn hf nb_bins H W) as [[w3 rng3]|e w3] eqn:Ee;
      [|discriminate].
    intros E. apply IH in E. apply evaluate_returns in Ee.
    apply train_batches_views in Eb.
    destruct Ee as (_ & F & _). simpl in F. rewrite Eb in F.
    rewrite E, F, concat_repeat_S, app_assoc. reflexivity.
Qed.

(** The losses a call of [train] hands back, if it returns. *)
Definition returned_losses (r : result' (world * nat * list R)) : option (list R) :=
  match r with
  | Ok (_, _, L) => Some L
  | Raise _ _ => None
  end.

(** The reading of C7 as it is worded: the evaluation can be left out
    without a change to what the loop returns. *)
Definition evaluation_is_optional (w : world) (rng : nat) (hn hf : R)
    (nb_epochs nb_bins H W : nat) : Prop :=
  returned_losses (train' w rng hn hf nb_epochs nb_bins H W)
  = returned_losses
      (train_without_evaluation noise loader_batches backward optimizer_step
                                scheduler_step w rng hn hf nb_epochs nb_bins).

(** The number of calls of the random source a run makes: one per epoch
    for the shuffle, one per mini-batch, and one per chunk of every test
    image. *)
Lemma train_batches_calls (batches : list (list (list R))) (w w' : world)
      (rng rng' : nat) (L L' : list R) (hn hf : R) (nb_bins : nat) :
  train_batches' batches w rng L hn hf nb_bins = Ok (w', rng', L') ->
  (rng' + length L = rng + length L')%nat.
Proof.
  revert w rng L; induction batches as [|b batches IH]; intros w rng L;
    cbn [train_batches].
  - intros E; injection E as _ <- <-. lia.
  - destruct (train_step' w rng b hn hf nb_bins) as [[[w1 rng1] loss]|e w1] eqn:Es;
      [|discriminate].
    intros E. apply IH in E. rewrite length_app in E. simpl in E.
    unfold train_step in Es. destruct (render_rays _ _ _ _ _ _ _); [|discriminate].
    injection Es as _ <- _. lia.
Qed.

(** Two runs of the loop are split at any epoch. *)
Lemma train_epochs_add (after_epoch : world -> nat -> result' (world * nat))
      (k m : nat) (w : world) (rng : nat) (L : list R) (hn hf : R) (nb_bins : nat) :
  train_epochs' after_epoch (k + m) w rng L hn hf nb_bins
  = match train_epochs' after_epoch k w rng L hn hf nb_bins with
    | Raise e w' => Raise e w'
    | Ok (wk, rngk, Lk) => train_epochs' after_epoch m wk rngk Lk hn hf nb_bins
    end.
Proof.
  revert w rng L; induction k as [|k IH]; intros w rng L; [reflexivity|].
  cbn [Nat.add train_epochs].
  destruct (train_batches' _ w (S rng) L hn hf nb_bins) as [[[w1 rng1] L1]|e w1];
    [|reflexivity].
  destruct (after_epoch _ rng1) as [[w3 rng3]|e w3]; [|reflexivity].
  apply IH.
Qed.

(** A run that returns has returned after each of its first epochs. *)
Lemma train_epochs_prefix (after_epoch : world -> nat -> result' (world * nat))
      (k m : nat) (w w' : world) (rng rng' : nat) (L0 L : list R)
      (hn hf : R) (nb_bins : nat) :
  train_epochs' after_epoch (k + m) w rng L0 hn hf nb_bins = Ok (w', rng', L) ->
  exists wk rngk Lk,
    train_epochs' after_epoch k w rng L0 hn hf nb_bins = Ok (wk, rngk, Lk)
    /\ train_epochs' after_epoch m wk rngk Lk hn hf nb_bins = Ok (w', rng', L).
Proof.
  rewrite train_epochs_add.
  destruct (train_epochs' after_epoch k w rng L0 hn hf nb_bins)
    as [[[wk rngk] Lk]|e wk]; [|discriminate].
  intros E. now exists wk, rngk, Lk.
Qed.

(** Epoch [k + 1] of a run that returns: the mini-batches, the scheduler
    step, then the pass over the test images. *)
Lemma train_epoch_order (after_epoch : world -> nat -> result' (world * nat))
      (k nb_epochs : nat) (w w' : world) (rng rng' : nat) (L : list R)
      (hn hf : R) (nb_bins : nat) :
  train_epochs' after_epoch nb_epochs w rng [] hn hf nb_bins = Ok (w', rng', L) ->
  (k < nb_epochs)%nat ->
  exists wk rngk Lk w1 rng1 L1 w3 rng3,
    train_epochs' after_epoch k w rng [] hn hf nb_bins = Ok (wk, rngk, Lk)
    /\ train_batches' (loader_batches rngk) wk (S rngk) Lk hn hf nb_bins
       = Ok (w1, rng1, L1)
    /\ after_epoch
         (mkWorld (model w1)
                  (snd (scheduler_step (scheduler w1) (optimizer w1)))
                  (fst (scheduler_step (scheduler w1) (optimizer w1)))
                  (novel_views w1)) rng1
       = Ok (w3, rng3)
    /\ train_epochs' after_epoch (S k) w rng [] hn hf nb_bins = Ok (w3, rng3, L1).
Proof.
  intros E Hk.
  replace nb_epochs with (S k + (nb_epochs - S k))%nat in E by lia.
  apply train_epochs_prefix in E. destruct E as (w4 & rng4 & L4 & E & _).
  replace (S k) with (k + 1)%nat in E by lia.
  pose proof E as E1.
  apply train_epochs_prefix in E1. destruct E1 as (wk & rngk & Lk & Ek & E1).
  exists wk, rngk, Lk. cbn [train_epochs] in E1.
  destruct (train_batches' _ wk (S rngk) Lk hn hf nb_bins)
    as [[[w1 rng1] L1]|e w1] eqn:Eb; [|discriminate].
  destruct (after_epoch _ rng1) as [[w3 rng3]|e w3] eqn:Ee; [|discriminate].
  injection E1 as <- <- <-.
  exists w1, rng1, L1, w3, rng3. repeat split; try assumption.
  replace (S k) with (k + 1)%nat by lia. exact E.
Qed.

(** The images one pass over the test set writes: image [j] is the raster
    of [test_image] for the network as the pass found it, drawn from the
    calls [rng + j * ceil (H / 10)] onwards of the random source. *)
Lemma evaluate_images (indices : list nat) (w w' : world) (rng rng' : nat)
      (hn hf : R) (nb_bins H W : nat) :
  evaluate' indices w rng hn hf nb_bins H W = Ok (w', rng') ->
  exists imgs,
    length imgs = length indices
    /\ novel_views w' = novel_views w ++ combine indices imgs
    /\ forall j, (j < length indices)%nat ->
         test_image (model w) hn hf testing_dataset default_chunk_size
                    (nth j indices 0%nat) nb_bins H W
                    (fun c => noise (rng + j * ceil_div H default_chunk_size + c)%nat)
         = Some (nth j imgs []).
Proof.
  revert w rng; induction indices as [|i indices IH]; intros w rng;
    cbn [evaluate].
  - intros E; injection E as <- <-. exists []. rewrite app_nil_r.
    repeat split. intros j Hj. simpl in Hj. lia.
  - destruct (test' w rng _ _ _ _ _ _ _ _) as [[w1 rng1]|e w1] eqn:Et; [|discriminate].
    intros E. destruct (IH _ _ E) as (imgs & Hl & Hv & Hi). clear IH E.
    unfold test in Et. set (chunks := ceil_div H default_chunk_size) in *.
    destruct (test_image _ _ _ _ _ _ _ _ _ _) as [img|] eqn:Ei; [|discriminate].
    destruct (savefig_ok _ _); [|discriminate].
    injection Et as <- <-. cbn [novel_views model] in Hv, Hi.
    exists (img :: imgs). cbn [length combine]. split; [now rewrite Hl|]. split.
    + rewrite Hv, <- app_assoc. reflexivity.
    + intros [|j] Hj; cbn [nth]; cbn [length] in Hj.
      * rewrite <- Ei. f_equal. apply functional_extensionality. intros c.
        f_equal. lia.
      * rewrite <- (Hi j) by lia. f_equal. apply functional_extensionality.
        intros c. f_equal. lia.
Qed.

(** C7, as [train] implements it.  The evaluation is a fixed part of the
    loop, not a callback.  A run of [train] that returns has written the
    images [0 .. 199], in this order, once per epoch, and has taken from
    the random source that also feeds the training its
    [200 * ceil (H / 10)] calls per epoch.  Every epoch of such a run is
    the pass over the mini-batches, then the scheduler step, then the
    pass over the test images, and [train] goes on from what that pass
    leaves: the network of the mini-batches, the optimizer and the
    schedule of the scheduler step, and behind the images already written
    the 200 rasters [test_image] renders with that network and the next
    draws of the source.  A pass over the test images that returns leaves
    the network, the optimizer and the schedule as they were. *)
Theorem train_always_evaluates
    (w w' : world) (rng rng' : nat) (L : list R) (hn hf : R)
    (nb_epochs nb_bins H W : nat) :
  train noise loader_batches backward optimizer_step scheduler_step
        savefig_ok testing_dataset w rng hn hf nb_epochs nb_bins H W
  = Ok (w', rng', L) ->
  map fst (novel_views w')
  = map fst (novel_views w) ++ concat (repeat (seq 0 test_images) nb_epochs)
  /\ rng' = (rng + nb_epochs + length L
             + nb_epochs * (test_images * ceil_div H default_chunk_size))%nat
  /\ (forall k, (k < nb_epochs)%nat ->
      exists (wk w1 w3 : world) (rngk rng1 rng3 : nat) (Lk L1 : list R)
             (imgs : list (list (list (list R)))),
        train' w rng hn hf k nb_bins H W = Ok (wk, rngk, Lk)
        /\ train_batches' (loader_batches rngk) wk (S rngk) Lk hn hf nb_bins
           = Ok (w1, rng1, L1)
        /\ evaluate' (seq 0 test_images)
             (mkWorld (model w1)
                      (snd (scheduler_step (scheduler w1) (optimizer w1)))
                      (fst (scheduler_step (scheduler w1) (optimizer w1)))
                      (novel_views w1))
             rng1 hn hf nb_bins H W
           = Ok (w3, rng3)
        /\ train' w rng hn hf (S k) nb_bins H W = Ok (w3, rng3, L1)
        /\ model w3 = model w1
        /\ optimizer w3 = snd (scheduler_step (scheduler w1) (optimizer w1))
        /\ scheduler w3 = fst (scheduler_step (scheduler w1) (optimizer w1))
        /\ length imgs = test_images
        /\ novel_views w3 = novel_views w1 ++ combine (seq 0 test_images) imgs
        /\ forall img_index, (img_index < test_images)%nat ->
             test_image (model w1) hn hf testing_dataset default_chunk_size
                        img_index nb_bins H W
                        (fun c => noise (rng1
                                         + img_index * ceil_div H default_chunk_size
                                         + c)%nat)
             = Some (nth img_index imgs []))
  /\ forall (w0 w1 : world) (rng0 rng1 : nat),
       evaluate' (seq 0 test_images) w0 rng0 hn hf nb_bins H W = Ok (w1, rng1) ->
       same_optimization w0 w1.
Proof.
  intros E. split; [|split; [|split]].
  - now apply train_epochs_views in E.
  - unfold train in E.
    assert (G : forall n (w : world) rng L0,
               train_epochs'
                 (fun w rng => evaluate' (seq 0 test_images) w rng hn hf nb_bins H W)
                 n w rng L0 hn hf nb_bins = Ok (w', rng', L) ->
               (rng' + length L0
                = rng + n + length L
                  + n * (test_images * ceil_div H default_chunk_size))%nat).
    { clear. induction n as [|n IH]; intros w rng L0; cbn [train_epochs].
      - intros E; injection E as _ <- <-. lia.
      - destruct (train_batches' _ w (S rng) L0 hn hf nb_bins)
          as [[[w1 rng1] L1]|e w1] eqn:Eb; [|discriminate].
        destruct (evaluate' _ _ rng1 hn hf nb_bins H W) as [[w3 rng3]|e w3] eqn:Ee;
          [|discriminate].
        intros E. apply IH in E. apply evaluate_returns in Ee.
        apply train_batches_calls in Eb. destruct Ee as (_ & _ & Hr).
        rewrite length_seq in Hr. lia. }
    apply G in E. cbn [length] in E. lia.
  - intros k Hk. unfold train in *.
    destruct (train_epoch_order _ k _ _ _ _ _ _ _ _ _ E Hk)
      as (wk & rngk & Lk & w1 & rng1 & L1 & w3 & rng3 & Ek & Eb & Ee & Es).
    destruct (evaluate_images _ _ _ _ _ _ _ _ _ _ Ee) as (imgs & Hl & Hv & Hi).
    rewrite length_seq in Hl, Hi. cbn [novel_views model] in Hv, Hi.
    pose proof Ee as Ho. apply evaluate_returns in Ho. destruct Ho as ((M & O & S) & _).
    cbn [model optimizer scheduler] in M, O, S.
    exists wk, w1, w3, rngk, rng1, rng3, Lk, L1, imgs.
    repeat (split; [assumption|]).
    intros i Hi'. rewrite <- (Hi i Hi'). now rewrite seq_nth.
  - intros w0 w1 rng0 rng1 Ee. now apply evaluate_returns in Ee.
Qed.


(** *** The returned losses *)

(** One processed mini-batch: the objects and the generator as the step
    found them, and the batch. *)
Record Step := mkStep {
  step_world : world;
  step_rng : nat;
  step_batch : list (list R)
}.

(** The summed squared colour error of the mini-batch of a step, rendered
    with the network of that moment. *)
Definition step_loss (hn hf : R) (nb_bins : nat) (s : Step) : option R :=
  option_map
    (squared_error (map (skipn 6) (step_batch s)))
    (render_rays (NerfModel.forward (model (step_world s)))
                 (map (slice 0 3) (step_batch s)) (map (slice 3 6) (step_batch s))
                 hn hf nb_bins (noise (step_rng s))).

(** The mini-batches of one epoch in the order they are processed. *)
Fixpoint batch_history (batches : list (list (list R))) (w : world) (rng : nat)
    (hn hf : R) (nb_bins : nat) : list Step :=
  match batches with
  | [] => []
  | batch :: rest =>
      mkStep w rng batch
      :: match train_step' w rng batch hn hf nb_bins with
         | Ok (w', rng', _) => batch_history rest w' rng' hn hf nb_bins
         | Raise _ _ => []
         end
  end.

(** The mini-batches of a whole run, epoch after epoch. *)
Fixpoint history (after_epoch : world -> nat -> result' (world * nat))
    (nb_epochs : nat) (w : world) (rng : nat) (hn hf : R) (nb_bins : nat)
  : list Step :=
  match nb_epochs with
  | O => []
  | S remaining =>
      batch_history (loader_batches rng) w (S rng) hn hf nb_bins
      ++ match train_batches' (loader_batches rng) w (S rng) [] hn hf nb_bins with
         | Raise _ _ => []
         | Ok (w1, rng1, _) =>
             let stepped := scheduler_step (scheduler w1) (optimizer w1) in
             let w2 :=
               mkWorld (model w1) (snd stepped) (fst stepped) (novel_views w1) in
             match after_epoch w2 rng1 with
             | Raise _ _ => []
             | Ok (w3, rng3) => history after_epoch remaining w3 rng3 hn hf nb_bins
             end
         end
  end.

Lemma train_step_loss (w w' : world) (rng rng' : nat) (batch : list (list R))
      (hn hf : R) (nb_bins : nat) (loss : R) :
  train_step' w rng batch hn hf nb_bins = Ok (w', rng', loss) ->
  step_loss hn hf nb_bins (mkStep w rng batch) = Some loss.
Proof.
  unfold train_step, step_loss. simpl.
  destruct (render_rays _ _ _ _ _ _ _); [|discriminate].
  intros E; now injection E as _ _ <-.
Qed.

(** The list a loop hands on is the list it was given, followed by the
    losses of its own mini-batches. *)
Definition prepend_losses (L0 : list R) (r : result' (world * nat * list R))
  : result' (world * nat * list R) :=
  match r with
  | Ok (w', rng', L) => Ok (w', rng', L0 ++ L)
  | Raise e w' => Raise e w'
  end.

Lemma train_batches_acc (batches : list (list (list R))) (w : world) (rng : nat)
      (L0 L1 : list R) (hn hf : R) (nb_bins : nat) :
  train_batches' batches w rng (L0 ++ L1) hn hf nb_bins
  = prepend_losses L0 (train_batches' batches w rng L1 hn hf nb_bins).
Proof.
  revert w rng L1; induction batches as [|b batches IH]; intros w rng L1;
    cbn [train_batches].
  - reflexivity.
  - destruct (train_step' w rng b hn hf nb_bins) as [[[w1 rng1] loss]|e w1];
      [|reflexivity].
    rewrite <- app_assoc. apply IH.
Qed.

Lemma train_epochs_acc (after_epoch : world -> nat -> result' (world * nat))
      (n : nat) (w : world) (rng : nat) (L0 L1 : list R) (hn hf : R) (nb_bins : nat) :
  train_epochs' after_epoch n w rng (L0 ++ L1) hn hf nb_bins
  = prepend_losses L0 (train_epochs' after_epoch n w rng L1 hn hf nb_bins).
Proof.
  revert w rng L1; induction n as [|n IH]; intros w rng L1; cbn [train_epochs].
  - reflexivity.
  - rewrite train_batches_acc.
    destruct (train_batches' _ w (S rng) L1 hn hf nb_bins) as [[[w1 rng1] L]|e w1];
      [|reflexivity].
    cbn [prepend_losses].
    destruct (after_epoch _ rng1) as [[w3 rng3]|e w3]; [|reflexivity].
    apply IH.
Qed.

Lemma train_batches_history (batches : list (list (list R))) (w w' : world)
      (rng rng' : nat) (ls : list R) (hn hf : R) (nb_bins : nat) :
  train_batches' batches w rng [] hn hf nb_bins = Ok (w', rng', ls) ->
  Forall2 (fun s l => step_loss hn hf nb_bins s = Some l)
          (batch_history batches w rng hn hf nb_bins) ls
  /\ map step_batch (batch_history batches w rng hn hf nb_bins) = batches.
Proof.
  revert w rng ls; induction batches as [|b batches IH]; intros w rng ls;
    cbn [train_batches batch_history].
  - intros E; injection E as _ _ <-. split; constructor.
  - destruct (train_step' w rng b hn hf nb_bins) as [[[w1 rng1] loss]|e w1] eqn:Es;
      [|discriminate].
    rewrite (train_batches_acc batches w1 rng1 [loss] []).
    destruct (train_batches' batches w1 rng1 [] hn hf nb_bins)
      as [[[w2 rng2] L2]|e w2] eqn:E1; [|discriminate].
    cbn [prepend_losses]. intros E; injection E as <- <- <-.
    destruct (IH _ _ _ E1) as [HF HB]. split.
    + constructor; [now apply train_step_loss with w1 rng1|assumption].
    + cbn [map step_batch]. now rewrite HB.
Qed.

Lemma train_epochs_history (after_epoch : world -> nat -> result' (world * nat))
      (n : nat) (w w' : world) (rng rng' : nat) (L : list R)
      (hn hf : R) (nb_bins : nat) :
  train_epochs' after_epoch n w rng [] hn hf nb_bins = Ok (w', rng', L) ->
  Forall2 (fun s l => step_loss hn hf nb_bins s = Some l)
          (history after_epoch n w rng hn hf nb_bins) L.
Proof.
  revert w rng L; induction n as [|n IH]; intros w rng L;
    cbn [train_epochs history].
  - intros E; injection E as _ _ <-. constructor.
  - destruct (train_batches' _ w (S rng) [] hn hf nb_bins)
      as [[[w1 rng1] L1]|e w1] eqn:Eb; [|discriminate].
    destruct (after_epoch _ rng1) as [[w3 rng3]|e w3]; [|discriminate].
    rewrite <- (app_nil_r L1) at 1. rewrite train_epochs_acc.
    destruct (train_epochs' after_epoch n w3 rng3 [] hn hf nb_bins)
      as [[[w4 rng4] L4]|e w4] eqn:En; [|discriminate].
    cbn [prepend_losses]. intros E; injection E as <- <- <-.
    apply Forall2_app.
    + now apply train_batches_history in Eb.
    + now apply IH.
Qed.

End Loop.

Arguments same_optimization {Opt Sched}.
Arguments returned_losses {Opt Sched}.
Arguments evaluation_is_optional {Opt Sched Grad}.
Arguments step_loss {Opt Sched}.
Arguments batch_history {Opt Sched Grad}.
Arguments history {Opt Sched Grad}.
Arguments step_world {Opt Sched} s.
Arguments step_rng {Opt Sched} s.
Arguments step_batch {Opt Sched} s.
Arguments mkStep {Opt Sched}.

(** *** A small run *)

(** One mini-batch of one ray per epoch, draws fixed at [1/2], an
    optimizer and a gradient that leave the network as it is, a schedule
    that counts the epochs, and the network of [__init__] with
    [output_dim = 1]. *)
Definition demo_noise : nat -> nat -> nat -> R := fun _ _ _ => 1 / 2.
Definition demo_loader : nat -> list (list (list R)) :=
  fun _ => [[[0; 0; 0; 0; 0; 1; 1; 1; 1]]].
Definition demo_backward : NerfModel.t -> list (list R) -> (nat -> nat -> R) -> unit :=
  fun _ _ _ => tt.
Definition demo_optimizer_step : unit -> NerfModel.t -> unit -> unit * NerfModel.t :=
  fun o m _ => (o, m).
Definition demo_scheduler_step : nat -> unit -> nat * unit := fun s o => (S s, o).
Definition demo_model : NerfModel.t := NerfModel.init 0 0 1 (1 / 2) 1.
Definition demo_world : World unit nat := mkWorld demo_model tt 0%nat [].
Definition demo_testing_dataset : list (list R) :=
  repeat [0; 0; 0; 0; 0; 1; 1; 1; 1] 200.
Definition always (b : bool) : list (nat * list (list (list R))) -> nat -> bool :=
  fun _ _ => b.

Abbreviation demo_train savefig_ok testing_dataset nb_epochs :=
  (train demo_noise demo_loader demo_backward demo_optimizer_step
         demo_scheduler_step savefig_ok testing_dataset
         demo_world 0 2 6 nb_epochs 1 1 1).

Import NerfModelFacts.

(** With a single image in the test set, the [test] call for image 1
    cannot shape its raster and [train] raises at the end of the first
    epoch; the loop without the evaluation returns the two losses. *)
Lemma evaluation_is_optional_counterexample :
  ~ evaluation_is_optional demo_noise demo_loader demo_backward
      demo_optimizer_step demo_scheduler_step (always true)
      [[0; 0; 0; 0; 0; 1; 1; 1; 1]]
      demo_world 0 2 6 2 1 1 1.
Proof.
  unfold evaluation_is_optional. eval_lists. discriminate.
Qed.

Example evaluation_raises_without_image :
  returned_losses
    (train demo_noise demo_loader demo_backward demo_optimizer_step
           demo_scheduler_step (always true) [[0; 0; 0; 0; 0; 1; 1; 1; 1]]
           demo_world 0 2 6 2 1 1 1) = None
  /\ exists l1 l2,
       returned_losses
         (train_without_evaluation demo_noise demo_loader demo_backward
            demo_optimizer_step demo_scheduler_step demo_world 0 2 6 2 1)
       = Some [l1; l2].
Proof.
  split; [eval_lists; reflexivity|]. do 2 eexists. eval_lists. reflexivity.
Qed.


Lemma train_always_evaluates_witness :
  exists w' rng' L,
    demo_train (always true) demo_testing_dataset 1 = Ok (w', rng', L)
    /\ map fst (novel_views w')
       = map fst (novel_views demo_world) ++ concat (repeat (seq 0 test_images) 1)
    /\ rng' = (0 + 1 + length L
               + 1 * (test_images * ceil_div 1 default_chunk_size))%nat
    /\ exists imgs,
         length imgs = test_images
         /\ novel_views w' = combine (seq 0 test_images) imgs
         /\ forall img_index, (img_index < test_images)%nat ->
              test_image demo_model 2 6 demo_testing_dataset default_chunk_size
                         img_index 1 1 1
                         (fun c =>
                            demo_noise
                              (2 + img_index * ceil_div 1 default_chunk_size
                               + c)%nat)
              = Some (nth img_index imgs []).
Proof.
  assert (E : exists w' rng' L,
             demo_train (always true) demo_testing_dataset 1 = Ok (w', rng', L)).
  { do 3 eexists. eval_lists. reflexivity. }
  destruct E as (w' & rng' & L & E). exists w', rng', L.
  split; [exact E|].
  pose proof (train_always_evaluates _ _ _ _ _ _ _ _ _ _ _ _ _ _ _ _ _ _ _ _ _ E)
    as (H1 & H2 & H3 & _).
  split; [exact H1|]. split; [exact H2|].
  destruct (H3 0%nat ltac:(lia))
    as (wk & w1 & w3 & rngk & rng1 & rng3 & Lk & L1 & imgs
        & Ek & Eb & Ee & Es & _ & _ & _ & Hl & Hv & Hi).
  rewrite E in Es. injection Es as <- _ _.
  cbn [train train_epochs] in Ek. injection Ek as <- <- <-.
  assert (Eb' : w1 = demo_world /\ rng1 = 2%nat).
  { revert Eb. eval_lists. intros Eb. injection Eb as <- <- _. split; reflexivity. }
  destruct Eb' as [-> ->].
  exists imgs. split; [exact Hl|]. split; [exact Hv|exact Hi].
Defined.


End TrainFacts.

(** ** The network that [__init__] builds *)

Module NetworkFacts.
Import NerfModel NerfModelFacts.

(** [accepts ls i o]: on every batch of [i]-wide rows the stack [ls]
    returns a batch of as many [o]-wide rows. *)
Definition accepts (ls : list Layer) (i o : nat) : Prop :=
  forall x, has_width i x ->
    exists y, sequential ls x = Some y /\ length y = length x /\ has_width o y.

Lemma has_width_forallb (n : nat) (x : tensor2) :
  has_width n x <-> forallb (fun r => Nat.eqb (length r) n) x = true.
Proof.
  unfold has_width. rewrite forallb_forall, Forall_forall.
  split; intros H r Hr; specialize (H r Hr); now apply Nat.eqb_eq.
Qed.

Lemma has_width_map_map (f : R -> R) (n : nat) (x : tensor2) :
  has_width n x -> has_width n (map (map f) x).
Proof.
  unfold has_width. rewrite Forall_map. apply Forall_impl.
  intros r Hr. now rewrite length_map.
Qed.

Lemma linear_row_new_linear (i o : nat) (w : nat -> nat -> R) (b : nat -> R)
      (r : tensor1) :
  length (linear_row (new_linear i o w b) r) = o.
Proof.
  unfold linear_row, new_linear. simpl.
  rewrite map2_length, !length_map, length_seq. lia.
Qed.

Lemma accepts_nil (i : nat) : accepts [] i i.
Proof. intros x Hx. exists x. auto. Qed.

Lemma accepts_linear (i m o : nat) (w : nat -> nat -> R) (b : nat -> R)
      (ls : list Layer) :
  accepts ls m o -> accepts (LinearL (new_linear i m w b) :: ls) i o.
Proof.
  intros Hls x Hx. cbn [sequential layer]. unfold linear.
  change (in_features (new_linear i m w b)) with i.
  apply has_width_forallb in Hx. rewrite Hx. cbn [obind].
  destruct (Hls (map (linear_row (new_linear i m w b)) x)) as (y & E & Hl & Hw).
  { unfold has_width. rewrite Forall_map. apply Forall_forall. intros r _.
    apply linear_row_new_linear. }
  exists y. rewrite length_map in Hl. auto.
Qed.

Lemma accepts_relu (i o : nat) (ls : list Layer) :
  accepts ls i o -> accepts (ReLU :: ls) i o.
Proof.
  intros Hls x Hx. cbn [sequential layer obind].
  destruct (Hls (map (map relu) x)) as (y & E & Hl & Hw).
  { now apply has_width_map_map. }
  exists y. rewrite length_map in Hl. auto.
Qed.

Lemma accepts_sigmoid (i o : nat) (ls : list Layer) :
  accepts ls i o -> accepts (Sigmoid :: ls) i o.
Proof.
  intros Hls x Hx. cbn [sequential layer obind].
  destruct (Hls (map (map sigmoid) x)) as (y & E & Hl & Hw).
  { now apply has_width_map_map. }
  exists y. rewrite length_map in Hl. auto.
Qed.

Ltac stack :=
  repeat first [apply accepts_linear | apply accepts_relu | apply accepts_sigmoid
               | apply accepts_nil].

Section Built.
Variables (w : nat -> nat -> nat -> R) (b : nat -> nat -> R).
Variables (Lx Ld W : nat).

Let self := init_with w b Lx Ld W.

Lemma block1_accepts : accepts (block1 self) (Lx * 3 * 2 + 3) W.
Proof. unfold self, init_with; cbn [block1]. stack. Qed.

Lemma block2_accepts : accepts (block2 self) (Lx * 3 * 2 + W + 3) (W + 1).
Proof. unfold self, init_with; cbn [block2]. stack. Qed.

Lemma block3_accepts : accepts (block3 self) (Ld * 2 * 3 + W + 3) (W / 2).
Proof. unfold self, init_with; cbn [block3]. stack. Qed.

Lemma block4_accepts : accepts (block4 self) (W / 2) 3.
Proof. unfold self, init_with; cbn [block4]. stack. Qed.

End Built.

Lemma rgb_head_init_with (w : nat -> nat -> nat -> R) (b : nat -> nat -> R)
      (Lx Ld W : nat) :
  rgb_head (init_with w b Lx Ld W).
Proof.
  exists (new_linear (W / 2) 3 (w 9%nat) (b 9%nat)).
  split; [reflexivity|].
  split; unfold new_linear; cbn [weight bias]; now rewrite length_map, length_seq.
Qed.

(** The network with constant parameters is one of those [__init__] can
    build. *)
Lemma init_constant (Lx Ld W : nat) (w b : R) :
  init Lx Ld W w b = init_with (fun _ _ _ => w) (fun _ _ => b) Lx Ld W.
Proof.
  assert (H : forall i o, constant_linear i o w b
                          = new_linear i o (fun _ _ => w) (fun _ => b)).
  { intros i o. unfold constant_linear, new_linear.
    assert (Hr : forall (A : Type) (v : A) n s, repeat v n = map (fun _ => v) (seq s n)).
    { intros A v n. induction n as [|n IH]; intros s; simpl; [reflexivity|].
      now rewrite <- IH. }
    now rewrite <- !Hr. }
  unfold init, init_with. now rewrite !H.
Qed.

Lemma has_width_encoding (k : nat) (x : tensor2) (L : nat) :
  has_width k x -> has_width (k * (1 + 2 * L)) (positional_encoding x L).
Proof.
  intros Hx. rewrite positional_encoding_rows. unfold has_width in *.
  rewrite Forall_map. eapply Forall_impl; [|exact Hx].
  intros r Hr; simpl in Hr. now rewrite encode_row_length, Hr.
Qed.

Lemma has_width_cat (n m : nat) (a b : tensor2) :
  has_width n a -> has_width m b -> has_width (n + m) (map2 (@app R) a b).
Proof.
  intros Ha; revert b; induction Ha as [|r a Hr _ IH]; intros b Hb.
  - constructor.
  - destruct Hb as [|s b Hs Hb]; [constructor|]. cbn [map2]. constructor.
    + rewrite length_app. lia.
    + now apply IH.
Qed.

Lemma has_width_cat_inv (n m : nat) (a b : tensor2) :
  length a = length b ->
  has_width n a -> has_width (n + m) (map2 (@app R) a b) -> has_width m b.
Proof.
  revert b; induction a as [|r a IH]; intros [|s b] E Ha Hc; try discriminate.
  - constructor.
  - cbn [map2] in Hc. inversion Ha; subst. inversion Hc; subst.
    constructor.
    + rewrite length_app in *. lia.
    + apply IH; auto.
Qed.

Lemma has_width_removelast (n : nat) (x : tensor2) :
  has_width (n + 1) x -> has_width n (map (@removelast R) x).
Proof.
  unfold has_width. rewrite Forall_map. apply Forall_impl.
  intros r Hr. rewrite length_removelast. lia.
Qed.

Lemma last_column_returns (n : nat) (x : tensor2) :
  has_width (n + 1) x -> exists col, last_column x = Some col.
Proof.
  intros Hx. unfold last_column.
  assert (E : forallb (fun r => negb (Nat.eqb (length r) 0)) x = true).
  { apply forallb_forall. intros r Hr. unfold has_width in Hx.
    rewrite Forall_forall in Hx. specialize (Hx r Hr).
    destruct (Nat.eqb_spec (length r) 0); [lia|reflexivity]. }
  rewrite E. eauto.
Qed.

Lemma sequential_in_width (l : Linear) (ls : list Layer) (x y : tensor2) :
  sequential (LinearL l :: ls) x = Some y -> has_width (in_features l) x.
Proof.
  cbn [sequential layer]. unfold linear.
  destruct (forallb _ x) eqn:E; [|discriminate]. intros _.
  now apply has_width_forallb.
Qed.

Lemma has_width_encoding_inv (k : nat) (x : tensor2) (L : nat) :
  has_width (k * (1 + 2 * L)) (positional_encoding x L) -> has_width k x.
Proof.
  rewrite positional_encoding_rows. unfold has_width. rewrite Forall_map.
  apply Forall_impl. intros r Hr. rewrite encode_row_length in Hr. nia.
Qed.

(** The lengths of what [forward] takes and returns, whatever the
    layers. *)
Lemma forward_lengths (self : NerfModel.t) (o d c : tensor2) (sigma : tensor1) :
  forward self o d = Some (c, sigma) ->
  length c = length o /\ length sigma = length o /\ length d = length o.
Proof.
  rewrite forward_stages.
  destruct (trunk self o) as [tmp|] eqn:E1; simpl; [|discriminate].
  destruct (last_column tmp) as [col|] eqn:E2; simpl; [|discriminate].
  destruct (colour_head self _ d) as [g|] eqn:E3; simpl; [|discriminate].
  intros E; injection E as <- <-.
  apply trunk_length in E1. apply last_column_length in E2.
  unfold colour_head in E3.
  destruct (cat2_dim1 _ _) as [fd|] eqn:E4; simpl in E3; [|discriminate].
  destruct (sequential (block3 self) fd) as [h|] eqn:E5; simpl in E3; [|discriminate].
  apply cat2_dim1_length in E4. apply sequential_length in E5, E3.
  rewrite length_map, length_positional_encoding in E4.
  rewrite length_map. lia.
Qed.

(** On well-shaped input the layers of [__init__] fit one another: the
    call returns. *)
Lemma forward_init_some
    (w : nat -> nat -> nat -> R) (b : nat -> nat -> R) (Lx Ld W : nat)
    (o d : tensor2) :
  has_width 3 o -> has_width 3 d -> length o = length d ->
  exists c sigma, forward (init_with w b Lx Ld W) o d = Some (c, sigma).
Proof.
  intros Ho Hd Hl.
  unfold forward.
  change (posEncCoord_dim (init_with w b Lx Ld W)) with Lx.
  change (posEncDirection_dim (init_with w b Lx Ld W)) with Ld.
  pose proof (has_width_encoding 3 o Lx Ho) as Hx.
  pose proof (has_width_encoding 3 d Ld Hd) as Hdd.
  replace (3 * (1 + 2 * Lx))%nat with (Lx * 3 * 2 + 3)%nat in Hx by lia.
  replace (3 * (1 + 2 * Ld))%nat with (Ld * 2 * 3 + 3)%nat in Hdd by lia.
  destruct (block1_accepts w b Lx Ld W _ Hx) as (f1 & E1 & L1 & W1).
  rewrite E1. cbn [obind]. unfold cat2_dim1.
  rewrite L1, Nat.eqb_refl. cbn [obind].
  pose proof (has_width_cat _ _ _ _ W1 Hx) as Hfx.
  replace (W + (Lx * 3 * 2 + 3))%nat with (Lx * 3 * 2 + W + 3)%nat in Hfx by lia.
  destruct (block2_accepts w b Lx Ld W _ Hfx) as (tmp & E2 & L2 & W2).
  rewrite E2. cbn [obind].
  destruct (last_column_returns W tmp W2) as (col & Ec). rewrite Ec. cbn [obind].
  rewrite map2_length, L1, Nat.min_id, length_positional_encoding in L2.
  rewrite length_map, L2, length_positional_encoding, Hl, Nat.eqb_refl.
  cbn [obind].
  pose proof (has_width_cat _ _ _ _ (has_width_removelast W tmp W2) Hdd) as Hfd.
  replace (W + (Ld * 2 * 3 + 3))%nat with (Ld * 2 * 3 + W + 3)%nat in Hfd by lia.
  destruct (block3_accepts w b Lx Ld W _ Hfd) as (f3 & E3 & L3 & W3).
  rewrite E3. cbn [obind].
  destruct (block4_accepts w b Lx Ld W _ W3) as (c & E4 & L4 & W4).
  rewrite E4. cbn [obind]. eauto.
Qed.



(** The shapes a call that returns was given. *)
Lemma forward_init_shapes
    (w : nat -> nat -> nat -> R) (b : nat -> nat -> R) (Lx Ld W : nat)
    (o d c : tensor2) (sigma : tensor1) :
  forward (init_with w b Lx Ld W) o d = Some (c, sigma) ->
  has_width 3 o /\ has_width 3 d /\ length o = length d.
Proof.
  intros E. destruct (forward_lengths _ _ _ _ _ E) as (_ & _ & Hl).
  revert E. unfold forward.
  change (posEncCoord_dim (init_with w b Lx Ld W)) with Lx.
  change (posEncDirection_dim (init_with w b Lx Ld W)) with Ld.
  destruct (sequential (block1 _) _) as [f1|] eqn:E1; cbn [obind]; [|discriminate].
  assert (Ho : has_width 3 o).
  { apply (has_width_encoding_inv 3 o Lx).
    replace (3 * (1 + 2 * Lx))%nat with (Lx * 3 * 2 + 3)%nat by lia.
    exact (sequential_in_width _ _ _ _ E1). }
  pose proof (has_width_encoding 3 o Lx Ho) as Hx.
  replace (3 * (1 + 2 * Lx))%nat with (Lx * 3 * 2 + 3)%nat in Hx by lia.
  destruct (block1_accepts w b Lx Ld W _ Hx) as (f1' & E1' & L1 & W1).
  rewrite E1 in E1'. injection E1' as <-.
  unfold cat2_dim1 at 1. rewrite L1, Nat.eqb_refl. cbn [obind].
  pose proof (has_width_cat _ _ _ _ W1 Hx) as Hfx.
  replace (W + (Lx * 3 * 2 + 3))%nat with (Lx * 3 * 2 + W + 3)%nat in Hfx by lia.
  destruct (block2_accepts w b Lx Ld W _ Hfx) as (tmp & E2 & L2 & W2).
  rewrite E2. cbn [obind].
  destruct (last_column tmp) as [col|]; cbn [obind]; [|discriminate].
  destruct (cat2_dim1 _ _) as [fd|] eqn:E4; cbn [obind]; [|discriminate].
  destruct (sequential (block3 _) fd) as [f3|] eqn:E3; cbn [obind]; [|discriminate].
  intros _. split; [exact Ho|]. split; [|lia].
  unfold cat2_dim1 in E4.
  destruct (Nat.eqb_spec (length (map (@removelast R) tmp))
                         (length (positional_encoding d Ld))) as [El|]; [|discriminate].
  injection E4 as <-.
  apply sequential_in_width in E3.
  change (in_features _) with (Ld * 2 * 3 + W + 3)%nat in E3.
  apply (has_width_encoding_inv 3 d Ld).
  apply (has_width_cat_inv W _ (map (@removelast R) tmp)); [exact El| |].
  - now apply has_width_removelast.
  - replace (W + 3 * (1 + 2 * Ld))%nat with (Ld * 2 * 3 + W + 3)%nat by lia.
    exact E3.
Qed.

(** X2. On every other input the network that [__init__] builds raises:
    when a position row or a direction row has not three components, or
    when the two batches differ in their number of rows, no layer
    broadcasts and [forward] returns nothing. *)
Theorem forward_init_raises_on_shape
    (w : nat -> nat -> nat -> R) (b : nat -> nat -> R) (Lx Ld W : nat)
    (o d : tensor2) :
  ~ (has_width 3 o /\ has_width 3 d /\ length o = length d) ->
  forward (init_with w b Lx Ld W) o d = None.
Proof.
  intros H. destruct (forward _ o d) as [[c sigma]|] eqn:E; [|reflexivity].
  exfalso. apply H. now apply forward_init_shapes in E.
Qed.

Lemma forward_init_raises_on_shape_witness :
  forward (init_with (fun _ _ _ => 1) (fun _ _ => 0) 2 1 4)
          [[0; 0; 0]; [1; 0; 0]] [[0; 0; 1]] = None.
Proof.
  apply (forward_init_raises_on_shape (fun _ _ _ => 1) (fun _ _ => 0) 2 1 4
           [[0; 0; 0]; [1; 0; 0]] [[0; 0; 1]]).
  intros (_ & _ & H). discriminate H.
Defined.

(** X3. [forward] treats the rows of a batch separately, whatever the
    layers: when a call on a batch returns, row [b] of its colours and of
    its densities is what the call on the one-row batch of position [b]
    and direction [b] returns. *)
Theorem forward_row_by_row
    (self : NerfModel.t) (o d c : tensor2) (sigma : tensor1) (b : nat) :
  forward self o d = Some (c, sigma) -> (b < length o)%nat ->
  forward self [nth b o []] [nth b d []] = Some ([nth b c []], [nth b sigma 0]).
Proof.
  revert d c sigma b. induction o as [|x o IH]; intros d c sigma b E Hb;
    [simpl in Hb; lia|].
  destruct (forward_lengths _ _ _ _ _ E) as (_ & _ & Hl).
  destruct d as [|y d]; [discriminate|].
  change (x :: o) with ([x] ++ o) in E. change (y :: d) with ([y] ++ d) in E.
  rewrite forward_app in E by reflexivity.
  destruct (forward self [x] [y]) as [[c1 s1]|] eqn:E1; [|discriminate].
  destruct (forward self o d) as [[c2 s2]|] eqn:E2; [|discriminate].
  cbn [join_outputs] in E. injection E as <- <-.
  destruct (forward_lengths _ _ _ _ _ E1) as (Hc1 & Hs1 & _).
  destruct c1 as [|e [|? ?]]; try discriminate.
  destruct s1 as [|s [|? ?]]; try discriminate.
  destruct b as [|b]; cbn [nth app].
  - exact E1.
  - apply IH; [exact E2|simpl in Hb; lia].
Qed.

Lemma forward_row_by_row_witness :
  exists c sigma,
    forward (init 0 0 1 (1 / 2) 1) [[0; 0; 0]; [1; 0; 0]] [[0; 0; 1]; [0; 1; 0]]
    = Some (c, sigma)
    /\ forward (init 0 0 1 (1 / 2) 1) [[1; 0; 0]] [[0; 1; 0]]
       = Some ([nth 1 c []], [nth 1 sigma 0]).
Proof.
  destruct (forward (init 0 0 1 (1 / 2) 1) [[0; 0; 0]; [1; 0; 0]]
                    [[0; 0; 1]; [0; 1; 0]]) as [[c sigma]|] eqn:E.
  - exists c, sigma. split; [reflexivity|].
    apply (forward_row_by_row (init 0 0 1 (1 / 2) 1)
             [[0; 0; 0]; [1; 0; 0]] [[0; 0; 1]; [0; 1; 0]] c sigma 1 E).
    simpl. lia.
  - exfalso. revert E. eval_lists. discriminate.
Defined.

End NetworkFacts.

(** ** The layout of the encoding *)

Module EncodingFacts.
Import NerfModel NerfModelFacts.

Lemma encode_row_S (L : nat) (r : tensor1) :
  encode_row (S L) r
  = encode_row L r ++ map (fun v => sin (2 ^ L * v)) r
                   ++ map (fun v => cos (2 ^ L * v)) r.
Proof.
  unfold encode_row. rewrite seq_S, flat_map_app. cbn [flat_map Nat.add].
  now rewrite app_nil_r, app_assoc.
Qed.

Lemma nth_encode_row_prefix (L : nat) (r : tensor1) (k : nat) :
  (k < length r)%nat -> nth k (encode_row L r) 0 = nth k r 0.
Proof. intros Hk. unfold encode_row. now rewrite app_nth1. Qed.

Lemma nth_encode_row_sin_cos (L : nat) (r : tensor1) (j k : nat) :
  (j < L)%nat -> (k < length r)%nat ->
  nth (length r * (1 + 2 * j) + k) (encode_row L r) 0 = sin (2 ^ j * nth k r 0)
  /\ nth (length r * (2 + 2 * j) + k) (encode_row L r) 0 = cos (2 ^ j * nth k r 0).
Proof.
  intros Hj Hk. induction L as [|L IH]; [lia|].
  rewrite encode_row_S.
  destruct (Nat.eq_dec j L) as [->|Hne].
  - split.
    + rewrite app_nth2 by (rewrite encode_row_length; lia).
      rewrite encode_row_length.
      replace (length r * (1 + 2 * L) + k - length r * (1 + 2 * L))%nat with k by lia.
      rewrite app_nth1 by now rewrite length_map.
      now rewrite (nth_map_in _ _ _ 0).
    + rewrite app_nth2 by (rewrite encode_row_length; lia).
      rewrite encode_row_length.
      replace (length r * (2 + 2 * L) + k - length r * (1 + 2 * L))%nat
        with (length r + k)%nat by lia.
      rewrite app_nth2 by (rewrite length_map; lia).
      rewrite length_map.
      replace (length r + k - length r)%nat with k by lia.
      now rewrite (nth_map_in _ _ _ 0).
  - destruct (IH ltac:(lia)) as [Hs Hc].
    split; (rewrite app_nth1 by (rewrite encode_row_length; nia)); assumption.
Qed.

(** X4. The layout of the encoding.  The encoding has one row per input
    row; a row of [k] components becomes [k * (1 + 2 * L)] components:
    the row itself, then for each frequency [j < L] the [k] values
    [sin (2^j * v)] from column [k * (1 + 2 * j)] on and the [k] values
    [cos (2^j * v)] from column [k * (2 + 2 * j)] on. *)
Theorem positional_encoding_layout (x : tensor2) (L b j k : nat) :
  (b < length x)%nat -> (j < L)%nat -> (k < length (nth b x []))%nat ->
  let r := nth b x [] in
  let e := nth b (positional_encoding x L) [] in
  length (positional_encoding x L) = length x
  /\ length e = (length r * (1 + 2 * L))%nat
  /\ nth k e 0 = nth k r 0
  /\ nth (length r * (1 + 2 * j) + k) e 0 = sin (2 ^ j * nth k r 0)
  /\ nth (length r * (2 + 2 * j) + k) e 0 = cos (2 ^ j * nth k r 0).
Proof.
  intros Hb Hj Hk r e. unfold e, r.
  rewrite positional_encoding_rows, length_map.
  rewrite (nth_map_in _ _ _ []) by assumption.
  split; [reflexivity|]. split; [apply encode_row_length|].
  split; [now apply nth_encode_row_prefix|].
  now apply nth_encode_row_sin_cos.
Qed.

Lemma positional_encoding_layout_witness :
  length (positional_encoding [[1; 2; 3]; [0; 1; 0]] 2) = 2%nat
  /\ length (nth 1 (positional_encoding [[1; 2; 3]; [0; 1; 0]] 2) []) = 15%nat
  /\ nth 1 (nth 1 (positional_encoding [[1; 2; 3]; [0; 1; 0]] 2) []) 0 = 1
  /\ nth 10 (nth 1 (positional_encoding [[1; 2; 3]; [0; 1; 0]] 2) []) 0
     = sin (2 ^ 1 * 1)
  /\ nth 13 (nth 1 (positional_encoding [[1; 2; 3]; [0; 1; 0]] 2) []) 0
     = cos (2 ^ 1 * 1).
Proof.
  apply (positional_encoding_layout [[1; 2; 3]; [0; 1; 0]] 2 1 1 1);
    simpl; lia.
Defined.

Lemma Forall_flat_map {A B : Type} (P : B -> Prop) (f : A -> list B) (l : list A) :
  (forall a, Forall P (f a)) -> Forall P (flat_map f l).
Proof.
  intros H. induction l as [|a l IH]; simpl; [constructor|].
  apply Forall_app. auto.
Qed.

(** The largest finite binary32 number, [(2^24 - 1) * 2^104]. *)
Definition float32_max : R := (2 ^ 24 - 1) * 2 ^ 104.

(** X5. Every component the encoding adds to a 3-component row lies in
    [[-1, 1]]: beyond the first three columns the network sees bounded
    features only.  The rows are those the float code encodes without
    overflow: at most 128 frequencies, and every coordinate scaled by the
    largest factor [2^(L-1)] stays within the binary32 range. *)
Theorem positional_encoding_bounded (x : tensor2) (L : nat) :
  has_width 3 x ->
  (L <= 128)%nat ->
  Forall (Forall (fun v => Rabs v * 2 ^ (L - 1) <= float32_max)) x ->
  Forall (fun e => Forall (fun v => -1 <= v <= 1) (skipn 3 e))
         (positional_encoding x L).
Proof.
  intros Hx _ _. rewrite positional_encoding_rows, Forall_map.
  eapply Forall_impl; [|exact Hx]. intros r Hr; simpl in Hr.
  unfold encode_row. rewrite skipn_app, <- Hr, skipn_all, Nat.sub_diag.
  cbn [app skipn]. apply Forall_flat_map. intros j.
  apply Forall_app. split; rewrite Forall_map; apply Forall_forall; intros v _.
  - apply SIN_bound.
  - apply COS_bound.
Qed.

Lemma positional_encoding_bounded_witness :
  Forall (fun e => Forall (fun v => -1 <= v <= 1) (skipn 3 e))
         (positional_encoding [[10; -20; 30]; [0; 1; 0]] 4).
Proof.
  apply (positional_encoding_bounded [[10; -20; 30]; [0; 1; 0]] 4).
  - repeat constructor.
  - lia.
  - assert (Hmax : 240 <= float32_max).
    { unfold float32_max.
      assert (H1 : 1 <= 2 ^ 104) by (apply pow_R1_Rle; lra).
      assert (H2 : 240 <= 2 ^ 24 - 1) by lra.
      nra. }
    assert (Hv : forall v, -30 <= v <= 30 ->
                           Rabs v * 2 ^ (4 - 1) <= float32_max).
    { intros v Hv. cbn [Nat.sub pow]. unfold Rabs. destruct (Rcase_abs v); lra. }
    repeat (constructor; try (apply Hv; lra)).
Defined.

End EncodingFacts.

(** ** The accumulated transmittance *)

Module TransmittanceFacts.
Import CompositorFacts.

Lemma transmittance_rows (alphas : tensor2) :
  compute_accumulated_transmittance alphas
  = map (fun row => [1] ++ removelast (cumprod row)) alphas.
Proof.
  unfold compute_accumulated_transmittance. rewrite !length_map.
  induction alphas as [|row alphas IH]; simpl; [reflexivity|].
  now rewrite IH.
Qed.

Lemma prod_firstn_S (l : tensor1) (i : nat) :
  (i < length l)%nat -> prod (firstn (S i) l) = prod (firstn i l) * nth i l 0.
Proof.
  revert i; induction l as [|a l IH]; intros i Hi; [simpl in Hi; lia|].
  destruct i as [|i].
  - simpl. unfold prod. simpl. ring.
  - change (firstn (S (S i)) (a :: l)) with (a :: firstn (S i) l).
    change (firstn (S i) (a :: l)) with (a :: firstn i l).
    unfold prod in *. cbn [fold_right nth].
    rewrite IH by (simpl in Hi; lia). ring.
Qed.

Lemma length_transmittance_row (row : tensor1) :
  length ([1] ++ removelast (cumprod row)) = Nat.max 1 (length row).
Proof.
  rewrite length_app, length_removelast, length_cumprod.
  change (length [1]) with 1%nat. lia.
Qed.

(** X6. [compute_accumulated_transmittance] returns one row per input
    row.  Entry [0] of a row is [1], entry [i] is the product of the
    first [i] input entries, so each entry is the one before it times the
    input entry before it; the row is as long as the input row, except
    that an empty input row gives the one-entry row [[1]]. *)
Theorem accumulated_transmittance_products (alphas : tensor2) (b i : nat) :
  (b < length alphas)%nat ->
  let row := nth b alphas [] in
  let T := nth b (compute_accumulated_transmittance alphas) [] in
  length (compute_accumulated_transmittance alphas) = length alphas
  /\ length T = Nat.max 1 (length row)
  /\ nth 0 T 0 = 1
  /\ ((i < length row)%nat -> nth i T 0 = prod (firstn i row))
  /\ ((S i < length row)%nat -> nth (S i) T 0 = nth i T 0 * nth i row 0).
Proof.
  intros Hb row T. unfold T, row.
  rewrite transmittance_rows, length_map.
  rewrite (nth_map_in _ _ _ []) by assumption.
  split; [reflexivity|]. split; [apply length_transmittance_row|].
  split; [reflexivity|]. split.
  - intros Hi. now apply nth_shifted_cumprod.
  - intros Hi. rewrite !nth_shifted_cumprod by lia.
    apply prod_firstn_S. lia.
Qed.

Lemma accumulated_transmittance_products_witness :
  length (compute_accumulated_transmittance [[1 / 2; 1 / 4; 1 / 8]; []]) = 2%nat
  /\ length (nth 0 (compute_accumulated_transmittance [[1 / 2; 1 / 4; 1 / 8]; []]) [])
     = 3%nat
  /\ length (nth 1 (compute_accumulated_transmittance [[1 / 2; 1 / 4; 1 / 8]; []]) [])
     = 1%nat.
Proof.
  destruct (accumulated_transmittance_products [[1 / 2; 1 / 4; 1 / 8]; []] 0 0)
    as (H1 & H2 & _); [simpl; lia|].
  destruct (accumulated_transmittance_products [[1 / 2; 1 / 4; 1 / 8]; []] 1 0)
    as (_ & H3 & _); [simpl; lia|].
  split; [exact H1|]. split; [exact H2|exact H3].
Defined.

Lemma prod_firstn_unit (l : tensor1) (i : nat) :
  Forall unit_interval l -> unit_interval (prod (firstn i l)).
Proof.
  intros Hl; revert i; induction Hl as [|a l Ha _ IH]; intros i.
  - rewrite firstn_nil. unfold prod, unit_interval; simpl; lra.
  - destruct i as [|i]; [unfold prod, unit_interval; simpl; lra|].
    change (firstn (S i) (a :: l)) with (a :: firstn i l).
    specialize (IH i). unfold prod, unit_interval in *. cbn [fold_right].
    split; [apply Rmult_le_pos; lra|].
    apply Rle_trans with (1 * 1); [apply Rmult_le_compat; lra|lra].
Qed.

Lemma transmittance_row_step (row : tensor1) (i : nat) :
  Forall unit_interval row -> (S i < length ([1%R] ++ removelast (cumprod row)))%nat ->
  nth (S i) ([1] ++ removelast (cumprod row)) 0
  <= nth i ([1] ++ removelast (cumprod row)) 0.
Proof.
  intros Hrow Hi. rewrite length_transmittance_row in Hi.
  rewrite !nth_shifted_cumprod by lia. rewrite prod_firstn_S by lia.
  pose proof (prod_firstn_unit row i Hrow) as [Hp0 Hp1].
  assert (Ha : unit_interval (nth i row 0)).
  { unfold has_width in *. rewrite Forall_forall in Hrow. apply Hrow.
    apply nth_In. lia. }
  destruct Ha as [Ha0 Ha1].
  rewrite <- (Rmult_1_r (prod (firstn i row))) at 2.
  apply Rmult_le_compat_l; assumption.
Qed.

Lemma nonincreasing_of_adjacent (l : tensor1) :
  (forall i, (S i < length l)%nat -> nth (S i) l 0 <= nth i l 0) ->
  forall i j, (i <= j)%nat -> (j < length l)%nat -> nth j l 0 <= nth i l 0.
Proof.
  intros H i j Hij. induction Hij as [|j Hij IH]; intros Hj; [lra|].
  apply Rle_trans with (nth j l 0); [apply H; lia|apply IH; lia].
Qed.

(** X7. On input entries in [[0, 1]] every row that
    [compute_accumulated_transmittance] returns starts at [1], stays in
    [[0, 1]] and never increases along the ray. *)
Theorem accumulated_transmittance_nonincreasing (alphas : tensor2) :
  Forall (Forall unit_interval) alphas ->
  Forall (fun T =>
            nth 0 T 0 = 1
            /\ Forall unit_interval T
            /\ forall i j, (i <= j)%nat -> (j < length T)%nat ->
                           nth j T 0 <= nth i T 0)
         (compute_accumulated_transmittance alphas).
Proof.
  intros H. rewrite transmittance_rows, Forall_map.
  eapply Forall_impl; [|exact H]. intros row Hrow; simpl in Hrow.
  split; [reflexivity|]. split.
  - apply Forall_forall. intros v Hv.
    apply (In_nth _ _ 0) in Hv. destruct Hv as (i & Hi & <-).
    rewrite length_transmittance_row in Hi.
    destruct (Nat.lt_ge_cases i (length row)) as [Hlt|Hge].
    + rewrite nth_shifted_cumprod by assumption. now apply prod_firstn_unit.
    + assert (i = 0)%nat as -> by lia. unfold unit_interval; simpl; lra.
  - apply nonincreasing_of_adjacent. intros i Hi.
    now apply transmittance_row_step.
Qed.

Lemma accumulated_transmittance_nonincreasing_witness :
  Forall (fun T =>
            nth 0 T 0 = 1
            /\ Forall unit_interval T
            /\ forall i j, (i <= j)%nat -> (j < length T)%nat ->
                           nth j T 0 <= nth i T 0)
         (compute_accumulated_transmittance [[1 / 2; 0; 1]; [1; 1 / 4; 1 / 2]]).
Proof.
  apply (accumulated_transmittance_nonincreasing [[1 / 2; 0; 1]; [1; 1 / 4; 1 / 2]]).
  repeat constructor; unfold unit_interval; lra.
Defined.

Lemma prod_firstn_zero (l : tensor1) (j i : nat) :
  (j < i)%nat -> (j < length l)%nat -> nth j l 0 = 0 -> prod (firstn i l) = 0.
Proof.
  revert j i; induction l as [|a l IH]; intros j i Hji Hj Hz; [simpl in Hj; lia|].
  destruct i as [|i]; [lia|].
  change (firstn (S i) (a :: l)) with (a :: firstn i l).
  unfold prod in *. cbn [fold_right]. destruct j as [|j].
  - simpl in Hz. subst a. ring.
  - rewrite (IH j i); [ring|lia|simpl in Hj; lia|exact Hz].
Qed.

(** X8. An input entry [0] at position [j] (a sample that lets nothing
    through) makes every later entry of the accumulated transmittance of
    that ray [0]. *)
Theorem accumulated_transmittance_occluded (alphas : tensor2) (b j i : nat) :
  (b < length alphas)%nat ->
  nth j (nth b alphas []) 0 = 0 ->
  (j < i)%nat -> (i < length (nth b alphas []))%nat ->
  nth i (nth b (compute_accumulated_transmittance alphas) []) 0 = 0.
Proof.
  intros Hb Hz Hji Hi.
  rewrite transmittance_rows, (nth_map_in _ _ _ []) by assumption.
  rewrite nth_shifted_cumprod by assumption.
  apply (prod_firstn_zero _ j); [assumption|lia|assumption].
Qed.

Lemma accumulated_transmittance_occluded_witness :
  nth 2 (nth 0 (compute_accumulated_transmittance [[1 / 2; 0; 1 / 4]]) []) 0 = 0.
Proof.
  apply (accumulated_transmittance_occluded [[1 / 2; 0; 1 / 4]] 0 1 2);
    simpl; try lia; reflexivity.
Defined.

(** *** The unabsorbed part of a ray *)

Lemma transmittance_exp (sg dl : nat -> R) (n : nat) :
  spec_transmittance sg dl n = exp (- sum (map (fun i => sg i * dl i) (seq 0 n))).
Proof.
  induction n as [|n IH].
  - unfold spec_transmittance, sum. simpl. now rewrite Ropp_0, exp_0.
  - rewrite transmittance_S, IH, sum_seq_S. unfold spec_alpha.
    replace (1 - (1 - exp (- (sg n * dl n)))) with (exp (- (sg n * dl n))) by ring.
    rewrite <- exp_plus. f_equal. ring.
Qed.

Lemma sum_map2_seq (s d : tensor1) :
  (length s <= length d)%nat ->
  sum (map2 Rmult s d)
  = sum (map (fun i => nth i s 0 * nth i d 0) (seq 0 (length s))).
Proof.
  intros H. rewrite (map2_tabulate Rmult s d 0 0).
  now rewrite Nat.min_l by assumption.
Qed.

Lemma map2_ext_Forall2 {A B C : Type} (f g : A -> B -> C) (a : list A) (b : list B) :
  Forall2 (fun x y => f x y = g x y) a b -> map2 f a b = map2 g a b.
Proof. induction 1; simpl; congruence. Qed.

(** X9. The [weight_sum] of [render_rays] in closed form: for densities
    and interval lengths of the same shape the weights of a ray add up to
    [1 - exp (- sum_i sigma_i * delta_i)], so the white background enters
    a pixel with the factor [exp (- sum_i sigma_i * delta_i)]. *)
Theorem weight_sum_optical_depth (sigma delta : tensor2) :
  Forall2 (fun s d => length s = length d) sigma delta ->
  weight_sums (ray_weights sigma delta)
  = map2 (fun s d => 1 - exp (- sum (map2 Rmult s d))) sigma delta.
Proof.
  intros H. rewrite weight_sums_rows. apply map2_ext_Forall2.
  eapply Forall2_impl; [|exact H]. intros s d Hsd; simpl in *.
  rewrite (weight_sum_row s d (length s) eq_refl) by lia.
  unfold spec_weight_sum. rewrite weights_telescope, transmittance_exp.
  now rewrite sum_map2_seq by lia.
Qed.

Lemma weight_sum_optical_depth_witness :
  weight_sums (ray_weights [[1; 2]; [0; 3]] [[1 / 2; 1e10]; [1 / 4; 1e10]])
  = map2 (fun s d => 1 - exp (- sum (map2 Rmult s d)))
         [[1; 2]; [0; 3]] [[1 / 2; 1e10]; [1 / 4; 1e10]].
Proof.
  apply (weight_sum_optical_depth [[1; 2]; [0; 3]] [[1 / 2; 1e10]; [1 / 4; 1e10]]).
  repeat constructor.
Defined.

End TransmittanceFacts.

(** ** The strata of the sampler and its degenerate ranges *)

Module StrataFacts.
Import SamplerFacts RenderFacts.





(** *** A single bin, an empty range *)




End StrataFacts.

(** ** What [render_rays] hands to the network, and what it returns *)

Module RenderNetworkFacts.
Import NerfModel NerfModelFacts SamplerFacts CompositorFacts RenderFacts.
Import NetworkFacts StrataFacts.

(** [t.expand(nb_bins, N, 3)] of an [N * 3] tensor, and [transpose(0, 1)]
    of a 3-d tensor whose second dimension has size [n]. *)
Definition expand (nb_bins : nat) (ray_directions : tensor2) : tensor3 :=
  repeat ray_directions nb_bins.

Definition transpose01 (n : nat) (t : tensor3) : tensor3 :=
  map (fun b => map (fun plane => nth b plane []) t) (seq 0 n).

Lemma expand_directions_transpose (nb_bins : nat) (ray_directions : tensor2) :
  expand_directions nb_bins ray_directions
  = transpose01 (length ray_directions) (expand nb_bins ray_directions).
Proof.
  unfold expand_directions, transpose01, expand.
  apply (nth_ext _ _ [] []).
  - now rewrite !length_map, length_seq.
  - intros b Hb. rewrite length_map in Hb.
    rewrite (nth_map_in _ _ _ []) by assumption.
    rewrite (nth_map_seq _ 0 _ b []) by assumption.
    now rewrite map_repeat.
Qed.

Lemma nth_concat_uniform {A : Type} (m : nat) (l : list (list A)) (b i : nat) (d : A) :
  Forall (fun r => length r = m) l -> (b < length l)%nat -> (i < m)%nat ->
  nth (b * m + i) (concat l) d = nth i (nth b l []) d.
Proof.
  intros H; revert b; induction H as [|r l Hr _ IH]; intros b Hb Hi;
    [simpl in Hb; lia|].
  cbn [concat]. destruct b as [|b].
  - cbn [Nat.mul Nat.add nth]. apply app_nth1. lia.
  - rewrite app_nth2 by (rewrite Hr; simpl; lia).
    replace (S b * m + i - length r)%nat with (b * m + i)%nat by (rewrite Hr; simpl; lia).
    cbn [nth]. apply IH; [simpl in Hb; lia|assumption].
Qed.

Lemma nth_sample_points (o d t : tensor2) (b : nat) :
  (b < length o)%nat -> length d = length o -> length t = length o ->
  nth b (sample_points o d t) []
  = map (fun ti => map2 (fun ok dk => ok + ti * dk) (nth b o []) (nth b d []))
        (nth b t []).
Proof.
  intros Hb Hd Ht. unfold sample_points.
  rewrite (nth_map2 _ _ _ _ [] ([], []) [])
    by (rewrite ?length_combine; lia).
  now rewrite combine_nth by lia.
Qed.

Lemma sample_points_rows (o d t : tensor2) (nb_bins : nat) :
  length d = length o -> length t = length o ->
  Forall (fun r => length r = nb_bins) t ->
  Forall (fun r => length r = nb_bins) (sample_points o d t).
Proof.
  intros Hd Ht Hw. apply Forall_forall. intros r Hr.
  apply (In_nth _ _ []) in Hr. destruct Hr as (b & Hb & <-).
  assert (Hlen : length (sample_points o d t) = length o).
  { unfold sample_points. rewrite map2_length, length_combine. lia. }
  rewrite Hlen in Hb. rewrite nth_sample_points by assumption.
  rewrite length_map. rewrite Forall_forall in Hw. apply Hw.
  apply nth_In. lia.
Qed.

(** X12. What [render_rays] hands to the network.  Both arguments have
    [N * nb_bins] rows; row [b * nb_bins + i] of the first is the point
    [o_b + t_(b,i) * d_b] at depth [i] of ray [b], and row
    [b * nb_bins + i] of the second, the reshaped
    [ray_directions.expand(nb_bins, N, 3).transpose(0, 1)], is the
    direction [d_b] of that same ray. *)
Theorem network_inputs_paired
    (o d : tensor2) (hn hf : R) (nb_bins : nat) (rand : nat -> nat -> R)
    (b i : nat) :
  length d = length o -> (b < length o)%nat -> (i < nb_bins)%nat ->
  let t := sample_depths (length o) hn hf nb_bins rand in
  let x := concat (sample_points o d t) in
  let dirs := concat (expand_directions nb_bins d) in
  expand_directions nb_bins d = transpose01 (length d) (expand nb_bins d)
  /\ length x = (length o * nb_bins)%nat
  /\ length dirs = (length o * nb_bins)%nat
  /\ nth (b * nb_bins + i) x []
     = map2 (fun ok dk => ok + nth i (nth b t []) 0 * dk) (nth b o []) (nth b d [])
  /\ nth (b * nb_bins + i) dirs [] = nth b d [].
Proof.
  intros Hd Hb Hi t x dirs. unfold x, dirs.
  assert (Ht : length t = length o) by apply length_sample_depths.
  assert (Hw : Forall (fun r => length r = nb_bins) t) by apply sample_depths_width.
  split; [apply expand_directions_transpose|]. split; [|split; [|split]].
  - apply length_sample_points; [lia|lia|assumption].
  - rewrite length_expand_directions. lia.
  - rewrite (nth_concat_uniform nb_bins).
    + rewrite nth_sample_points by assumption.
      rewrite (nth_map_in _ _ _ 0); [reflexivity|].
      rewrite Forall_forall in Hw. rewrite (Hw (nth b t [])); [assumption|].
      apply nth_In. lia.
    + now apply sample_points_rows.
    + unfold sample_points. rewrite map2_length, length_combine. lia.
    + assumption.
  - rewrite (nth_concat_uniform nb_bins).
    + unfold expand_directions. rewrite (nth_map_in _ _ _ []) by lia.
      now rewrite nth_repeat_lt.
    + unfold expand_directions. rewrite Forall_map. apply Forall_forall.
      intros r _. apply repeat_length.
    + unfold expand_directions. rewrite length_map. lia.
    + assumption.
Qed.

Lemma network_inputs_paired_witness :
  expand_directions 2 [[0; 0; 1]; [0; 1; 0]]
  = transpose01 2 (expand 2 [[0; 0; 1]; [0; 1; 0]])
  /\ length (concat (sample_points [[0; 0; 0]; [1; 1; 1]] [[0; 0; 1]; [0; 1; 0]]
                       (sample_depths 2 2 6 2 (fun _ _ => 1 / 2)))) = (2 * 2)%nat
  /\ length (concat (expand_directions 2 [[0; 0; 1]; [0; 1; 0]])) = (2 * 2)%nat
  /\ nth (1 * 2 + 1)
         (concat (sample_points [[0; 0; 0]; [1; 1; 1]] [[0; 0; 1]; [0; 1; 0]]
                    (sample_depths 2 2 6 2 (fun _ _ => 1 / 2)))) []
     = map2 (fun ok dk =>
               ok + nth 1 (nth 1 (sample_depths 2 2 6 2 (fun _ _ => 1 / 2)) []) 0 * dk)
            [1; 1; 1] [0; 1; 0]
  /\ nth (1 * 2 + 1) (concat (expand_directions 2 [[0; 0; 1]; [0; 1; 0]])) []
     = [0; 1; 0].
Proof.
  apply (network_inputs_paired [[0; 0; 0]; [1; 1; 1]] [[0; 0; 1]; [0; 1; 0]]
           2 6 2 (fun _ _ => 1 / 2) 1 1); simpl; lia.
Defined.

(** *** The length and the width of the returned pixels *)

Lemma length_sum_dim1 (rows : tensor2) : (length (sum_dim1 rows) <= 3)%nat.
Proof.
  unfold sum_dim1. induction rows as [|r rows IH]; cbn [fold_right].
  - simpl. lia.
  - rewrite map2_length. lia.
Qed.

Lemma length_composite (colors : tensor3) (sigma delta : tensor2) (n : nat) :
  length colors = n -> length sigma = n -> length delta = n ->
  length (composite colors sigma delta) = n
  /\ Forall (fun p => (length p <= 3)%nat) (composite colors sigma delta).
Proof.
  intros Hc Hs Hd. rewrite composite_rows. split.
  - rewrite map2_length, length_combine. lia.
  - rewrite (map2_tabulate _ _ _ [] ([], [])). apply Forall_map, Forall_forall.
    intros b _. unfold composite_row. rewrite length_map. apply length_sum_dim1.
Qed.

Lemma length_render_rays
      (nerf_model : tensor2 -> tensor2 -> option (tensor2 * tensor1))
      (o d : tensor2) (hn hf : R) (nb_bins : nat) (rand : nat -> nat -> R)
      (px : tensor2) :
  render_rays nerf_model o d hn hf nb_bins rand = Some px ->
  length px = length o /\ Forall (fun p => (length p <= 3)%nat) px.
Proof.
  unfold render_rays.
  destruct (nerf_model _ _) as [[colors sigma]|]; cbn [obind fst snd]; [|discriminate].
  unfold reshape3, reshape2.
  destruct (Nat.eqb _ _); cbn [obind]; [|discriminate].
  destruct (Nat.eqb _ _); cbn [obind]; [|discriminate].
  intros E; injection E as <-.
  apply length_composite.
  - apply length_unflatten.
  - apply length_unflatten.
  - apply length_sample_deltas.
Qed.

(** *** No bin at all *)

Lemma sample_depths_no_bins (n : nat) (hn hf : R) (rand : nat -> nat -> R) :
  sample_depths n hn hf 0 rand = repeat [] n.
Proof.
  rewrite sample_depths_rows. cbn [seq map linspace]. unfold jitter_row.
  cbn [removelast tl map2 firstn skipn app length Nat.sub].
  generalize 0%nat. induction n as [|n IH]; intros s; simpl; [reflexivity|].
  now rewrite IH.
Qed.

Lemma sample_deltas_no_bins (n : nat) :
  sample_deltas n (repeat [] n) = repeat [last_delta] n.
Proof.
  rewrite <- (repeat_length (@nil R) n) at 1.
  rewrite sample_deltas_rows, map_repeat. reflexivity.
Qed.

Lemma concat_nils {A : Type} (l : list (list A)) :
  Forall (fun r => r = []) l -> concat l = [].
Proof. induction 1 as [|r l -> _ IH]; simpl; auto. Qed.

Lemma unflatten_nil {A : Type} (n : nat) : unflatten n 0 (@nil A) = repeat [] n.
Proof. induction n as [|n IH]; simpl; [reflexivity|]. now rewrite IH. Qed.

Lemma composite_no_bins (n : nat) :
  composite (repeat [] n) (repeat [] n) (repeat [last_delta] n)
  = repeat [0 + 1 - 0; 0 + 1 - 0; 0 + 1 - 0] n.
Proof.
  induction n as [|n IH]; [reflexivity|].
  cbn [repeat]. rewrite composite_cons, IH. f_equal.
Qed.

(** X13. With [nb_bins = 0], the network of [__init__] and as many
    directions as origins, [render_rays] does not raise: it returns one
    pixel per ray, and every pixel is white. *)
Theorem render_rays_no_bins_white
    (w : nat -> nat -> nat -> R) (b : nat -> nat -> R) (Lx Ld W : nat)
    (o d : tensor2) (hn hf : R) (rand : nat -> nat -> R) :
  length d = length o ->
  exists px,
    render_rays (forward (init_with w b Lx Ld W)) o d hn hf 0 rand = Some px
    /\ length px = length o
    /\ Forall (fun p => p = [1; 1; 1]) px.
Proof.
  intros Hd. unfold render_rays.
  rewrite sample_depths_no_bins, sample_deltas_no_bins.
  assert (Hx : concat (sample_points o d (repeat [] (length o))) = []).
  { apply concat_nils. apply Forall_forall. intros r Hr.
    apply (In_nth _ _ []) in Hr. destruct Hr as (k & Hk & <-).
    assert (Hlen : length (sample_points o d (repeat [] (length o))) = length o).
    { unfold sample_points. rewrite map2_length, length_combine, repeat_length. lia. }
    rewrite nth_sample_points by (rewrite ?repeat_length; lia).
    rewrite nth_repeat_lt by lia. reflexivity. }
  assert (Hdirs : concat (expand_directions 0 d) = []).
  { apply concat_nils. unfold expand_directions. rewrite Forall_map.
    apply Forall_forall. intros r _. reflexivity. }
  rewrite Hx, Hdirs, TestFacts.forward_nil. cbn [obind fst snd].
  unfold reshape3, reshape2. cbn [concat length].
  replace (length o * 0 * 3)%nat with 0%nat by lia.
  replace (length o * 0)%nat with 0%nat by lia.
  cbn [Nat.eqb obind unflatten]. rewrite !unflatten_nil, composite_no_bins.
  eexists. split; [reflexivity|]. split; [apply repeat_length|].
  apply Forall_forall. intros p Hp. apply repeat_spec in Hp. subst p.
  f_equal; [|f_equal; [|f_equal]]; ring.
Qed.

Lemma render_rays_no_bins_white_witness :
  exists px,
    render_rays (forward (init_with (fun _ _ _ => 1) (fun _ _ => 0) 10 4 256))
                [[0; 0; 0]; [1; 1; 1]] [[0; 0; 1]; [0; 1; 0]] 2 6 0
                (fun _ _ => 1 / 2) = Some px
    /\ length px = length [[0; 0; 0]; [1; 1; 1]]
    /\ Forall (fun p => p = [1; 1; 1]) px.
Proof.
  apply (render_rays_no_bins_white (fun _ _ _ => 1) (fun _ _ => 0) 10 4 256
           [[0; 0; 0]; [1; 1; 1]] [[0; 0; 1]; [0; 1; 0]] 2 6 (fun _ _ => 1 / 2)).
  reflexivity.
Defined.

(** *** One ray at a time *)

Lemma sample_depths_ext (n : nat) (hn hf : R) (nb_bins : nat)
      (rand rand' : nat -> nat -> R) :
  (forall b i, (b < n)%nat -> rand b i = rand' b i) ->
  sample_depths n hn hf nb_bins rand = sample_depths n hn hf nb_bins rand'.
Proof.
  intros H. rewrite !sample_depths_rows. apply map_ext_in. intros b Hb.
  apply in_seq in Hb. f_equal. apply map_ext. intros i. apply H. lia.
Qed.

Lemma render_rays_ext
      (nerf_model : tensor2 -> tensor2 -> option (tensor2 * tensor1))
      (o d : tensor2) (hn hf : R) (nb_bins : nat) (rand rand' : nat -> nat -> R) :
  (forall b i, (b < length o)%nat -> rand b i = rand' b i) ->
  render_rays nerf_model o d hn hf nb_bins rand
  = render_rays nerf_model o d hn hf nb_bins rand'.
Proof.
  intros H. unfold render_rays.
  now rewrite (sample_depths_ext _ hn hf nb_bins rand rand' H).
Qed.

(** X14. [render_rays] treats the rays of a batch separately: when a
    call on a batch returns, the pixel of ray [b] is what the call on ray
    [b] alone returns with the draws of that ray. *)
Theorem render_rays_ray_by_ray
    (self : NerfModel.t) (o d : tensor2) (hn hf : R) (nb_bins : nat)
    (rand : nat -> nat -> R) (px : tensor2) (b : nat) :
  rgb_head self -> length o = length d ->
  render_rays (forward self) o d hn hf nb_bins rand = Some px ->
  (b < length o)%nat ->
  render_rays (forward self) [nth b o []] [nth b d []] hn hf nb_bins
              (fun _ => rand b)
  = Some [nth b px []].
Proof.
  intros Hrgb. revert d rand px b.
  induction o as [|x o IH]; intros d rand px b Hl E Hb; [simpl in Hb; lia|].
  destruct d as [|y d]; [discriminate|].
  change (x :: o) with ([x] ++ o) in E. change (y :: d) with ([y] ++ d) in E.
  rewrite render_rays_app in E; [|assumption|reflexivity|simpl in Hl; lia].
  destruct (render_rays (forward self) [x] [y] hn hf nb_bins rand)
    as [px1|] eqn:E1; [|discriminate].
  destruct (render_rays (forward self) o d hn hf nb_bins _)
    as [px2|] eqn:E2; [|discriminate].
  cbn [oapp] in E. injection E as <-.
  destruct (length_render_rays _ _ _ _ _ _ _ _ E1) as [Hl1 _].
  destruct px1 as [|p [|? ?]]; try discriminate.
  destruct b as [|b]; cbn [nth app].
  - rewrite <- E1. apply render_rays_ext. intros b i Hb'.
    simpl in Hb'. now replace b with 0%nat by lia.
  - apply (IH d (fun b => rand (length [x] + b)%nat) px2 b);
      [simpl in Hl; lia|exact E2|simpl in Hb; lia].
Qed.

Lemma render_rays_ray_by_ray_witness :
  exists px,
    render_rays (forward (init 0 0 1 (1 / 2) 1))
                [[0; 0; 0]; [1; 0; 0]] [[0; 0; 1]; [0; 1; 0]] 2 6 2
                (fun b _ => / (2 + INR b)) = Some px
    /\ render_rays (forward (init 0 0 1 (1 / 2) 1))
                   [[1; 0; 0]] [[0; 1; 0]] 2 6 2 (fun _ _ => / (2 + INR 1))
       = Some [nth 1 px []].
Proof.
  destruct (render_rays (forward (init 0 0 1 (1 / 2) 1))
              [[0; 0; 0]; [1; 0; 0]] [[0; 0; 1]; [0; 1; 0]] 2 6 2
              (fun b _ => / (2 + INR b))) as [px|] eqn:E.
  - exists px. split; [reflexivity|].
    apply (render_rays_ray_by_ray (init 0 0 1 (1 / 2) 1)
             [[0; 0; 0]; [1; 0; 0]] [[0; 0; 1]; [0; 1; 0]] 2 6 2
             (fun b _ => / (2 + INR b)) px 1).
    + apply rgb_head_init.
    + reflexivity.
    + exact E.
    + simpl. lia.
  - exfalso. revert E. eval_lists. discriminate.
Defined.

(** *** The pixels of the network of [__init__] *)

Lemma has_width_sample_points (o d t : tensor2) :
  has_width 3 o -> has_width 3 d -> length d = length o -> length t = length o ->
  has_width 3 (concat (sample_points o d t)).
Proof.
  intros Ho Hd Hl Ht. unfold has_width. apply Forall_concat.
  apply Forall_forall. intros r Hr.
  apply (In_nth _ _ []) in Hr. destruct Hr as (b & Hb & <-).
  assert (Hlen : length (sample_points o d t) = length o).
  { unfold sample_points. rewrite map2_length, length_combine. lia. }
  rewrite Hlen in Hb. rewrite nth_sample_points by assumption.
  rewrite Forall_map. apply Forall_forall. intros ti _.
  rewrite map2_length.
  unfold has_width in Ho, Hd. rewrite Forall_forall in Ho, Hd.
  rewrite (Ho (nth b o [])), (Hd (nth b d [])); [reflexivity| |];
    apply nth_In; lia.
Qed.

Lemma has_width_expand_directions (nb_bins : nat) (d : tensor2) :
  has_width 3 d -> has_width 3 (concat (expand_directions nb_bins d)).
Proof.
  intros Hd. unfold has_width, expand_directions. apply Forall_concat.
  rewrite Forall_map. eapply Forall_impl; [|exact Hd]. intros r Hr.
  apply Forall_forall. intros r' Hr'. apply repeat_spec in Hr'. now subst.
Qed.

(** The pixels [render_rays] composes from network outputs in range, on a
    valid depth range. *)
Lemma render_rays_pixels
      (nerf_model : tensor2 -> tensor2 -> option (tensor2 * tensor1))
      (o d : tensor2) (hn hf : R) (nb_bins : nat) (rand : nat -> nat -> R)
      (colors : tensor2) (sigma : tensor1) :
  let n := length o in
  let t := sample_depths n hn hf nb_bins rand in
  nerf_model (concat (sample_points o d t)) (concat (expand_directions nb_bins d))
    = Some (colors, sigma) ->
  has_width 3 colors ->
  length colors = (n * nb_bins)%nat ->
  length sigma = (n * nb_bins)%nat ->
  hn <= hf ->
  (forall b i, 0 <= rand b i < 1) ->
  Forall (fun s => 0 <= s) sigma ->
  Forall (Forall unit_interval) colors ->
  exists px,
    render_rays nerf_model o d hn hf nb_bins rand = Some px
    /\ length px = n
    /\ Forall (fun p => length p = 3%nat /\ Forall unit_interval p) px.
Proof.
  intros n t Hout Hw Hc Hs Hnf Hu Hsig Hcol.
  set (delta := sample_deltas n t).
  assert (Hd : length delta = n) by apply length_sample_deltas.
  assert (Hdl : forall b, (b < n)%nat -> (nb_bins <= length (nth b delta []))%nat).
  { intros b Hb. now apply nth_sample_deltas. }
  exists (map (quadrature_pixel nb_bins (unflatten n nb_bins colors)
                                (unflatten n nb_bins sigma) delta) (seq 0 n)).
  split.
  { rewrite (render_rays_composite nerf_model o d hn hf nb_bins rand colors sigma
               Hout Hw Hc Hs).
    fold n t delta. f_equal. now apply composite_quadrature. }
  rewrite length_map, length_seq. split; [reflexivity|].
  apply Forall_map_seq. intros b Hb. unfold quadrature_pixel. split.
  - now rewrite length_map, length_seq.
  - rewrite Forall_map, Forall_forall. intros k Hk. apply in_seq in Hk.
    apply pixel_range; [| | |lia].
    + intros i _. apply Forall_nth_default; [|lra]. now apply Forall_nth_unflatten.
    + intros i Hi. unfold delta, t. rewrite nth_sample_deltas_row by assumption.
      apply deltas_row_nonneg; auto.
      * now rewrite length_map, length_seq.
      * intros j Hj. rewrite nth_map_seq by assumption. apply Hu.
    + intros i k' _ _. apply Forall_nth_default; [|unfold unit_interval; lra].
      apply Forall_nth_default; [|constructor]. now apply Forall_nth_unflatten.
Qed.

Lemma render_rays_init_pixels
    (w : nat -> nat -> nat -> R) (b : nat -> nat -> R) (Lx Ld W : nat)
    (o d : tensor2) (hn hf : R) (nb_bins : nat) (rand : nat -> nat -> R) :
  has_width 3 o -> has_width 3 d -> length d = length o ->
  hn <= hf -> (forall b i, 0 <= rand b i < 1) ->
  exists px,
    render_rays (forward (init_with w b Lx Ld W)) o d hn hf nb_bins rand = Some px
    /\ length px = length o
    /\ Forall (fun p => length p = 3%nat /\ Forall unit_interval p) px.
Proof.
  intros Ho Hd Hl Hnf Hu.
  set (t := sample_depths (length o) hn hf nb_bins rand).
  assert (Ht : length t = length o) by apply length_sample_depths.
  assert (Hlx : length (concat (sample_points o d t)) = (length o * nb_bins)%nat).
  { apply length_sample_points; [lia|lia|apply sample_depths_width]. }
  assert (Hld : length (concat (expand_directions nb_bins d))
                = (length o * nb_bins)%nat).
  { rewrite length_expand_directions. lia. }
  destruct (forward_init_some w b Lx Ld W
              (concat (sample_points o d t)) (concat (expand_directions nb_bins d)))
    as (colors & sigma & E).
  { now apply has_width_sample_points. }
  { now apply has_width_expand_directions. }
  { lia. }
  pose proof (rgb_head_init_with w b Lx Ld W) as Hrgb.
  destruct (forward_shape _ _ _ _ _ Hrgb E) as (Hc & Hs & Hw).
  destruct (forward_outputs_bounded _ _ _ _ _ Hrgb E) as (Hsig & Hcol).
  apply (render_rays_pixels _ o d hn hf nb_bins rand colors sigma E Hw);
    try assumption; lia.
Qed.

(** X15. With the network of [__init__], rays of three components, a
    depth range [hn <= hf] and draws in [[0, 1)], [render_rays] returns:
    one pixel of three channels per ray, for any number of bins and any
    values of the parameters.  Over the reals every channel lies in
    [[0, 1]]; the bound is that of exact arithmetic, and the last bit of
    a binary32 channel can pass [1]. *)
Theorem render_rays_network_pixels
    (w : nat -> nat -> nat -> R) (b : nat -> nat -> R) (Lx Ld W : nat)
    (o d : tensor2) (hn hf : R) (nb_bins : nat) (rand : nat -> nat -> R) :
  has_width 3 o -> has_width 3 d -> length d = length o ->
  hn <= hf -> (forall b i, 0 <= rand b i < 1) ->
  exists px,
    render_rays (forward (init_with w b Lx Ld W)) o d hn hf nb_bins rand = Some px
    /\ length px = length o
    /\ Forall (fun p => length p = 3%nat /\ Forall unit_interval p) px.
Proof. apply render_rays_init_pixels. Qed.

Lemma render_rays_network_pixels_witness :
  exists px,
    render_rays (forward (init_with (fun k r c => INR (k + r + c))
                                    (fun k r => - INR (k + r)) 2 1 4))
                [[0; 0; 0]; [1; 1; 1]] [[0; 0; 1]; [0; 1; 0]] 2 6 3
                (fun _ _ => 1 / 2) = Some px
    /\ length px = length [[0; 0; 0]; [1; 1; 1]]
    /\ Forall (fun p => length p = 3%nat /\ Forall unit_interval p) px.
Proof.
  apply (render_rays_network_pixels
           (fun k r c => INR (k + r + c)) (fun k r => - INR (k + r)) 2 1 4
           [[0; 0; 0]; [1; 1; 1]] [[0; 0; 1]; [0; 1; 0]] 2 6 3 (fun _ _ => 1 / 2)).
  - repeat constructor.
  - repeat constructor.
  - reflexivity.
  - lra.
  - intros; lra.
Defined.

End RenderNetworkFacts.

(** ** The raster of one test image *)

Module RasterFacts.
Import NerfModel NerfModelFacts RenderFacts TestFacts.
Import NetworkFacts RenderNetworkFacts.

Lemma render_chunks_step (model : NerfModel.t) (o d : tensor2) (hn hf : R)
      (chunk_size nb_bins W : nat) (rand : nat -> nat -> nat -> R) (k : nat) :
  render_chunks model o d hn hf chunk_size nb_bins W rand (S k)
  = (data <- render_chunks model o d hn hf chunk_size nb_bins W rand k ;;
     px <- render_rays (forward model)
             (slice (k * W * chunk_size) ((k + 1) * W * chunk_size) o)
             (slice (k * W * chunk_size) ((k + 1) * W * chunk_size) d)
             hn hf nb_bins (rand k) ;;
     Some (data ++ [px])).
Proof.
  unfold render_chunks. rewrite seq_S, fold_left_app. reflexivity.
Qed.

Lemma slice_chunk {A : Type} (k W chunk_size : nat) (l : list A) :
  firstn ((k + 1) * (W * chunk_size)) l
  = firstn (k * (W * chunk_size)) l
    ++ slice (k * W * chunk_size) ((k + 1) * W * chunk_size) l.
Proof.
  rewrite firstn_next_chunk. do 2 f_equal; lia.
Qed.

(** What the loop has gathered after [k] chunks, for any network: one
    pixel per ray of the first [k] chunks, none wider than three. *)
Lemma render_chunks_rows (model : NerfModel.t) (o d : tensor2) (hn hf : R)
      (chunk_size nb_bins W : nat) (rand : nat -> nat -> nat -> R) (k : nat)
      (data : list tensor2) :
  render_chunks model o d hn hf chunk_size nb_bins W rand k = Some data ->
  length data = k
  /\ length (concat data) = length (firstn (k * (W * chunk_size)) o)
  /\ Forall (fun p => (length p <= 3)%nat) (concat data).
Proof.
  revert data; induction k as [|k IH]; intros data.
  - unfold render_chunks. simpl. intros E; injection E as <-.
    repeat split; constructor.
  - rewrite render_chunks_step.
    destruct (render_chunks _ _ _ _ _ _ _ _ _ k) as [data0|]; cbn [obind];
      [|discriminate].
    destruct (render_rays _ _ _ _ _ _ _) as [px|] eqn:Ep; cbn [obind];
      [|discriminate].
    intros E; injection E as <-.
    destruct (IH data0 eq_refl) as (Hl & Hc & Hw).
    destruct (length_render_rays _ _ _ _ _ _ _ _ Ep) as (Hp & Hpw).
    rewrite concat_app, !length_app. cbn [concat length]. rewrite app_nil_r.
    replace (S k) with (k + 1)%nat by lia. rewrite slice_chunk, length_app.
    repeat split; try lia. apply Forall_app. now split.
Qed.

Lemma length_slice_same {A B : Type} (a b : nat) (l : list A) (l' : list B) :
  length l' = length l -> length (slice a b l') = length (slice a b l).
Proof.
  intros H. unfold slice. now rewrite !length_firstn, !length_skipn, H.
Qed.

Lemma has_width_slice (n a b : nat) (x : tensor2) :
  has_width n x -> has_width n (slice a b x).
Proof. intros H. unfold slice. now apply Forall_firstn, Forall_skipn. Qed.

(** With the network of [__init__] and rays of three components, every
    chunk is rendered. *)
Lemma render_chunks_init_returns
    (w : nat -> nat -> nat -> R) (b : nat -> nat -> R) (Lx Ld Wd : nat)
    (o d : tensor2) (hn hf : R) (chunk_size nb_bins W : nat)
    (rand : nat -> nat -> nat -> R) (k : nat) :
  has_width 3 o -> has_width 3 d -> length d = length o ->
  hn <= hf -> (forall i b k, 0 <= rand i b k < 1) ->
  exists data,
    render_chunks (init_with w b Lx Ld Wd) o d hn hf chunk_size nb_bins W rand k
    = Some data
    /\ Forall (fun p => length p = 3%nat /\ Forall unit_interval p) (concat data).
Proof.
  intros Ho Hd Hl Hnf Hu. induction k as [|k (data & E & Hpx)].
  - exists []. split; [reflexivity|constructor].
  - rewrite render_chunks_step, E. cbn [obind].
    destruct (render_rays_init_pixels w b Lx Ld Wd
                (slice (k * W * chunk_size) ((k + 1) * W * chunk_size) o)
                (slice (k * W * chunk_size) ((k + 1) * W * chunk_size) d)
                hn hf nb_bins (rand k)) as (px & Ep & _ & Hp).
    + now apply has_width_slice.
    + now apply has_width_slice.
    + now apply length_slice_same.
    + assumption.
    + apply Hu.
    + rewrite Ep. cbn [obind]. eexists. split; [reflexivity|].
      rewrite concat_app. cbn [concat]. rewrite app_nil_r.
      apply Forall_app. now split.
Qed.

Lemma has_width_image_rows (cols : nat) (dataset : tensor2)
      (img_index H W a : nat) :
  has_width cols dataset -> (a + 3 <= cols)%nat ->
  has_width 3 (image_rows dataset img_index H W a (a + 3)).
Proof.
  intros Hd Hc. unfold image_rows, has_width. rewrite Forall_map.
  eapply Forall_impl; [|apply (has_width_slice cols); exact Hd].
  intros r Hr; simpl in Hr. unfold slice.
  rewrite length_firstn, length_skipn. lia.
Qed.

Lemma Forall_unflatten {A : Type} (P : A -> Prop) (n m : nat) (l : list A) :
  length l = (n * m)%nat -> Forall P l ->
  Forall (fun row => length row = m /\ Forall P row) (unflatten n m l).
Proof.
  revert l; induction n as [|n IH]; intros l Hl HP; cbn [unflatten];
    constructor.
  - split; [rewrite length_firstn; lia|now apply Forall_firstn].
  - apply IH; [rewrite length_skipn; lia|now apply Forall_skipn].
Qed.

Lemma ceil_div_pos (a b : nat) : (1 <= a)%nat -> (1 <= b)%nat -> (1 <= ceil_div a b)%nat.
Proof.
  intros Ha Hb. destruct (ceil_div_bounds a b Hb) as [H1 _].
  destruct (ceil_div a b); simpl in *; lia.
Qed.

(** X16. For an image that lies in a dataset of at least six columns,
    with [H >= 1], [chunk_size >= 1], [hn <= hf], draws in [[0, 1)] and the
    network of [__init__], the chunk loop of [test] returns a raster of
    [H] rows of [W] pixels of three channels.  Over the reals every
    channel lies in [[0, 1]]; the bound is that of exact arithmetic, and
    the last bit of a binary32 channel can pass [1]. *)
Theorem test_image_raster
    (w : nat -> nat -> nat -> R) (b : nat -> nat -> R) (Lx Ld Wd : nat)
    (hn hf : R) (dataset : tensor2) (cols chunk_size img_index nb_bins H W : nat)
    (rand : nat -> nat -> nat -> R) :
  (1 <= chunk_size)%nat -> (1 <= H)%nat ->
  ((img_index + 1) * H * W <= length dataset)%nat ->
  has_width cols dataset -> (6 <= cols)%nat ->
  hn <= hf -> (forall i b k, 0 <= rand i b k < 1) ->
  exists img,
    test_image (init_with w b Lx Ld Wd) hn hf dataset chunk_size img_index
               nb_bins H W rand = Some img
    /\ length img = H
    /\ Forall (fun row =>
                 length row = W
                 /\ Forall (fun p => length p = 3%nat /\ Forall unit_interval p) row)
              img.
Proof.
  intros Hcs HH Hlen Hcols H6 Hnf Hu. unfold test_image.
  destruct (Nat.eqb_spec chunk_size 0) as [E0|_]; [lia|].
  set (o := image_rows dataset img_index H W 0 3).
  set (d := image_rows dataset img_index H W 3 6).
  assert (Lo : length o = (H * W)%nat) by now apply length_image_rows.
  assert (Ld' : length d = (H * W)%nat) by now apply length_image_rows.
  assert (Wo : has_width 3 o).
  { apply (has_width_image_rows cols dataset img_index H W 0); [assumption|lia]. }
  assert (Wd' : has_width 3 d).
  { apply (has_width_image_rows cols dataset img_index H W 3); [assumption|lia]. }
  destruct (render_chunks_init_returns w b Lx Ld Wd o d hn hf chunk_size nb_bins W
              rand (ceil_div H chunk_size) Wo Wd' ltac:(lia) Hnf Hu)
    as (data & E & Hpx).
  rewrite E. cbn [obind].
  destruct (render_chunks_rows _ _ _ _ _ _ _ _ _ _ _ E) as (Hk & Hrows & _).
  pose proof (ceil_div_pos H chunk_size HH Hcs) as Hpos.
  destruct (ceil_div_bounds H chunk_size Hcs) as [Hb1 _].
  destruct data as [|px data]; [simpl in Hk; lia|].
  cbn [torch_cat obind]. set (img := concat (px :: data)) in *.
  assert (Limg : length img = (H * W)%nat).
  { rewrite Hrows, length_firstn, Lo. nia. }
  assert (Wimg : has_width 3 img).
  { unfold has_width. eapply Forall_impl; [|exact Hpx]. now intros p [Hp _]. }
  unfold reshape3. rewrite (length_concat_width 3 img Wimg), Limg, Nat.eqb_refl.
  replace (unflatten (H * W) 3 (concat img)) with img
    by (rewrite <- Limg; symmetry; now apply unflatten_concat).
  eexists. split; [reflexivity|]. split; [apply length_unflatten|].
  now apply Forall_unflatten.
Qed.

Lemma test_image_raster_witness :
  exists img,
    test_image (init_with (fun k r c => INR (k + r + c)) (fun k r => - INR (k + r))
                          2 1 4)
               2 6 [[0; 0; 0; 0; 0; 1; 1; 1; 1]; [1; 0; 0; 0; 1; 0; 0; 0; 0]]
               1 0 3 2 1 (fun _ _ _ => 1 / 2) = Some img
    /\ length img = 2%nat
    /\ Forall (fun row =>
                 length row = 1%nat
                 /\ Forall (fun p => length p = 3%nat /\ Forall unit_interval p) row)
              img.
Proof.
  apply (test_image_raster
           (fun k r c => INR (k + r + c)) (fun k r => - INR (k + r)) 2 1 4
           2 6 [[0; 0; 0; 0; 0; 1; 1; 1; 1]; [1; 0; 0; 0; 1; 0; 0; 0; 0]]
           9 1 0 3 2 1 (fun _ _ _ => 1 / 2)).
  - lia.
  - lia.
  - simpl. lia.
  - repeat constructor.
  - lia.
  - lra.
  - intros; lra.
Defined.

(** *** What [test] reads of the dataset *)

Lemma slice_firstn {A : Type} (a b n : nat) (r : list A) :
  (b <= n)%nat -> slice a b (firstn n r) = slice a b r.
Proof.
  intros H. unfold slice. rewrite skipn_firstn_comm, firstn_firstn.
  f_equal. lia.
Qed.

Lemma image_rows_firstn (dataset : tensor2) (img_index H W a b : nat) :
  (b <= 6)%nat ->
  image_rows dataset img_index H W a b
  = map (slice a b)
        (map (firstn 6)
             (slice (img_index * H * W) ((img_index + 1) * H * W) dataset)).
Proof.
  intros Hb. unfold image_rows. rewrite map_map. apply map_ext. intros r.
  now rewrite slice_firstn.
Qed.

(** X17. [test] reads of the dataset only the first six columns of the
    rows of its image: two datasets that agree there give the same raster
    (and raise together); the ground-truth colours and the rows of the
    other images have no effect. *)
Theorem test_image_reads_only_its_rays
    (model : NerfModel.t) (hn hf : R) (dataset dataset' : tensor2)
    (chunk_size img_index nb_bins H W : nat) (rand : nat -> nat -> nat -> R) :
  map (firstn 6) (slice (img_index * H * W) ((img_index + 1) * H * W) dataset)
  = map (firstn 6) (slice (img_index * H * W) ((img_index + 1) * H * W) dataset') ->
  test_image model hn hf dataset chunk_size img_index nb_bins H W rand
  = test_image model hn hf dataset' chunk_size img_index nb_bins H W rand.
Proof.
  intros E. unfold test_image.
  rewrite !(image_rows_firstn dataset), !(image_rows_firstn dataset') by lia.
  now rewrite E.
Qed.

Lemma test_image_reads_only_its_rays_witness :
  test_image (init 0 0 1 (1 / 2) 1) 2 6
             [[0; 0; 0; 0; 0; 1; 1; 1; 1]] 10 0 2 1 1 (fun _ _ _ => 1 / 2)
  = test_image (init 0 0 1 (1 / 2) 1) 2 6
               [[0; 0; 0; 0; 0; 1; 0; 0; 0]; [5; 5; 5; 5; 5; 5; 5; 5; 5]]
               10 0 2 1 1 (fun _ _ _ => 1 / 2).
Proof.
  apply (test_image_reads_only_its_rays (init 0 0 1 (1 / 2) 1) 2 6
           [[0; 0; 0; 0; 0; 1; 1; 1; 1]]
           [[0; 0; 0; 0; 0; 1; 0; 0; 0]; [5; 5; 5; 5; 5; 5; 5; 5; 5]]
           10 0 2 1 1 (fun _ _ _ => 1 / 2)).
  reflexivity.
Defined.

(** *** An image that is not in the dataset *)

Lemma length_concat_le {A : Type} (m : nat) (l : list (list A)) :
  Forall (fun r => (length r <= m)%nat) l ->
  (length (concat l) <= length l * m)%nat.
Proof.
  induction 1 as [|r l Hr _ IH]; simpl; [lia|]. rewrite length_app. lia.
Qed.

Lemma ceil_div_zero (b : nat) : ceil_div 0 b = 0%nat.
Proof.
  unfold ceil_div. destruct b as [|b]; [reflexivity|].
  apply Nat.div_small. lia.
Qed.

(** The raster cannot be shaped when rows of the image are missing, and
    there is nothing to join when the image has no row at all. *)
Lemma test_image_incomplete (model : NerfModel.t) (hn hf : R) (dataset : tensor2)
      (chunk_size img_index nb_bins H W : nat) (rand : nat -> nat -> nat -> R) :
  (length dataset < (img_index + 1) * H * W)%nat \/ H = 0%nat
  \/ chunk_size = 0%nat ->
  test_image model hn hf dataset chunk_size img_index nb_bins H W rand = None.
Proof.
  intros Hcase. unfold test_image.
  destruct (Nat.eqb_spec chunk_size 0) as [E0|Hcs]; [reflexivity|].
  set (o := image_rows dataset img_index H W 0 3).
  set (d := image_rows dataset img_index H W 3 6).
  destruct (render_chunks _ _ _ _ _ _ _ _ _ _) as [data|] eqn:E; cbn [obind];
    [|reflexivity].
  destruct (render_chunks_rows _ _ _ _ _ _ _ _ _ _ _ E) as (Hk & Hrows & Hw).
  destruct Hcase as [Hshort|[HH|Hz]]; [| |contradiction].
  - destruct data as [|px data]; [reflexivity|].
    cbn [torch_cat obind]. set (img := concat (px :: data)) in *.
    unfold reshape3.
    destruct (Nat.eqb_spec (length (concat img)) (H * W * 3)) as [El|]; [|reflexivity].
    exfalso.
    pose proof (length_concat_le 3 img Hw) as Hle.
    assert (Lo : (length o < H * W)%nat).
    { unfold o, image_rows, slice.
      rewrite length_map, length_firstn, length_skipn. nia. }
    rewrite Hrows, length_firstn in Hle. lia.
  - subst H. rewrite ceil_div_zero in Hk.
    destruct data; [reflexivity|discriminate].
Qed.

(** X18. [test] raises, whatever the network, when the dataset does not
    hold all [H * W] rows of the image, when [H = 0] (there is no chunk to
    join) and when [chunk_size = 0] (a division by zero). *)
Theorem test_image_raises_without_rows
    (model : NerfModel.t) (hn hf : R) (dataset : tensor2)
    (chunk_size img_index nb_bins H W : nat) (rand : nat -> nat -> nat -> R) :
  (length dataset < (img_index + 1) * H * W)%nat \/ H = 0%nat
  \/ chunk_size = 0%nat ->
  test_image model hn hf dataset chunk_size img_index nb_bins H W rand = None.
Proof. apply test_image_incomplete. Qed.

Lemma test_image_raises_without_rows_witness :
  test_image (init 0 0 1 (1 / 2) 1) 2 6
             [[0; 0; 0; 0; 0; 1; 1; 1; 1]; [1; 0; 0; 0; 1; 0; 0; 0; 0]]
             10 1 192 2 1 (fun _ _ _ => 1 / 2) = None.
Proof.
  apply (test_image_raises_without_rows (init 0 0 1 (1 / 2) 1) 2 6
           [[0; 0; 0; 0; 0; 1; 1; 1; 1]; [1; 0; 0; 0; 1; 0; 0; 0; 0]]
           10 1 192 2 1 (fun _ _ _ => 1 / 2)).
  left. simpl. lia.
Defined.

End RasterFacts.

(** ** More on the training loop *)

Module LoopFacts.
Import NerfModel NerfModelFacts RenderFacts TestFacts TrainFacts RasterFacts.


Section Run.
Variables Opt Sched Grad : Type.
Variable noise : nat -> nat -> nat -> R.
Variable loader_batches : nat -> list (list (list R)).
Variable backward : NerfModel.t -> list (list R) -> (nat -> nat -> R) -> Grad.
Variable optimizer_step : Opt -> NerfModel.t -> Grad -> Opt * NerfModel.t.
Variable scheduler_step : Sched -> Opt -> Sched * Opt.
Variable savefig_ok : list (nat * list (list (list R))) -> nat -> bool.
Variable testing_dataset : list (list R).

#[local] Abbreviation world := (World Opt Sched).
#[local] Abbreviation result' := (result Opt Sched).
#[local] Abbreviation evaluate' := (evaluate noise savefig_ok testing_dataset).
#[local] Abbreviation train_batches' := (train_batches noise backward optimizer_step).
#[local] Abbreviation train_epochs' :=
  (train_epochs noise loader_batches backward optimizer_step scheduler_step).
#[local] Abbreviation train' :=
  (train noise loader_batches backward optimizer_step scheduler_step
         savefig_ok testing_dataset).

(** The pass over the test images raises as soon as one of them cannot
    be rendered. *)
Lemma evaluate_raises_at (indices : list nat) (img_index : nat) (w : world)
      (rng : nat) (hn hf : R) (nb_bins H W : nat) :
  In img_index indices ->
  (forall model rand,
     test_image model hn hf testing_dataset default_chunk_size img_index
                nb_bins H W rand = None) ->
  exists e w', evaluate' indices w rng hn hf nb_bins H W = Raise e w'.
Proof.
  intros Hin Hnone. revert w rng.
  induction indices as [|i indices IH]; intros w rng; [contradiction|].
  cbn [evaluate].
  destruct (test noise savefig_ok w rng hn hf testing_dataset default_chunk_size i
                 nb_bins H W) as [[w1 rng1]|e w1] eqn:Et; [|eauto].
  destruct Hin as [->|Hin]; [|now apply IH].
  unfold test in Et. rewrite Hnone in Et. discriminate.
Qed.

(** X19. [train] needs the 200 test images: when [testing_dataset] holds
    fewer than [200 * H * W] rows, or [H = 0], every call of [train] with
    at least one epoch raises; no loss is returned. *)
Theorem train_needs_test_images
    (w : world) (rng : nat) (hn hf : R) (nb_epochs nb_bins H W : nat) :
  (length testing_dataset < test_images * H * W)%nat \/ H = 0%nat ->
  (1 <= nb_epochs)%nat ->
  exists e w', train' w rng hn hf nb_epochs nb_bins H W = Raise e w'.
Proof.
  intros Hd Hn. destruct nb_epochs as [|n]; [lia|].
  unfold train. cbn [train_epochs].
  destruct (train_batches' _ w (S rng) [] hn hf nb_bins)
    as [[[w1 rng1] L1]|e w1]; [|eauto].
  set (w2 := mkWorld _ _ _ _).
  destruct (evaluate_raises_at (seq 0 test_images) (test_images - 1) w2 rng1
              hn hf nb_bins H W) as (e & w3 & Ee).
  - apply in_seq. unfold test_images. lia.
  - intros model rand. apply test_image_incomplete.
    unfold test_images in *. destruct Hd as [Hd|Hd]; [left|right; left]; lia.
  - rewrite Ee. eauto.
Qed.

Lemma train_batches_length (batches : list (list (list R))) (w w' : world)
      (rng rng' : nat) (L L' : list R) (hn hf : R) (nb_bins : nat) :
  train_batches' batches w rng L hn hf nb_bins = Ok (w', rng', L') ->
  length L' = (length L + length batches)%nat.
Proof.
  revert w rng L; induction batches as [|b batches IH]; intros w rng L;
    cbn [train_batches].
  - intros E; injection E as _ _ <-. simpl. lia.
  - destruct (train_step noise backward optimizer_step w rng b hn hf nb_bins)
      as [[[w1 rng1] loss]|e w1]; [|discriminate].
    intros E. apply IH in E. rewrite length_app in E. simpl in *. lia.
Qed.


(** X21. When the loader yields the same number of mini-batches at
    every pass, a call of [train] that returns hands back
    [nb_epochs * batches_per_epoch] losses. *)
Theorem train_loss_count
    (w w' : world) (rng rng' : nat) (L : list R) (hn hf : R)
    (nb_epochs nb_bins H W batches_per_epoch : nat) :
  (forall c, length (loader_batches c) = batches_per_epoch) ->
  train' w rng hn hf nb_epochs nb_bins H W = Ok (w', rng', L) ->
  length L = (nb_epochs * batches_per_epoch)%nat.
Proof.
  intros Hk E. unfold train in E.
  assert (G : forall n (w : world) rng L0,
             train_epochs'
               (fun w rng => evaluate' (seq 0 test_images) w rng hn hf nb_bins H W)
               n w rng L0 hn hf nb_bins = Ok (w', rng', L) ->
             length L = (length L0 + n * batches_per_epoch)%nat).
  { clear E. induction n as [|n IH]; intros w0 rng0 L0; cbn [train_epochs].
    - intros E; injection E as _ _ <-. lia.
    - destruct (train_batches' _ w0 (S rng0) L0 hn hf nb_bins)
        as [[[w1 rng1] L1]|e w1] eqn:Eb; [|discriminate].
      destruct (evaluate' _ _ rng1 hn hf nb_bins H W) as [[w3 rng3]|e w3];
        [|discriminate].
      intros E. apply IH in E. apply train_batches_length in Eb.
      rewrite Hk in Eb. lia. }
  apply G in E. simpl in E. exact E.
Qed.

(** *** What a run that raises leaves behind *)

Lemma train_batches_raise_views (batches : list (list (list R))) (w w' : world)
      (rng : nat) (L : list R) (hn hf : R) (nb_bins : nat) (e : exn) :
  train_batches' batches w rng L hn hf nb_bins = Raise e w' ->
  novel_views w' = novel_views w.
Proof.
  revert w rng L; induction batches as [|b batches IH]; intros w rng L;
    cbn [train_batches]; [discriminate|].
  destruct (train_step noise backward optimizer_step w rng b hn hf nb_bins)
    as [[[w1 rng1] loss]|e1 w1] eqn:Es.
  - intros E. apply IH in E. apply train_step_views in Es. congruence.
  - intros E; injection E as <- <-. unfold train_step in Es.
    destruct (render_rays _ _ _ _ _ _ _); [discriminate|].
    now injection Es as _ <-.
Qed.

Lemma evaluate_raise_prefix (indices : list nat) (w w' : world) (rng : nat)
      (hn hf : R) (nb_bins H W : nat) (e : exn) :
  evaluate' indices w rng hn hf nb_bins H W = Raise e w' ->
  exists i, (i < length indices)%nat
            /\ map fst (novel_views w') = map fst (novel_views w) ++ firstn i indices.
Proof.
  revert w rng; induction indices as [|i0 indices IH]; intros w rng;
    cbn [evaluate]; [discriminate|].
  destruct (test noise savefig_ok w rng hn hf testing_dataset default_chunk_size i0
                 nb_bins H W) as [[w1 rng1]|e1 w1] eqn:Et.
  - intros E. destruct (IH _ _ E) as (i & Hi & Hv).
    apply test_returns in Et. destruct Et as (_ & Hv1 & _).
    exists (S i). split; [simpl; lia|].
    rewrite Hv, Hv1, <- app_assoc. reflexivity.
  - intros E; injection E as <- <-. apply test_raises in Et. subst w1.
    exists 0%nat. split; [simpl; lia|]. now rewrite app_nil_r.
Qed.

(** X22. What a call of [train] that raises leaves under
    [novel_views/]: the images [0 .. 199] of a number [k < nb_epochs] of
    complete epochs, followed by the images [0 .. i - 1] of the epoch that
    raised, for some [i < 200]; nothing is removed and nothing else is
    written. *)
Theorem train_raise_leaves_written_images
    (w w' : world) (rng : nat) (e : exn) (hn hf : R) (nb_epochs nb_bins H W : nat) :
  train' w rng hn hf nb_epochs nb_bins H W = Raise e w' ->
  exists k i,
    (k < nb_epochs)%nat /\ (i < test_images)%nat
    /\ map fst (novel_views w')
       = map fst (novel_views w)
         ++ concat (repeat (seq 0 test_images) k) ++ seq 0 i.
Proof.
  unfold train. generalize (@nil R) as L. revert w rng.
  induction nb_epochs as [|n IH]; intros w rng L; cbn [train_epochs];
    [discriminate|].
  destruct (train_batches' _ w (S rng) L hn hf nb_bins)
    as [[[w1 rng1] L1]|e1 w1] eqn:Eb.
  - apply train_batches_views in Eb.
    destruct (evaluate' _ _ rng1 hn hf nb_bins H W) as [[w3 rng3]|e3 w3] eqn:Ee.
    + intros E. destruct (IH _ _ _ E) as (k & i & Hk & Hi & Hv).
      apply evaluate_returns in Ee. destruct Ee as (_ & Hv3 & _).
      cbn [novel_views] in Hv3. rewrite Eb in Hv3.
      exists (S k), i. split; [lia|]. split; [assumption|].
      rewrite Hv, Hv3, concat_repeat_S, <- !app_assoc. reflexivity.
    + intros E; injection E as <- <-.
      apply evaluate_raise_prefix in Ee. destruct Ee as (i & Hi & Hv).
      rewrite length_seq in Hi. cbn [novel_views] in Hv. rewrite Eb in Hv.
      exists 0%nat, i. split; [lia|]. split; [assumption|].
      rewrite Hv, CompositorFacts.firstn_seq_le by lia. reflexivity.
  - intros E; injection E as <- <-. apply train_batches_raise_views in Eb.
    exists 0%nat, 0%nat. split; [lia|]. split; [unfold test_images; lia|].
    rewrite Eb. cbn [repeat concat seq app]. now rewrite app_nil_r.
Qed.

(** X23. [train] keeps no state of its own between epochs: a call for
    [k + m] epochs is a call for [k] epochs followed, when it returns, by a
    call for [m] epochs on the objects and the generator as the first
    call left them, the list of the first call put before the list of the
    second. *)
Theorem train_resumes
    (w : world) (rng : nat) (hn hf : R) (k m nb_bins H W : nat) :
  train' w rng hn hf (k + m) nb_bins H W
  = match train' w rng hn hf k nb_bins H W with
    | Raise e w' => Raise e w'
    | Ok (wk, rngk, Lk) =>
        prepend_losses Opt Sched Lk (train' wk rngk hn hf m nb_bins H W)
    end.
Proof.
  unfold train. rewrite train_epochs_add.
  destruct (train_epochs' _ k w rng [] hn hf nb_bins) as [[[wk rngk] Lk]|e wk];
    [|reflexivity].
  rewrite <- (app_nil_r Lk) at 1. apply train_epochs_acc.
Qed.

End Run.

(** One epoch of the small run returns. *)
Lemma demo_epoch_returns :
  exists w' rng' L,
    demo_train (always true) demo_testing_dataset 1 = Ok (w', rng', L).
Proof. do 3 eexists. eval_lists. reflexivity. Qed.


Lemma train_loss_count_witness :
  exists w' rng' L,
    demo_train (always true) demo_testing_dataset 1 = Ok (w', rng', L)
    /\ length L = (1 * 1)%nat.
Proof.
  destruct demo_epoch_returns as (w' & rng' & L & E). exists w', rng', L.
  split; [exact E|].
  exact (train_loss_count unit nat unit demo_noise demo_loader demo_backward
           demo_optimizer_step demo_scheduler_step (always true)
           demo_testing_dataset demo_world w' 0 rng' L 2 6 1 1 1 1 1
           (fun _ => eq_refl) E).
Defined.

Lemma train_raise_leaves_written_images_witness :
  exists e w',
    demo_train (always true) [[0; 0; 0; 0; 0; 1; 1; 1; 1]] 2 = Raise e w'
    /\ exists k i,
         (k < 2)%nat /\ (i < test_images)%nat
         /\ map fst (novel_views w')
            = map fst (novel_views demo_world)
              ++ concat (repeat (seq 0 test_images) k) ++ seq 0 i.
Proof.
  destruct (demo_train (always true) [[0; 0; 0; 0; 0; 1; 1; 1; 1]] 2)
    as [[[w' rng'] L]|e w'] eqn:E.
  - exfalso. revert E. eval_lists. discriminate.
  - exists e, w'. split; [reflexivity|].
    exact (train_raise_leaves_written_images _ _ _ _ _ _ _ _ _ _ _ _ _ _ _ _ _ _ _ _ E).
Defined.

Lemma train_needs_test_images_witness :
  exists e w',
    train demo_noise demo_loader demo_backward demo_optimizer_step
          demo_scheduler_step (always true) [[0; 0; 0; 0; 0; 1; 1; 1; 1]]
          demo_world 0 2 6 16 192 1 1 = Raise e w'.
Proof.
  apply (train_needs_test_images unit nat unit demo_noise demo_loader
           demo_backward demo_optimizer_step demo_scheduler_step (always true)
           [[0; 0; 0; 0; 0; 1; 1; 1; 1]] demo_world 0 2 6 16 192 1 1).
  - left. unfold test_images. cbn [length]. lia.
  - lia.
Defined.

End LoopFacts.

(** ** The last sample and its sentinel interval *)

Module SentinelFacts.
Import SamplerFacts CompositorFacts RenderFacts.

Lemma nth_nth_unflatten (n m b i : nat) (l : tensor1) :
  (b < n)%nat -> (i < m)%nat ->
  nth i (nth b (unflatten n m l) []) 0 = nth (b * m + i) l 0.
Proof.
  intros Hb Hi. rewrite nth_unflatten by assumption.
  rewrite nth_firstn. destruct (Nat.ltb_spec i m); [|lia].
  now rewrite nth_skipn.
Qed.

Lemma nth_nth_unflatten_rows (n m b i : nat) (l : tensor2) :
  (b < n)%nat -> (i < m)%nat ->
  nth i (nth b (unflatten n m l) []) [] = nth (b * m + i) l [].
Proof.
  intros Hb Hi. rewrite nth_unflatten by assumption.
  rewrite nth_firstn. destruct (Nat.ltb_spec i m); [|lia].
  now rewrite nth_skipn.
Qed.

Lemma last_deltas_row (t : tensor1) (n' : nat) :
  length t = S n' -> nth n' (deltas_row t) 0 = last_delta.
Proof.
  intros Ht. unfold deltas_row.
  rewrite app_nth2 by (rewrite map2_length, length_tl, length_removelast; lia).
  rewrite map2_length, length_tl, length_removelast, Ht.
  replace (n' - Nat.min (S n' - 1) (S n' - 1))%nat with 0%nat by lia.
  reflexivity.
Qed.

Lemma sum_zeros (f : nat -> R) (n : nat) :
  (forall i, (i < n)%nat -> f i = 0) -> sum (map f (seq 0 n)) = 0.
Proof.
  intros H. induction n as [|n IH]; [reflexivity|].
  rewrite sum_seq_S, IH, H by auto. ring.
Qed.

(** The quadrature when only the last sample has a density. *)
Lemma spec_pixel_last (n' : nat) (c : nat -> nat -> R) (sg dl : nat -> R) (k : nat) :
  (forall i, (i < n')%nat -> sg i = 0) -> (k < 3)%nat ->
  spec_pixel (S n') c sg dl k
  = (1 - exp (- (sg n' * dl n'))) * c n' k + (1 - (1 - exp (- (sg n' * dl n')))).
Proof.
  intros Hz Hk.
  assert (Hw : forall i, (i < n')%nat -> spec_weight sg dl i = 0).
  { intros i Hi. now apply (weight_zero n'). }
  assert (HT : spec_transmittance sg dl n' = 1).
  { pose proof (weights_telescope sg dl n') as H.
    rewrite (sum_zeros _ n' Hw) in H. lra. }
  assert (Hlast : spec_weight sg dl n' = 1 - exp (- (sg n' * dl n'))).
  { unfold spec_weight. rewrite HT. unfold spec_alpha. ring. }
  unfold spec_pixel, spec_weight_sum. rewrite !sum_seq_S.
  rewrite (sum_zeros _ n' Hw).
  rewrite (sum_zeros (fun i => spec_weight sg dl i * c i k) n')
    by (intros i Hi; rewrite Hw by assumption; ring).
  rewrite Hlast.
  replace (nth k white 0) with 1.
  - ring.
  - unfold white. destruct k as [|[|[|k]]]; try reflexivity. lia.
Qed.

(** X24. When only the last sample of a ray has a density, the pixel is
    the colour of that sample blended over white: with
    [alpha = 1 - exp (- sigma_last * 1e10)], every channel is
    [alpha * c_last + (1 - alpha)].  The interval of the last sample is
    the sentinel [1e10], whatever the depths drawn. *)
Theorem render_rays_last_sample
      (nerf_model : tensor2 -> tensor2 -> option (tensor2 * tensor1))
      (o d : tensor2) (hn hf : R) (n' : nat) (rand : nat -> nat -> R)
      (colors : tensor2) (sigma : tensor1) :
  let n := length o in
  let nb_bins := S n' in
  let t := sample_depths n hn hf nb_bins rand in
  nerf_model (concat (sample_points o d t)) (concat (expand_directions nb_bins d))
    = Some (colors, sigma) ->
  has_width 3 colors ->
  length colors = (n * nb_bins)%nat ->
  length sigma = (n * nb_bins)%nat ->
  (forall b i, (b < n)%nat -> (i < n')%nat -> nth (b * nb_bins + i) sigma 0 = 0) ->
  exists px,
    render_rays nerf_model o d hn hf nb_bins rand = Some px
    /\ length px = n
    /\ forall b k, (b < n)%nat -> (k < 3)%nat ->
         let alpha := 1 - exp (- (nth (b * nb_bins + n') sigma 0 * 1e10)) in
         nth k (nth b px []) 0
         = alpha * nth k (nth (b * nb_bins + n') colors []) 0 + (1 - alpha).
Proof.
  intros n nb_bins t Hout Hw Hc Hs Hz.
  set (delta := sample_deltas n t).
  assert (Hd : length delta = n) by apply length_sample_deltas.
  assert (Hdl : forall b, (b < n)%nat -> (nb_bins <= length (nth b delta []))%nat).
  { intros b Hb. now apply nth_sample_deltas. }
  exists (map (quadrature_pixel nb_bins (unflatten n nb_bins colors)
                                (unflatten n nb_bins sigma) delta) (seq 0 n)).
  split.
  { rewrite (render_rays_composite nerf_model o d hn hf nb_bins rand colors sigma
               Hout Hw Hc Hs).
    fold n t delta. f_equal. now apply composite_quadrature. }
  rewrite length_map, length_seq. split; [reflexivity|].
  intros b k Hb Hk alpha.
  rewrite (nth_map_seq _ 0 n b []) by assumption. cbn [Nat.add].
  unfold quadrature_pixel. rewrite (nth_map_seq _ 0 3 k 0) by assumption.
  cbn [Nat.add]. unfold nb_bins at 1. rewrite spec_pixel_last; [|  |assumption].
  - rewrite nth_nth_unflatten, nth_nth_unflatten_rows by (unfold nb_bins; lia).
    unfold delta, t. rewrite nth_sample_deltas_row by assumption.
    rewrite last_deltas_row.
    + reflexivity.
    + rewrite length_jitter_row; rewrite length_linspace;
        [reflexivity|now rewrite length_map, length_seq].
  - intros i Hi. rewrite nth_nth_unflatten by (unfold nb_bins; lia).
    now apply Hz.
Qed.

Lemma render_rays_last_sample_witness :
  exists px,
    render_rays (fun x _ => Some (map (fun _ => [1 / 4; 1 / 2; 3 / 4]) x, [0; 3]))
                [[0; 0; 0]] [[0; 0; 1]] 2 6 2 (fun _ _ => 1 / 2) = Some px
    /\ length px = 1%nat
    /\ forall b k, (b < 1)%nat -> (k < 3)%nat ->
         let alpha := 1 - exp (- (nth (b * 2 + 1) [0; 3] 0 * 1e10)) in
         nth k (nth b px []) 0
         = alpha * nth k (nth (b * 2 + 1)
                              [[1 / 4; 1 / 2; 3 / 4]; [1 / 4; 1 / 2; 3 / 4]] []) 0
           + (1 - alpha).
Proof.
  apply (render_rays_last_sample
           (fun x _ => Some (map (fun _ => [1 / 4; 1 / 2; 3 / 4]) x, [0; 3]))
           [[0; 0; 0]] [[0; 0; 1]] 2 6 1 (fun _ _ => 1 / 2)
           [[1 / 4; 1 / 2; 3 / 4]; [1 / 4; 1 / 2; 3 / 4]] [0; 3]).
  - reflexivity.
  - repeat constructor.
  - reflexivity.
  - reflexivity.
  - intros b i Hb Hi. cbn [length] in Hb.
    assert (b = 0)%nat as -> by lia.
    assert (i = 0)%nat as -> by lia. reflexivity.
Defined.

End SentinelFacts.

(** ** The losses [train] returns *)

Module LossFacts.
Import NerfModel NerfModelFacts CompositorFacts RenderFacts TrainFacts
       RenderNetworkFacts RasterFacts.

(** The summed squared per-channel, per-ray colour error of a mini-batch
    of 9-column rows against the rendered pixels, written out as the
    double sum over the rays and the three channels. *)
Definition spec_colour_error (batch px : tensor2) : R :=
  sum (map (fun r =>
              sum (map (fun k => (nth (6 + k) (nth r batch []) 0
                                  - nth k (nth r px []) 0) ^ 2)
                       (seq 0 3)))
           (seq 0 (length batch))).

Lemma length_sum_dim1_rows (rows : tensor2) :
  has_width 3 rows -> length (sum_dim1 rows) = 3%nat.
Proof.
  unfold sum_dim1. induction 1 as [|r rows Hr _ IH]; cbn [fold_right].
  - reflexivity.
  - rewrite map2_length, IH, Hr. reflexivity.
Qed.

Lemma has_width_map2_mul_broadcast (weights colors : tensor2) :
  has_width 3 colors -> has_width 3 (map2 mul_broadcast weights colors).
Proof.
  intros H. revert weights. induction H as [|c colors Hc _ IH]; intros [|w weights];
    cbn [map2]; constructor.
  - unfold mul_broadcast. now rewrite length_map.
  - apply IH.
Qed.

Lemma has_width_composite (colors : tensor3) (sigma delta : tensor2) :
  Forall (has_width 3) colors -> has_width 3 (composite colors sigma delta).
Proof.
  intros H. rewrite composite_rows. revert sigma delta.
  induction H as [|cb colors Hcb _ IH]; intros sigma delta.
  - constructor.
  - destruct (combine sigma delta) as [|sd rest] eqn:E; cbn [map2]; [constructor|].
    destruct sigma as [|sb sigma]; [discriminate|].
    destruct delta as [|db delta]; [discriminate|].
    injection E as <- <-. constructor.
    + unfold composite_row. rewrite length_map. apply length_sum_dim1_rows.
      now apply has_width_map2_mul_broadcast.
    + apply IH.
Qed.

Lemma has_width_unflatten_rows (n : nat) (flat : tensor1) :
  length flat = (n * 3)%nat -> has_width 3 (unflatten n 3 flat).
Proof.
  revert flat; induction n as [|n IH]; intros flat H; cbn [unflatten]; constructor.
  - rewrite length_firstn. lia.
  - apply IH. rewrite length_skipn. lia.
Qed.

Lemma Forall_unflatten_groups {A : Type} (P : A -> Prop) (n m : nat) (l : list A) :
  Forall P l -> Forall (Forall P) (unflatten n m l).
Proof.
  revert l; induction n as [|n IH]; intros l H; cbn [unflatten]; constructor.
  - now apply Forall_firstn.
  - apply IH. now apply Forall_skipn.
Qed.

Lemma render_rays_shape
      (nerf_model : tensor2 -> tensor2 -> option (tensor2 * tensor1))
      (o d : tensor2) (hn hf : R) (nb_bins : nat) (rand : nat -> nat -> R)
      (px : tensor2) :
  render_rays nerf_model o d hn hf nb_bins rand = Some px ->
  length px = length o /\ has_width 3 px.
Proof.
  intros E. split; [now apply length_render_rays in E|]. revert E.
  unfold render_rays.
  destruct (nerf_model _ _) as [[colors sigma]|]; cbn [obind fst snd]; [|discriminate].
  unfold reshape3, reshape2.
  destruct (Nat.eqb_spec (length (concat colors)) (length o * nb_bins * 3));
    cbn [obind]; [|discriminate].
  destruct (Nat.eqb _ _); cbn [obind]; [|discriminate].
  intros E; injection E as <-.
  apply has_width_composite. apply Forall_unflatten_groups.
  now apply has_width_unflatten_rows.
Qed.

Lemma sum_app (a b : tensor1) : sum (a ++ b) = sum a + sum b.
Proof. unfold sum. induction a as [|x a IH]; simpl; [lra|]. rewrite IH. lra. Qed.

(** On 9-column rows and 3-channel pixels, one per row, the loss of
    [train] is the double sum. *)
Lemma squared_error_spec (batch px : tensor2) :
  has_width 9 batch -> has_width 3 px -> length px = length batch ->
  squared_error (map (skipn 6) batch) px = spec_colour_error batch px.
Proof.
  unfold squared_error, spec_colour_error. intros Hb. revert px.
  induction Hb as [|r batch Hr Hb IH]; intros [|p px] Hp Hl; try discriminate.
  - reflexivity.
  - inversion Hp as [|? ? Hp1 Hp2]; subst.
    cbn [map map2 concat length]. rewrite sum_app.
    change (seq 0 (S (length batch))) with (0%nat :: seq 1 (length batch)).
    rewrite <- seq_shift. cbn [map]. rewrite map_map.
    change (sum (?a :: ?l)) with (a + sum l).
    cbn [nth]. rewrite <- (IH px Hp2) by (simpl in Hl; lia). f_equal.
    destruct r as [|r0 [|r1 [|r2 [|r3 [|r4 [|r5 [|r6 [|r7 [|r8 [|r9 r]]]]]]]]]];
      try discriminate.
    destruct p as [|p0 [|p1 [|p2 [|p3 p]]]]; try discriminate.
    unfold sum. simpl. lra.
Qed.

Section Losses.
Variables Opt Sched Grad : Type.
Variable noise : nat -> nat -> nat -> R.
Variable loader_batches : nat -> list (list (list R)).
Variable backward : NerfModel.t -> list (list R) -> (nat -> nat -> R) -> Grad.
Variable optimizer_step : Opt -> NerfModel.t -> Grad -> Opt * NerfModel.t.
Variable scheduler_step : Sched -> Opt -> Sched * Opt.
Variable savefig_ok : list (nat * list (list (list R))) -> nat -> bool.
Variable testing_dataset : list (list R).

#[local] Abbreviation world := (World Opt Sched).
#[local] Abbreviation result' := (result Opt Sched).
#[local] Abbreviation step := (Step Opt Sched).
#[local] Abbreviation evaluate' := (evaluate noise savefig_ok testing_dataset).
#[local] Abbreviation train_step' := (train_step noise backward optimizer_step).
#[local] Abbreviation train_batches' := (train_batches noise backward optimizer_step).
#[local] Abbreviation train_epochs' :=
  (train_epochs noise loader_batches backward optimizer_step scheduler_step).
#[local] Abbreviation batch_history' :=
  (batch_history noise backward optimizer_step).
#[local] Abbreviation history' :=
  (history noise loader_batches backward optimizer_step scheduler_step).

(** The state of the random source at the start of epoch [e] of a run
    that started at [rng]: an epoch takes one call for the shuffle, one
    per mini-batch and one per chunk of each test image. *)
Fixpoint epoch_start (H rng e : nat) : nat :=
  match e with
  | O => rng
  | S e' =>
      epoch_start H
        (rng + 1 + length (loader_batches rng)
         + test_images * ceil_div H default_chunk_size)%nat e'
  end.

(** The network after the update of one step. *)
Definition updated_model (s : step) : NerfModel.t :=
  snd (optimizer_step (optimizer (step_world s)) (model (step_world s))
         (backward (model (step_world s)) (step_batch s) (noise (step_rng s)))).

(** Every step finds the network as the step before it left it: the first
    one finds [m], and [m'] is what the last one leaves. *)
Fixpoint models_chain (m : NerfModel.t) (steps : list step) (m' : NerfModel.t)
  : Prop :=
  match steps with
  | [] => m' = m
  | s :: rest => model (step_world s) = m /\ models_chain (updated_model s) rest m'
  end.

Lemma models_chain_app (m m1 m2 : NerfModel.t) (a b : list step) :
  models_chain m a m1 -> models_chain m1 b m2 -> models_chain m (a ++ b) m2.
Proof.
  revert m; induction a as [|s a IH]; intros m; cbn [models_chain app].
  - now intros ->.
  - intros [Hs Ha] Hb. split; [exact Hs|]. now apply IH.
Qed.

Lemma batch_history_run (batches : list (list (list R))) (w w' : world)
      (rng rng' : nat) (ls : list R) (hn hf : R) (nb_bins : nat) :
  train_batches' batches w rng [] hn hf nb_bins = Ok (w', rng', ls) ->
  map step_rng (batch_history' batches w rng hn hf nb_bins)
  = seq rng (length batches)
  /\ models_chain (model w) (batch_history' batches w rng hn hf nb_bins) (model w')
  /\ rng' = (rng + length batches)%nat.
Proof.
  revert w rng ls; induction batches as [|b batches IH]; intros w rng ls;
    cbn [train_batches batch_history].
  - intros E; injection E as <- <- _. cbn [map length seq models_chain].
    repeat split. lia.
  - destruct (train_step' w rng b hn hf nb_bins) as [[[w1 rng1] loss]|e w1] eqn:Es;
      [|discriminate].
    rewrite (train_batches_acc _ _ _ noise backward optimizer_step batches w1 rng1 [loss] []).
    destruct (train_batches' batches w1 rng1 [] hn hf nb_bins)
      as [[[w2 rng2] L2]|e w2] eqn:E1; [|discriminate].
    cbn [prepend_losses]. intros E; injection E as <- <- _.
    destruct (IH _ _ _ E1) as (Hr & Hm & Hn).
    unfold train_step in Es.
    destruct (render_rays _ _ _ _ _ _ _); [|discriminate].
    injection Es as <- <- _.
    cbn [map length seq models_chain step_rng step_world]. rewrite Hr.
    repeat split; [exact Hm | lia].
Qed.

Lemma history_run (n : nat) (w w' : world) (rng rng' : nat) (L : list R)
      (hn hf : R) (nb_bins H W : nat) :
  train_epochs' (fun w rng => evaluate' (seq 0 test_images) w rng hn hf nb_bins H W)
                n w rng [] hn hf nb_bins = Ok (w', rng', L) ->
  let steps :=
    history' (fun w rng => evaluate' (seq 0 test_images) w rng hn hf nb_bins H W)
             n w rng hn hf nb_bins in
  map step_batch steps
  = concat (map (fun e => loader_batches (epoch_start H rng e)) (seq 0 n))
  /\ map step_rng steps
     = concat (map (fun e => seq (S (epoch_start H rng e))
                                 (length (loader_batches (epoch_start H rng e))))
                   (seq 0 n))
  /\ models_chain (model w) steps (model w').
Proof.
  revert w rng L; induction n as [|n IH]; intros w rng L;
    cbn [train_epochs history]; cbv zeta.
  - intros E; injection E as <- _ _. cbn. auto.
  - destruct (train_batches' _ w (S rng) [] hn hf nb_bins)
      as [[[w1 rng1] L1]|e w1] eqn:Eb; [|discriminate].
    destruct (evaluate' _ _ rng1 hn hf nb_bins H W) as [[w3 rng3]|e w3] eqn:Ee;
      [|discriminate].
    rewrite <- (app_nil_r L1) at 1. rewrite train_epochs_acc.
    destruct (train_epochs' _ n w3 rng3 [] hn hf nb_bins)
      as [[[w4 rng4] L4]|e w4] eqn:En; [|discriminate].
    cbn [prepend_losses]. intros E; injection E as <- <- _.
    specialize (IH _ _ _ En). cbv zeta in IH. destruct IH as (Hb & Hr & Hm).
    destruct (batch_history_run _ _ _ _ _ _ _ _ _ Eb) as (Hr1 & Hm1 & Hn1).
    pose proof Eb as Hb1. apply train_batches_history in Hb1. destruct Hb1 as [_ Hb1].
    apply evaluate_returns in Ee. destruct Ee as ((M3 & _ & _) & _ & R3).
    cbn [model] in M3. rewrite length_seq in R3.
    assert (Hs : rng3 = (rng + 1 + length (loader_batches rng)
                         + test_images * ceil_div H default_chunk_size)%nat) by lia.
    change (seq 0 (S n)) with (0%nat :: seq 1 n).
    rewrite <- seq_shift. cbn [map concat]. rewrite !map_map.
    cbn [epoch_start]. rewrite <- Hs. rewrite !map_app.
    rewrite Hb, Hr, Hb1, Hr1. repeat split.
    apply models_chain_app with (model w1); [exact Hm1|]. now rewrite <- M3.
Qed.

(** C10. A run of [train] that returns hands back one loss per mini-batch
    processed, in the order of processing over all epochs: the
    mini-batches are those the loader yields epoch after epoch, each
    rendered with the draws of its own call of the random source and with
    the network as the updates of all earlier mini-batches left it.  Each
    entry is the loss [train] computes for its mini-batch; for rows of 9
    columns that is the sum, over the rays and the 3 channels, of the
    squared difference between the colour of the row and the rendered
    pixel. *)
Theorem train_returns_losses
    (w w' : world) (rng rng' : nat) (L : list R) (hn hf : R)
    (nb_epochs nb_bins H W : nat) :
  train noise loader_batches backward optimizer_step scheduler_step
        savefig_ok testing_dataset w rng hn hf nb_epochs nb_bins H W
  = Ok (w', rng', L) ->
  let steps :=
    history' (fun w rng => evaluate' (seq 0 test_images) w rng hn hf nb_bins H W)
             nb_epochs w rng hn hf nb_bins in
  length L = length steps
  /\ map step_batch steps
     = concat (map (fun e => loader_batches (epoch_start H rng e)) (seq 0 nb_epochs))
  /\ map step_rng steps
     = concat (map (fun e => seq (S (epoch_start H rng e))
                                 (length (loader_batches (epoch_start H rng e))))
                   (seq 0 nb_epochs))
  /\ models_chain (model w) steps (model w')
  /\ Forall2 (fun s l => step_loss noise hn hf nb_bins s = Some l) steps L
  /\ Forall2 (fun s l =>
                exists px,
                  render_rays (NerfModel.forward (model (step_world s)))
                              (map (slice 0 3) (step_batch s))
                              (map (slice 3 6) (step_batch s))
                              hn hf nb_bins (noise (step_rng s)) = Some px
                  /\ length px = length (step_batch s)
                  /\ has_width 3 px
                  /\ (has_width 9 (step_batch s) ->
                      l = spec_colour_error (step_batch s) px))
             steps L.
Proof.
  intros E steps. unfold train in E.
  destruct (history_run _ _ _ _ _ _ _ _ _ _ _ E) as (Hb & Hr & Hm).
  apply train_epochs_history in E. fold steps in E, Hb, Hr, Hm.
  split; [symmetry; now apply Forall2_length in E|].
  repeat (split; [assumption|]).
  revert E. apply Forall2_impl. intros s l. unfold step_loss.
  destruct (render_rays _ _ _ _ _ _ _) as [px|] eqn:Er; [|discriminate].
  cbn [option_map]. intros El; injection El as <-.
  apply render_rays_shape in Er. destruct Er as [Hl Hw]. rewrite length_map in Hl.
  exists px. repeat split; try assumption.
  intros H9. now apply squared_error_spec.
Qed.

End Losses.

Lemma train_returns_losses_witness :
  exists w' rng' L,
    demo_train (always true) demo_testing_dataset 2 = Ok (w', rng', L)
    /\ length L = 2%nat
    /\ Forall2 (fun s l =>
                  exists px,
                    render_rays (NerfModel.forward (model (step_world s)))
                                (map (slice 0 3) (step_batch s))
                                (map (slice 3 6) (step_batch s))
                                2 6 1 (demo_noise (step_rng s)) = Some px
                    /\ length px = length (step_batch s)
                    /\ has_width 3 px
                    /\ (has_width 9 (step_batch s) ->
                        l = spec_colour_error (step_batch s) px))
         (history demo_noise demo_loader demo_backward demo_optimizer_step
                  demo_scheduler_step
                  (fun w rng =>
                     evaluate demo_noise (always true) demo_testing_dataset
                              (seq 0 test_images) w rng 2 6 1 1 1)
                  2 demo_world 0 2 6 1)
         L.
Proof.
  assert (E : exists w' rng' L,
             demo_train (always true) demo_testing_dataset 2 = Ok (w', rng', L)).
  { do 3 eexists. eval_lists. reflexivity. }
  destruct E as (w' & rng' & L & E). exists w', rng', L.
  split; [exact E|].
  pose proof (train_returns_losses _ _ _ _ _ _ _ _ _ _ _ _ _ _ _ _ _ _ _ _ _ E)
    as (H1 & _ & _ & _ & _ & H6).
  split; [|exact H6].
  rewrite H1. unfold history. eval_lists. reflexivity.
Defined.

End LossFacts.
